(** * The ae event library and the adlist linked list of redis 2.8.14

    A shallow embedding of [src/ae.c] (the event loop: descriptor table,
    timers, dispatch) and of the list code of adlist.c (the second half of
    [src/ae.h]), with the properties of the specification proved about it.

    Conventions of the embedding.
    - C [int], [long], [long long] and [time_t] values are integers of [Z].
      The code only adds and subtracts small quantities on them; signed
      overflow has no defined behaviour in C and is not modelled.
    - A function pointer and a [void *] handle are addresses, integers of
      [Z]; the null pointer is [0].  What a callback does when it is called
      is given by an interpretation of the addresses (section variables).
    - The array [events] is a list indexed by the descriptor.  Reading or
      writing a slot outside the array has no defined behaviour in C: the
      model leaves the array as it is there, and the theorems are stated
      for descriptors inside the array.
    - The readiness backend (ae_epoll.c and the like) is not part of the
      sources: whether one of its calls succeeds is an input of the
      operation, and the private block [apidata] is the log of the calls
      it accepted.
    - [zmalloc] is not part of the sources either: whether an allocation
      succeeds is an input of the operation. *)

From stdpp Require Import gmap list.
From Stdlib Require Import ZArith Lia.

Open Scope Z_scope.

(** ** Constants of ae.h *)

Definition AE_OK : Z := 0.
Definition AE_ERR : Z := -1.

Definition AE_NONE : Z := 0.
Definition AE_READABLE : Z := 1.
Definition AE_WRITABLE : Z := 2.

Definition AE_FILE_EVENTS : Z := 1.
Definition AE_TIME_EVENTS : Z := 2.
Definition AE_ALL_EVENTS : Z := Z.lor AE_FILE_EVENTS AE_TIME_EVENTS.
Definition AE_DONT_WAIT : Z := 4.

Definition AE_NOMORE : Z := -1.

(** The null pointer. *)
Definition NULL : Z := 0.

(** ** Data model of ae.h *)

(** [struct aeFileEvent]. *)
Record aeFileEvent := mkFileEvent {
  mask : Z;
  rfileProc : Z;
  wfileProc : Z;
  clientData : Z
}.

(** [struct aeTimeEvent]; the [next] pointer is the tail of the list the
    record is stored in. *)
Record aeTimeEvent := mkTimeEvent {
  te_id : Z;
  when_sec : Z;
  when_ms : Z;
  timeProc : Z;
  finalizerProc : Z;
  te_clientData : Z
}.

(** [struct aeFiredEvent]. *)
Record aeFiredEvent := mkFired {
  fired_fd : Z;
  fired_mask : Z
}.

(** A call accepted by the readiness backend. *)
Inductive apiCall :=
| ApiAddEvent (fd m : Z)
| ApiDelEvent (fd m : Z)
| ApiResize (n : Z).

(** [struct aeEventLoop]. *)
Record aeEventLoop := mkLoop {
  maxfd : Z;
  setsize : Z;
  timeEventNextId : Z;
  lastTime : Z;
  events : list aeFileEvent;
  fired : list aeFiredEvent;
  timeEventHead : list aeTimeEvent;
  stop : Z;
  apidata : list apiCall;
  beforesleep : Z
}.

#[global] Instance aeFileEvent_eq_dec : EqDecision aeFileEvent.
Proof. solve_decision. Defined.
#[global] Instance aeTimeEvent_eq_dec : EqDecision aeTimeEvent.
Proof. solve_decision. Defined.
#[global] Instance aeFiredEvent_eq_dec : EqDecision aeFiredEvent.
Proof. solve_decision. Defined.
#[global] Instance apiCall_eq_dec : EqDecision apiCall.
Proof. solve_decision. Defined.
#[global] Instance aeEventLoop_eq_dec : EqDecision aeEventLoop.
Proof. solve_decision. Defined.

(** Assignments to one field. *)
Definition set_mask (m : Z) (fe : aeFileEvent) : aeFileEvent :=
  mkFileEvent m (rfileProc fe) (wfileProc fe) (clientData fe).
Definition set_rfileProc (p : Z) (fe : aeFileEvent) : aeFileEvent :=
  mkFileEvent (mask fe) p (wfileProc fe) (clientData fe).
Definition set_wfileProc (p : Z) (fe : aeFileEvent) : aeFileEvent :=
  mkFileEvent (mask fe) (rfileProc fe) p (clientData fe).
Definition set_clientData (d : Z) (fe : aeFileEvent) : aeFileEvent :=
  mkFileEvent (mask fe) (rfileProc fe) (wfileProc fe) d.

Definition set_maxfd (v : Z) (l : aeEventLoop) : aeEventLoop :=
  mkLoop v (setsize l) (timeEventNextId l) (lastTime l) (events l) (fired l)
         (timeEventHead l) (stop l) (apidata l) (beforesleep l).
Definition set_setsize (v : Z) (l : aeEventLoop) : aeEventLoop :=
  mkLoop (maxfd l) v (timeEventNextId l) (lastTime l) (events l) (fired l)
         (timeEventHead l) (stop l) (apidata l) (beforesleep l).
Definition set_timeEventNextId (v : Z) (l : aeEventLoop) : aeEventLoop :=
  mkLoop (maxfd l) (setsize l) v (lastTime l) (events l) (fired l)
         (timeEventHead l) (stop l) (apidata l) (beforesleep l).
Definition set_lastTime (v : Z) (l : aeEventLoop) : aeEventLoop :=
  mkLoop (maxfd l) (setsize l) (timeEventNextId l) v (events l) (fired l)
         (timeEventHead l) (stop l) (apidata l) (beforesleep l).
Definition set_events (v : list aeFileEvent) (l : aeEventLoop) : aeEventLoop :=
  mkLoop (maxfd l) (setsize l) (timeEventNextId l) (lastTime l) v (fired l)
         (timeEventHead l) (stop l) (apidata l) (beforesleep l).
Definition set_fired (v : list aeFiredEvent) (l : aeEventLoop) : aeEventLoop :=
  mkLoop (maxfd l) (setsize l) (timeEventNextId l) (lastTime l) (events l) v
         (timeEventHead l) (stop l) (apidata l) (beforesleep l).
Definition set_timeEventHead (v : list aeTimeEvent) (l : aeEventLoop) : aeEventLoop :=
  mkLoop (maxfd l) (setsize l) (timeEventNextId l) (lastTime l) (events l) (fired l)
         v (stop l) (apidata l) (beforesleep l).
Definition set_stop (v : Z) (l : aeEventLoop) : aeEventLoop :=
  mkLoop (maxfd l) (setsize l) (timeEventNextId l) (lastTime l) (events l) (fired l)
         (timeEventHead l) v (apidata l) (beforesleep l).
Definition set_apidata (v : list apiCall) (l : aeEventLoop) : aeEventLoop :=
  mkLoop (maxfd l) (setsize l) (timeEventNextId l) (lastTime l) (events l) (fired l)
         (timeEventHead l) (stop l) v (beforesleep l).
Definition set_beforesleep (v : Z) (l : aeEventLoop) : aeEventLoop :=
  mkLoop (maxfd l) (setsize l) (timeEventNextId l) (lastTime l) (events l) (fired l)
         (timeEventHead l) (stop l) (apidata l) v.

(** ** The descriptor table *)

(** What [zmalloc] and [zrealloc] leave in the cells they do not
    initialise: some bit pattern, here one with a mask that is not
    [AE_NONE], so that nothing holds of a fresh cell by accident. *)
Definition fe_uninit : aeFileEvent := mkFileEvent 85 85 85 85.
Definition fired_uninit : aeFiredEvent := mkFired 85 85.

(** [&eventLoop->events[fd]]: the slot of a descriptor. *)
Definition slot (l : aeEventLoop) (fd : Z) : option aeFileEvent :=
  if fd <? 0 then None else events l !! Z.to_nat fd.

(** [for (i = start; i < start+count; i++) events[i].mask = AE_NONE;] *)
Fixpoint clear_slots (ev : list aeFileEvent) (i count : nat) : list aeFileEvent :=
  match count with
  | O => ev
  | S c => clear_slots (alter (set_mask AE_NONE) i ev) (S i) c
  end.

(** [aeCreateEventLoop]; [now] is what [time(NULL)] returns. *)
Definition aeCreateEventLoop (alloc_loop alloc_events alloc_fired api_ok : bool)
    (now : Z) (size : Z) : option aeEventLoop :=
  if negb alloc_loop then None
  else if negb alloc_events || negb alloc_fired then None
  else if negb api_ok then None
  else
    let n := Z.to_nat size in
    Some (mkLoop (-1) size 0 now
                 (clear_slots (replicate n fe_uninit) 0 n)
                 (replicate n fired_uninit)
                 [] 0 [] NULL).

(** [aeGetSetSize]. *)
Definition aeGetSetSize (l : aeEventLoop) : Z := setsize l.

(** [zrealloc] of an array to [n] cells: the common prefix is kept. *)
Definition zrealloc {A} (garbage : A) (n : nat) (xs : list A) : list A :=
  take n xs ++ replicate (n - length xs) garbage.

(** [aeResizeSetSize]; [api_ok] tells whether [aeApiResize] succeeds. *)
Definition aeResizeSetSize (l : aeEventLoop) (size : Z) (api_ok : bool)
    : Z * aeEventLoop :=
  if size =? setsize l then (AE_OK, l)
  else if maxfd l >=? size then (AE_ERR, l)
  else if negb api_ok then (AE_ERR, l)
  else
    let n := Z.to_nat size in
    let l1 := set_apidata (apidata l ++ [ApiResize size]) l in
    let l2 := set_events (zrealloc fe_uninit n (events l1)) l1 in
    let l3 := set_fired (zrealloc fired_uninit n (fired l2)) l2 in
    let l4 := set_setsize size l3 in
    let start := Z.to_nat (maxfd l4 + 1) in
    (AE_OK, set_events (clear_slots (events l4) start (n - start)) l4).

(** [aeStop]. *)
Definition aeStop (l : aeEventLoop) : aeEventLoop := set_stop 1 l.

(** The assignments of [aeCreateFileEvent] to the slot [fe]:
    [fe->mask |= mask;
     if (mask & AE_READABLE) fe->rfileProc = proc;
     if (mask & AE_WRITABLE) fe->wfileProc = proc;
     fe->clientData = clientData;] *)
Definition create_upd (m proc data : Z) (fe : aeFileEvent) : aeFileEvent :=
  let fe1 := set_mask (Z.lor (mask fe) m) fe in
  let fe2 := if Z.land m AE_READABLE =? 0 then fe1 else set_rfileProc proc fe1 in
  let fe3 := if Z.land m AE_WRITABLE =? 0 then fe2 else set_wfileProc proc fe2 in
  set_clientData data fe3.

(** [aeCreateFileEvent]; [api_ok] tells whether [aeApiAddEvent] succeeds. *)
Definition aeCreateFileEvent (l : aeEventLoop) (fd m proc data : Z) (api_ok : bool)
    : Z * aeEventLoop :=
  if fd >=? setsize l then (AE_ERR, l)
  else if negb api_ok then (AE_ERR, l)
  else
    let l1 := set_apidata (apidata l ++ [ApiAddEvent fd m]) l in
    let l2 := if fd <? 0 then l1
              else set_events (alter (create_upd m proc data) (Z.to_nat fd) (events l1)) l1 in
    (AE_OK, if fd >? maxfd l2 then set_maxfd fd l2 else l2).

(** The loop of [aeDeleteFileEvent]:
    [for (j = n-1; j >= 0; j--) if (events[j].mask != AE_NONE) break;]
    and the value of [j] after it. *)
Fixpoint scan_down (ev : list aeFileEvent) (n : nat) : Z :=
  match n with
  | O => -1
  | S j =>
      match ev !! j with
      | Some fe => if mask fe =? AE_NONE then scan_down ev j else Z.of_nat j
      | None => scan_down ev j
      end
  end.

(** [aeDeleteFileEvent]. *)
Definition aeDeleteFileEvent (l : aeEventLoop) (fd m : Z) : aeEventLoop :=
  if fd >=? setsize l then l
  else
    match slot l fd with
    | None => l
    | Some fe =>
        if mask fe =? AE_NONE then l
        else
          let l1 := set_apidata (apidata l ++ [ApiDelEvent fd m]) l in
          let m' := Z.land (mask fe) (Z.lnot m) in
          let l2 := set_events (alter (set_mask m') (Z.to_nat fd) (events l1)) l1 in
          if (fd =? maxfd l2) && (m' =? AE_NONE)
          then set_maxfd (scan_down (events l2) (Z.to_nat (maxfd l2))) l2
          else l2
    end.

(** [aeGetFileEvents]. *)
Definition aeGetFileEvents (l : aeEventLoop) (fd : Z) : Z :=
  if fd >=? setsize l then 0
  else match slot l fd with Some fe => mask fe | None => 0 end.

(** ** Time *)

(** The loop together with the number of readings of the wall clock made so
    far.  The clock itself is a sequence of readings, seconds and
    microseconds as [gettimeofday] gives them: any behaviour of the wall
    clock, steps backwards included, is one such sequence. *)
Record world := mkWorld {
  loop : aeEventLoop;
  ticks : nat
}.

Definition set_loop (l : aeEventLoop) (w : world) : world := mkWorld l (ticks w).
Definition tick (w : world) : world := mkWorld (loop w) (S (ticks w)).

(** What the dispatcher does that its environment observes. *)
Inductive obs :=
| CallRead (proc fd data m : Z)
| CallWrite (proc fd data m : Z)
| CallTime (proc id data : Z)
| Poll (tvp : option (Z * Z)).

#[global] Instance obs_eq_dec : EqDecision obs.
Proof. solve_decision. Defined.

Definition set_when (sec ms : Z) (te : aeTimeEvent) : aeTimeEvent :=
  mkTimeEvent (te_id te) sec ms (timeProc te) (finalizerProc te) (te_clientData te).
Definition set_when_sec (sec : Z) (te : aeTimeEvent) : aeTimeEvent :=
  set_when sec (when_ms te) te.

(** [prev->next = te->next] for the first record with identifier [id]:
    the record and the list without it. *)
Fixpoint unlink_timer (id : Z) (tes : list aeTimeEvent)
    : option (aeTimeEvent * list aeTimeEvent) :=
  match tes with
  | [] => None
  | te :: rest =>
      if te_id te =? id then Some (te, rest)
      else match unlink_timer id rest with
           | Some (t, rest') => Some (t, te :: rest')
           | None => None
           end
  end.

(** An assignment through the pointer [te]: the record of the list that
    [te] points to is the one that carries its identifier. *)
Fixpoint update_timer (id : Z) (f : aeTimeEvent -> aeTimeEvent)
    (tes : list aeTimeEvent) : list aeTimeEvent :=
  match tes with
  | [] => []
  | te :: rest =>
      if te_id te =? id then f te :: rest else te :: update_timer id f rest
  end.

(** The loop of [aeSearchNearestTimer], entered with [nearest]. *)
Fixpoint nearest_from (nearest : option aeTimeEvent) (tes : list aeTimeEvent)
    : option aeTimeEvent :=
  match tes with
  | [] => nearest
  | te :: rest =>
      let nearest' :=
        match nearest with
        | None => Some te
        | Some n =>
            if (when_sec te <? when_sec n)
               || ((when_sec te =? when_sec n) && (when_ms te <? when_ms n))
            then Some te else Some n
        end in
      nearest_from nearest' rest
  end.

(** [aeSearchNearestTimer]. *)
Definition aeSearchNearestTimer (l : aeEventLoop) : option aeTimeEvent :=
  nearest_from None (timeEventHead l).

(** The computation of [tv] in [aeProcessEvents] when there is a nearest
    timer: seconds and microseconds handed to the backend. *)
Definition timer_timeout (shortest : aeTimeEvent) (now_sec now_ms : Z) : Z * Z :=
  let tv_sec := when_sec shortest - now_sec in
  let '(tv_sec, tv_usec) :=
    if when_ms shortest <? now_ms
    then (tv_sec - 1, ((when_ms shortest + 1000) - now_ms) * 1000)
    else (tv_sec, (when_ms shortest - now_ms) * 1000) in
  let tv_sec := if tv_sec <? 0 then 0 else tv_sec in
  let tv_usec := if tv_usec <? 0 then 0 else tv_usec in
  (tv_sec, tv_usec).

(** The test of [processTimeEvents] that a timer is due:
    [now_sec > te->when_sec ||
     (now_sec == te->when_sec && now_ms >= te->when_ms)]. *)
Definition ripe (t : aeTimeEvent) (now_sec now_ms : Z) : bool :=
  (now_sec >? when_sec t) || ((now_sec =? when_sec t) && (now_ms >=? when_ms t)).

Section Ae.

(** The wall clock: reading number [k] gives seconds and microseconds. *)
Variable clock : nat -> Z * Z.

(** What the functions behind the callback pointers do: a file callback
    (called with descriptor, client data and mask), a time callback (called
    with identifier and client data; it returns an [int]) and a finalizer
    (called with client data).  A callback may change the loop in any way
    and take any time. *)
Variable fileProc_run : Z -> world -> Z -> Z -> Z -> world.
Variable timeProc_run : Z -> world -> Z -> Z -> Z * world.
Variable finalizer_run : Z -> world -> Z -> world.

(** [aeApiPoll]: the descriptors the backend reports ready, in its order. *)
Variable aeApiPoll : aeEventLoop -> option (Z * Z) -> list aeFiredEvent.

(** [time(NULL)]. *)
Definition time_now (w : world) : Z * world := (fst (clock (ticks w)), tick w).

(** [aeGetTime]. *)
Definition aeGetTime (w : world) : (Z * Z) * world :=
  let tv := clock (ticks w) in
  ((fst tv, Z.quot (snd tv) 1000), tick w).

(** [aeAddMillisecondsToNow]. *)
Definition aeAddMillisecondsToNow (w : world) (milliseconds : Z) : (Z * Z) * world :=
  let '((cur_sec, cur_ms), w1) := aeGetTime w in
  let when_sec := cur_sec + Z.quot milliseconds 1000 in
  let when_ms := cur_ms + Z.rem milliseconds 1000 in
  if when_ms >=? 1000 then ((when_sec + 1, when_ms - 1000), w1)
  else ((when_sec, when_ms), w1).

(** [aeCreateTimeEvent]; [alloc_ok] tells whether [zmalloc] succeeds. *)
Definition aeCreateTimeEvent (w : world) (milliseconds proc data fin : Z)
    (alloc_ok : bool) : Z * world :=
  let id := timeEventNextId (loop w) in
  let w1 := set_loop (set_timeEventNextId (id + 1) (loop w)) w in
  if negb alloc_ok then (AE_ERR, w1)
  else
    let '((sec, ms), w2) := aeAddMillisecondsToNow w1 milliseconds in
    let te := mkTimeEvent id sec ms proc fin data in
    (id, set_loop (set_timeEventHead (te :: timeEventHead (loop w2)) (loop w2)) w2).

(** [aeDeleteTimeEvent]. *)
Definition aeDeleteTimeEvent (w : world) (id : Z) : Z * world :=
  match unlink_timer id (timeEventHead (loop w)) with
  | Some (te, rest) =>
      let w1 := set_loop (set_timeEventHead rest (loop w)) w in
      let w2 := if finalizerProc te =? NULL then w1
                else finalizer_run (finalizerProc te) w1 (te_clientData te) in
      (AE_OK, w2)
  | None => (AE_ERR, w)
  end.

(** What [processTimeEvents] does with the value [retval] the callback of
    the timer [id] returned: the timer is set to fire again [retval]
    milliseconds from now, or it is deleted. *)
Definition after_timeProc (w : world) (id retval : Z) : world :=
  if negb (retval =? AE_NOMORE) then
    let '((sec, ms), w') := aeAddMillisecondsToNow w retval in
    set_loop (set_timeEventHead
                (update_timer id (set_when sec ms) (timeEventHead (loop w')))
                (loop w')) w'
  else snd (aeDeleteTimeEvent w id).

(** How a run of a loop that need not terminate ends. *)
Inductive outcome :=
| Finished (processed : Z)
| OutOfFuel.

(** The [while(te)] loop of [processTimeEvents]; [te] is the rest of the
    list from the record the cursor points to, [tr] what was observed so far.
    Each iteration takes one unit of fuel. *)
Fixpoint time_loop (fuel : nat) (maxId : Z) (w : world) (te : list aeTimeEvent)
    (tr : list obs) (processed : Z) : outcome * world * list obs :=
  match fuel with
  | O => (OutOfFuel, w, tr)
  | S fuel' =>
      match te with
      | [] => (Finished processed, w, tr)
      | t :: next =>
          if te_id t >? maxId then time_loop fuel' maxId w next tr processed
          else
            let '((now_sec, now_ms), w1) := aeGetTime w in
            if ripe t now_sec now_ms
            then
              let id := te_id t in
              let '(retval, w2) := timeProc_run (timeProc t) w1 id (te_clientData t) in
              let tr2 := tr ++ [CallTime (timeProc t) id (te_clientData t)] in
              let w3 := after_timeProc w2 id retval in
              time_loop fuel' maxId w3 (timeEventHead (loop w3)) tr2 (processed + 1)
            else time_loop fuel' maxId w1 next tr processed
      end
  end.

(** The start of [processTimeEvents]: the clock skew test and the update of
    [lastTime]. *)
Definition time_skew (w : world) : world :=
  let '(now, w1) := time_now w in
  let l := loop w1 in
  let l1 := if now <? lastTime l
            then set_timeEventHead (map (set_when_sec 0) (timeEventHead l)) l
            else l in
  set_loop (set_lastTime now l1) w1.

(** [processTimeEvents]. *)
Definition processTimeEvents (fuel : nat) (w : world) (tr : list obs)
    : outcome * world * list obs :=
  let w1 := time_skew w in
  let maxId := timeEventNextId (loop w1) - 1 in
  time_loop fuel maxId w1 (timeEventHead (loop w1)) tr 0.

(** The body of the [for] loop of [aeProcessEvents] for one entry of the
    array [fired].  The slot is read again after the read callback, as the
    code does through [fe]. *)
Definition dispatch_fired (w : world) (tr : list obs) (f : aeFiredEvent)
    : world * list obs :=
  let m := fired_mask f in
  let fd := fired_fd f in
  match slot (loop w) fd with
  | None => (w, tr)
  | Some fe =>
      let '(w1, tr1, rfired) :=
        if Z.land (Z.land (mask fe) m) AE_READABLE =? 0 then (w, tr, false)
        else (fileProc_run (rfileProc fe) w fd (clientData fe) m,
              tr ++ [CallRead (rfileProc fe) fd (clientData fe) m], true) in
      match slot (loop w1) fd with
      | None => (w1, tr1)
      | Some fe' =>
          if Z.land (Z.land (mask fe') m) AE_WRITABLE =? 0 then (w1, tr1)
          else if negb rfired || negb (wfileProc fe' =? rfileProc fe')
          then (fileProc_run (wfileProc fe') w1 fd (clientData fe') m,
                tr1 ++ [CallWrite (wfileProc fe') fd (clientData fe') m])
          else (w1, tr1)
      end
  end.

(** [for (j = 0; j < numevents; j++)], entered at [j] with [count] entries
    left; the entry is read from the array [fired] of the loop as it is
    then. *)
Fixpoint dispatch_loop (count j : nat) (w : world) (tr : list obs)
    : world * list obs * Z :=
  match count with
  | O => (w, tr, 0)
  | S c =>
      match fired (loop w) !! j with
      | None => (w, tr, 0)
      | Some f =>
          let '(w1, tr1) := dispatch_fired w tr f in
          let '(w2, tr2, n) := dispatch_loop c (S j) w1 tr1 in
          (w2, tr2, n + 1)
      end
  end.

(** The timeout [tvp] that [aeProcessEvents] hands to [aeApiPoll]. *)
Definition poll_timeout (flags : Z) (w : world) : option (Z * Z) * world :=
  let shortest :=
    if negb (Z.land flags AE_TIME_EVENTS =? 0) && (Z.land flags AE_DONT_WAIT =? 0)
    then aeSearchNearestTimer (loop w) else None in
  match shortest with
  | Some s =>
      let '((now_sec, now_ms), w1) := aeGetTime w in
      (Some (timer_timeout s now_sec now_ms), w1)
  | None =>
      if negb (Z.land flags AE_DONT_WAIT =? 0) then (Some (0, 0), w)
      else (None, w)
  end.

(** [aeProcessEvents]; [fuel] bounds the timer pass. *)
Definition aeProcessEvents (fuel : nat) (w : world) (flags : Z) (tr : list obs)
    : outcome * world * list obs :=
  if (Z.land flags AE_TIME_EVENTS =? 0) && (Z.land flags AE_FILE_EVENTS =? 0)
  then (Finished 0, w, tr)
  else
    let '(w1, tr1, processed) :=
      if negb (maxfd (loop w) =? -1)
         || (negb (Z.land flags AE_TIME_EVENTS =? 0) && (Z.land flags AE_DONT_WAIT =? 0))
      then
        let '(tvp, w0) := poll_timeout flags w in
        let ready := aeApiPoll (loop w0) tvp in
        let fired' := ready ++ drop (length ready) (fired (loop w0)) in
        let w0' := set_loop (set_fired fired' (loop w0)) w0 in
        dispatch_loop (length ready) 0 w0' (tr ++ [Poll tvp])
      else (w, tr, 0) in
    if negb (Z.land flags AE_TIME_EVENTS =? 0) then
      match processTimeEvents fuel w1 tr1 with
      | (Finished n, w2, tr2) => (Finished (processed + n), w2, tr2)
      | (OutOfFuel, w2, tr2) => (OutOfFuel, w2, tr2)
      end
    else (Finished processed, w1, tr1).

End Ae.

(** ** Sequences of calls on the descriptor table *)

(** One call of the registration interface, with the answer of the backend
    where the call asks it. *)
Inductive call :=
| CreateFile (fd m proc data : Z) (api_ok : bool)
| DeleteFile (fd m : Z)
| Resize (size : Z) (api_ok : bool).

Definition run_call (l : aeEventLoop) (c : call) : aeEventLoop :=
  match c with
  | CreateFile fd m proc data api_ok => snd (aeCreateFileEvent l fd m proc data api_ok)
  | DeleteFile fd m => aeDeleteFileEvent l fd m
  | Resize size api_ok => snd (aeResizeSetSize l size api_ok)
  end.

Definition run_calls (l : aeEventLoop) (cs : list call) : aeEventLoop :=
  foldl run_call l cs.

(** The descriptor of a call is a descriptor: it is not negative. *)
Definition call_fd_ok (c : call) : Prop :=
  match c with
  | CreateFile fd _ _ _ _ => 0 <= fd
  | DeleteFile fd _ => 0 <= fd
  | Resize _ _ => True
  end.

(** A registration that names at least one bit. *)
Definition call_mask_ok (c : call) : Prop :=
  match c with
  | CreateFile _ m _ _ _ => m <> AE_NONE
  | _ => True
  end.

(** A descriptor is registered when its slot has a mask other than
    [AE_NONE]. *)
Definition registered (l : aeEventLoop) (fd : Z) : Prop :=
  exists fe, slot l fd = Some fe /\ mask fe <> AE_NONE.

(** [v] is the largest registered descriptor, or -1 when there is none. *)
Definition largest_registered (l : aeEventLoop) (v : Z) : Prop :=
  (forall fd, registered l fd -> fd <= v) /\
  (v = -1 \/ registered l v).

(** The three bounds of the data model. *)
Definition maxfd_bounds (l : aeEventLoop) : Prop :=
  (forall fd fe, slot l fd = Some fe -> mask fe <> AE_NONE -> fd <= maxfd l) /\
  (forall fd fe, slot l fd = Some fe -> maxfd l < fd -> mask fe = AE_NONE) /\
  maxfd l < setsize l.

(** The invariant as the specification states it. *)
Definition table_inv (l : aeEventLoop) : Prop :=
  maxfd_bounds l /\ largest_registered l (maxfd l).

(** The invariant the proofs carry: the array has [setsize] cells and the
    cells above [maxfd] are not registered. *)
Record wf_loop (l : aeEventLoop) : Prop := mk_wf {
  wf_len : length (events l) = Z.to_nat (setsize l);
  wf_size : 0 <= setsize l;
  wf_lo : -1 <= maxfd l;
  wf_hi : maxfd l < setsize l;
  wf_above : forall (i : nat) fe,
      events l !! i = Some fe -> maxfd l < Z.of_nat i -> mask fe = AE_NONE
}.

(** [maxfd] is -1 or points to a registered slot. *)
Definition maxfd_tight (l : aeEventLoop) : Prop :=
  maxfd l = -1 \/
  exists fe, events l !! Z.to_nat (maxfd l) = Some fe /\ mask fe <> AE_NONE.

(** Boolean comparisons of the code turned into propositions. *)
Ltac zbool :=
  repeat match goal with
  | H : (_ >=? _) = _ |- _ => rewrite Z.geb_leb in H
  | H : (_ >? _) = _ |- _ => rewrite Z.gtb_ltb in H
  | H : (_ <? _) = true |- _ => apply Z.ltb_lt in H
  | H : (_ <? _) = false |- _ => apply Z.ltb_ge in H
  | H : (_ <=? _) = true |- _ => apply Z.leb_le in H
  | H : (_ <=? _) = false |- _ => apply Z.leb_gt in H
  | H : (_ =? _) = true |- _ => apply Z.eqb_eq in H
  | H : (_ =? _) = false |- _ => apply Z.eqb_neq in H
  | H : (_ && _) = true |- _ => apply andb_true_iff in H; destruct H
  | H : (_ || _) = false |- _ => apply orb_false_iff in H; destruct H
  | H : negb _ = true |- _ => apply negb_true_iff in H
  | H : negb _ = false |- _ => apply negb_false_iff in H
  end.

(** Field reads through the assignments. *)
Ltac fields :=
  unfold set_maxfd, set_setsize, set_timeEventNextId, set_lastTime, set_events,
    set_fired, set_timeEventHead, set_stop, set_apidata, set_beforesleep,
    set_loop, tick in *;
  cbn [maxfd setsize timeEventNextId lastTime events fired timeEventHead stop
       apidata beforesleep loop ticks fst snd] in *.



(** ** Counting invocations *)



(** The calls one entry of [fired] may cause: none, the read callback, the
    write callback, or the read callback and then the write callback. *)
Definition read_before_write (fd m : Z) (new : list obs) : Prop :=
  new = [] \/
  (exists p d, new = [CallRead p fd d m]) \/
  (exists p d, new = [CallWrite p fd d m]) \/
  (exists p d p' d', new = [CallRead p fd d m; CallWrite p' fd d' m]).

(** ** Some callbacks *)

(** A file callback that leaves the loop alone. *)
Definition idle_fileProc (p : Z) (w : world) (fd data m : Z) : world := w.


(** A time callback that runs once and leaves the loop alone. *)
Definition idle_timeProc (p : Z) (w : world) (id data : Z) : Z * world :=
  (AE_NOMORE, w).

(** A finalizer that leaves the loop alone. *)
Definition idle_finalizer (p : Z) (w : world) (data : Z) : world := w.

(** A one-shot time callback that, at address 11, cancels the timer with
    identifier 0 (as a timeout handler cancels the retry timer of the same
    connection). *)
Definition cancelling_timeProc (p : Z) (w : world) (id data : Z) : Z * world :=
  if p =? 11 then (AE_NOMORE, snd (aeDeleteTimeEvent idle_finalizer w 0))
  else (AE_NOMORE, w).

(** A one-shot time callback that, at address 11, schedules a timer due at
    once (0 milliseconds from now) with the callback at address 12. *)
Definition spawning_timeProc (clock : nat -> Z * Z) (p : Z) (w : world)
    (id data : Z) : Z * world :=
  if p =? 11 then (AE_NOMORE, snd (aeCreateTimeEvent clock w 0 12 0 NULL true))
  else (AE_NOMORE, w).

(** A time callback that asks to be called again at once: it returns 0 and
    leaves the loop alone. *)
Definition restless_timeProc (p : Z) (w : world) (id data : Z) : Z * world := (0, w).

(** A backend that reports no descriptor. *)
Definition quiet_poll (l : aeEventLoop) (tvp : option (Z * Z)) : list aeFiredEvent := [].


(** ** Some loops *)

(** The loop [aeCreateEventLoop] returns when every allocation succeeds. *)
Definition new_loop (now size : Z) : aeEventLoop :=
  default (mkLoop (-1) 0 0 0 [] [] [] 0 [] NULL)
          (aeCreateEventLoop true true true true now size).

(** A wall clock that stands at 100 s. *)
Definition clock_100 (k : nat) : Z * Z := (100, 0).

(** A wall clock that reads 200 s twice and has then been set back to
    100 s. *)
Definition clock_set_back (k : nat) : Z * Z :=
  if (k <? 2)%nat then (200, 0) else (100, 0).

(** A loop created at 200 s on which two timers of 10 s were scheduled: the
    timer 0 with the callback at address 12, then the timer 1 with the
    callback at address 11. *)
Definition two_timer_world : world :=
  let w0 := mkWorld (new_loop 200 4) 0 in
  let w1 := snd (aeCreateTimeEvent clock_set_back w0 10000 12 0 NULL true) in
  snd (aeCreateTimeEvent clock_set_back w1 10000 11 0 NULL true).

(** A wall clock that reads 9.2 s once and 10.5 s from then on. *)
Definition clock_overdue (k : nat) : Z * Z :=
  if (k <? 1)%nat then (9, 200000) else (10, 500000).

(** A loop created at 9 s on which one timer of 1 s was scheduled at 9.2 s:
    it is due at 10.2 s. *)
Definition overdue_world : world :=
  snd (aeCreateTimeEvent clock_overdue (mkWorld (new_loop 9 4) 0) 1000 12 0 NULL true).

(** A loop created at 100 s with one timer, due at once, whose callback is
    at address 11. *)
Definition spawning_world : world :=
  snd (aeCreateTimeEvent clock_100 (mkWorld (new_loop 100 4) 0) 0 11 0 NULL true).


(** ** Timers that fire *)

(** An observation that is a call of a time callback for a timer with an
    identifier up to [maxId]. *)
Definition fired_upto (maxId : Z) (o : obs) : Prop :=
  match o with
  | CallTime _ id _ => id <= maxId
  | _ => False
  end.

(** The timer with identifier [id] was fired. *)
Definition timer_fired (id : Z) (tr : list obs) : Prop :=
  exists p d, CallTime p id d ∈ tr.

(** A step that keeps every pending timer as it is (it may add timers). *)
Definition keeps_timers (w w' : world) : Prop :=
  forall t, t ∈ timeEventHead (loop w) -> t ∈ timeEventHead (loop w').

(** ** The calls of one tick *)








(** Every pending timer has an identifier the counter has passed. *)
Definition ids_below (l : aeEventLoop) : Prop :=
  forall t, t ∈ timeEventHead l -> te_id t < timeEventNextId l.

(** ** The doubly linked list of adlist *)

Module Adlist.

(** [struct listNode]; pointers to nodes are addresses, [NULL] is 0. *)
Record listNode := mkNode {
  prev : Z;
  next : Z;
  value : Z
}.

(** [struct list]; [len] is an [unsigned long]. *)
Record adlist := mkList {
  head : Z;
  tail : Z;
  dup : Z;
  free : Z;
  match_ : Z;
  len : Z
}.

(** The memory that holds the nodes. *)
Abbreviation heap := (gmap Z listNode).

(** [len] is an [unsigned long]: 64 bits on an LP64 platform; [len++] and
    [len--] wrap around. *)
Definition ULONG_MODULUS : Z := 2 ^ 64.

Definition set_prev (p : Z) (n : listNode) : listNode := mkNode p (next n) (value n).
Definition set_next (p : Z) (n : listNode) : listNode := mkNode (prev n) p (value n).

(** [AL_START_HEAD] and [AL_START_TAIL]. *)
Definition AL_START_HEAD : Z := 0.
Definition AL_START_TAIL : Z := 1.

(** [listCreate]; [alloc_ok] tells whether [zmalloc] succeeds. *)
Definition listCreate (alloc_ok : bool) : option adlist :=
  if alloc_ok then Some (mkList NULL NULL NULL NULL NULL 0) else None.

(** [listAddNodeHead]; [node] is what [zmalloc] returns: [NULL], or the
    address of a cell that is not yet part of the memory. *)
Definition listAddNodeHead (h : heap) (l : adlist) (node : Z) (v : Z)
    : option (heap * adlist) :=
  if node =? NULL then None
  else if len l =? 0 then
    Some (<[node := mkNode NULL NULL v]> h,
          mkList node node (dup l) (free l) (match_ l)
                 ((len l + 1) mod ULONG_MODULUS))
  else
    let h1 := <[node := mkNode NULL (head l) v]> h in
    let h2 := alter (set_prev node) (head l) h1 in
    Some (h2, mkList node (tail l) (dup l) (free l) (match_ l)
                     ((len l + 1) mod ULONG_MODULUS)).

(** [listAddNodeTail]. *)
Definition listAddNodeTail (h : heap) (l : adlist) (node : Z) (v : Z)
    : option (heap * adlist) :=
  if node =? NULL then None
  else if len l =? 0 then
    Some (<[node := mkNode NULL NULL v]> h,
          mkList node node (dup l) (free l) (match_ l)
                 ((len l + 1) mod ULONG_MODULUS))
  else
    let h1 := <[node := mkNode (tail l) NULL v]> h in
    let h2 := alter (set_next node) (tail l) h1 in
    Some (h2, mkList (head l) node (dup l) (free l) (match_ l)
                     ((len l + 1) mod ULONG_MODULUS)).

(** [while(index-- && n) n = n->next;] and the value of [n] after it.  A
    pointer that is not [NULL] and points to no node cannot be followed:
    the walk stops there. *)
Fixpoint walk_next (h : heap) (index : nat) (n : Z) : Z :=
  match index with
  | O => n
  | S k =>
      if n =? NULL then n
      else match h !! n with
           | Some nd => walk_next h k (next nd)
           | None => n
           end
  end.

(** [while(index-- && n) n = n->prev;] *)
Fixpoint walk_prev (h : heap) (index : nat) (n : Z) : Z :=
  match index with
  | O => n
  | S k =>
      if n =? NULL then n
      else match h !! n with
           | Some nd => walk_prev h k (prev nd)
           | None => n
           end
  end.

(** [listIndex]. *)
Definition listIndex (h : heap) (l : adlist) (index : Z) : Z :=
  if index <? 0 then walk_prev h (Z.to_nat ((- index) - 1)) (tail l)
  else walk_next h (Z.to_nat index) (head l).

(** The address at position [i] of a sequence of addresses, [NULL] outside
    of it. *)
Definition node_at (ns : list Z) (i : Z) : Z :=
  if i <? 0 then NULL else default NULL (ns !! Z.to_nat i).

(** The header [l] and the memory [h] hold the list whose nodes are, from
    head to tail, at the addresses [ns]. *)
Definition is_list (h : heap) (l : adlist) (ns : list Z) : Prop :=
  len l = Z.of_nat (length ns) /\
  head l = node_at ns 0 /\
  tail l = node_at ns (len l - 1) /\
  forall (i : nat) a, ns !! i = Some a ->
    a <> NULL /\
    exists nd, h !! a = Some nd /\
               next nd = node_at ns (Z.of_nat i + 1) /\
               prev nd = node_at ns (Z.of_nat i - 1).

End Adlist.

(** ** The rest of the interface of ae.c *)

(** [aeSetBeforeSleepProc]. *)
Definition aeSetBeforeSleepProc (l : aeEventLoop) (hook : Z) : aeEventLoop :=
  set_beforesleep hook l.

Section Main.

Variable clock : nat -> Z * Z.
Variable fileProc_run : Z -> world -> Z -> Z -> Z -> world.
Variable timeProc_run : Z -> world -> Z -> Z -> Z * world.
Variable finalizer_run : Z -> world -> Z -> world.
Variable aeApiPoll : aeEventLoop -> option (Z * Z) -> list aeFiredEvent.

(** What the function behind the [beforesleep] pointer does. *)
Variable beforesleep_run : Z -> world -> world.

(** The [while (!eventLoop->stop)] loop of [aeMain].  An iteration takes one
    unit of [fuel]; its timer pass is given [pass_fuel].  The boolean tells
    whether the loop was left because [stop] was set. *)
Fixpoint main_loop (fuel pass_fuel : nat) (w : world) (tr : list obs)
    : bool * world * list obs :=
  match fuel with
  | O => (false, w, tr)
  | S fuel' =>
      if stop (loop w) =? 0 then
        let w1 := if beforesleep (loop w) =? NULL then w
                  else beforesleep_run (beforesleep (loop w)) w in
        match aeProcessEvents clock fileProc_run timeProc_run finalizer_run aeApiPoll
                pass_fuel w1 AE_ALL_EVENTS tr with
        | (Finished _, w2, tr2) => main_loop fuel' pass_fuel w2 tr2
        | (OutOfFuel, w2, tr2) => (false, w2, tr2)
        end
      else (true, w, tr)
  end.

(** [aeMain]. *)
Definition aeMain (fuel pass_fuel : nat) (w : world) (tr : list obs)
    : bool * world * list obs :=
  main_loop fuel pass_fuel (set_loop (set_stop 0 (loop w)) w) tr.

End Main.

Section Wait.

(** The event bits of poll.h, which is not part of the sources. *)
Variables POLLIN POLLOUT POLLERR POLLHUP : Z.

(** What [poll] answers for one descriptor, the events asked for and the
    timeout handed to it (which the call converts to [int]): its return value
    and the [revents] it stored. *)
Variable poll : Z -> Z -> Z -> Z * Z.

(** [pfd.events] as [aeWait] sets it. *)
Definition aeWait_events (m : Z) : Z :=
  let e := 0 in
  let e := if Z.land m AE_READABLE =? 0 then e else Z.lor e POLLIN in
  if Z.land m AE_WRITABLE =? 0 then e else Z.lor e POLLOUT.

(** [retmask] as [aeWait] computes it from [pfd.revents]. *)
Definition aeWait_retmask (revents : Z) : Z :=
  let r := 0 in
  let r := if Z.land revents POLLIN =? 0 then r else Z.lor r AE_READABLE in
  let r := if Z.land revents POLLOUT =? 0 then r else Z.lor r AE_WRITABLE in
  let r := if Z.land revents POLLERR =? 0 then r else Z.lor r AE_WRITABLE in
  if Z.land revents POLLHUP =? 0 then r else Z.lor r AE_WRITABLE.

(** [aeWait]. *)
Definition aeWait (fd m milliseconds : Z) : Z :=
  let '(retval, revents) := poll fd (aeWait_events m) milliseconds in
  if retval =? 1 then aeWait_retmask revents else retval.

End Wait.

(** ** Properties of the timers *)

(** The fire time [(sec, ms)] is not after [(sec', ms')]. *)
Definition when_le (t t' : aeTimeEvent) : Prop :=
  when_sec t < when_sec t' \/ (when_sec t = when_sec t' /\ when_ms t <= when_ms t').

(** The identifiers of the pending timers are below the counter and differ
    from one another. *)
Definition timer_ids_ok (l : aeEventLoop) : Prop :=
  ids_below l /\ NoDup (te_id <$> timeEventHead l).

(** An observation that is the call of a callback. *)
Definition is_call (o : obs) : Prop :=
  match o with
  | Poll _ => False
  | _ => True
  end.

(** An observation that is the call of a time callback. *)
Definition is_time_call (o : obs) : Prop :=
  match o with
  | CallTime _ _ _ => True
  | _ => False
  end.

(** ** The rest of adlist *)

Module AdlistOps.
Import Adlist.

Definition set_head (p : Z) (l : adlist) : adlist :=
  mkList p (tail l) (dup l) (free l) (match_ l) (len l).
Definition set_tail (p : Z) (l : adlist) : adlist :=
  mkList (head l) p (dup l) (free l) (match_ l) (len l).
Definition set_len (n : Z) (l : adlist) : adlist :=
  mkList (head l) (tail l) (dup l) (free l) (match_ l) n.

(** The macros of adlist.h. *)
Definition listLength (l : adlist) : Z := len l.
Definition listFirst (l : adlist) : Z := head l.
Definition listLast (l : adlist) : Z := tail l.
Definition listNodeValue (h : heap) (n : Z) : option Z := value <$> h !! n.

(** A store [p->field = ...]; there is no defined result when [p] leads to
    no node. *)
Definition store (h : heap) (p : Z) (f : listNode -> listNode) : option heap :=
  match h !! p with
  | Some nd => Some (<[p := f nd]> h)
  | None => None
  end.

(** [listInsertNode]; [node] is what [zmalloc] returns, as for
    [listAddNodeHead]. *)
Definition listInsertNode (h : heap) (l : adlist) (old_node node v after : Z)
    : option (heap * adlist) :=
  if node =? NULL then None
  else
    old ← h !! old_node;
    let '(nd, l1) :=
      if after =? 0 then
        (mkNode (prev old) old_node v,
         if head l =? old_node then set_head node l else l)
      else
        (mkNode old_node (next old) v,
         if tail l =? old_node then set_tail node l else l) in
    let h1 := <[node := nd]> h in
    n1 ← h1 !! node;
    h2 ← (if prev n1 =? NULL then Some h1 else store h1 (prev n1) (set_next node));
    n2 ← h2 !! node;
    h3 ← (if next n2 =? NULL then Some h2 else store h2 (next n2) (set_prev node));
    Some (h3, set_len ((len l1 + 1) mod ULONG_MODULUS) l1).

(** [listDelNode].  The third component lists the values handed to the
    [free] method of the list; the cell of the node is given back to the
    allocator. *)
Definition listDelNode (h : heap) (l : adlist) (node : Z)
    : option (heap * adlist * list Z) :=
  nd ← h !! node;
  '(h1, l1) ← (if prev nd =? NULL then Some (h, set_head (next nd) l)
               else h' ← store h (prev nd) (set_next (next nd)); Some (h', l));
  nd1 ← h1 !! node;
  '(h2, l2) ← (if next nd1 =? NULL then Some (h1, set_tail (prev nd1) l1)
               else h' ← store h1 (next nd1) (set_prev (prev nd1)); Some (h', l1));
  nd2 ← h2 !! node;
  let freed := if free l2 =? NULL then [] else [value nd2] in
  Some (delete node h2, set_len ((len l2 - 1) mod ULONG_MODULUS) l2, freed).

(** [listRotate]. *)
Definition listRotate (h : heap) (l : adlist) : option (heap * adlist) :=
  let t := tail l in
  if listLength l <=? 1 then Some (h, l)
  else
    nd ← h !! t;
    let l1 := set_tail (prev nd) l in
    h1 ← store h (tail l1) (set_next NULL);
    h2 ← store h1 (head l1) (set_prev t);
    h3 ← store h2 t (set_prev NULL);
    h4 ← store h3 t (set_next (head l1));
    Some (h4, set_head t l1).

(** [while(len--)] of [listRelease]: the cells are given back one after the
    other, and [freed] collects the values handed to the [free] method. *)
Fixpoint release_loop (h : heap) (fr : Z) (n : nat) (current : Z) (freed : list Z)
    : option (heap * list Z) :=
  match n with
  | O => Some (h, freed)
  | S n' =>
      nd ← h !! current;
      release_loop (delete current h) fr n' (next nd)
        (if fr =? NULL then freed else freed ++ [value nd])
  end.

(** [listRelease]: the memory that is left and the values handed to the
    [free] method. *)
Definition listRelease (h : heap) (l : adlist) : option (heap * list Z) :=
  release_loop h (free l) (Z.to_nat (len l)) (head l) [].

(** [struct listIter]. *)
Record listIter := mkIter {
  it_next : Z;
  direction : Z
}.

(** [listGetIterator]; [alloc_ok] tells whether [zmalloc] succeeds. *)
Definition listGetIterator (l : adlist) (dir : Z) (alloc_ok : bool) : option listIter :=
  if alloc_ok then
    Some (mkIter (if dir =? AL_START_HEAD then head l else tail l) dir)
  else None.

(** [listRewind] and [listRewindTail]. *)
Definition listRewind (l : adlist) (li : listIter) : listIter :=
  mkIter (head l) AL_START_HEAD.
Definition listRewindTail (l : adlist) (li : listIter) : listIter :=
  mkIter (tail l) AL_START_TAIL.

(** [listNext]: the node returned and the iterator after the call. *)
Definition listNext (h : heap) (iter : listIter) : option (Z * listIter) :=
  let current := it_next iter in
  if current =? NULL then Some (current, iter)
  else
    nd ← h !! current;
    Some (current,
          mkIter (if direction iter =? AL_START_HEAD then next nd else prev nd)
                 (direction iter)).

(** [while ((node = listNext(iter)) != NULL) ...]: the nodes the loop sees. *)
Fixpoint visit (h : heap) (fuel : nat) (iter : listIter) : option (list Z) :=
  match fuel with
  | O => None
  | S fuel' =>
      '(node, iter') ← listNext h iter;
      if node =? NULL then Some []
      else ns ← visit h fuel' iter'; Some (node :: ns)
  end.

(** The loop with [listDelNode] on the node just returned, which the
    interface allows. *)
Fixpoint drain (h : heap) (l : adlist) (fuel : nat) (iter : listIter)
    : option (heap * adlist * list Z) :=
  match fuel with
  | O => None
  | S fuel' =>
      '(node, iter') ← listNext h iter;
      if node =? NULL then Some (h, l, [])
      else
        '(h', l', freed) ← listDelNode h l node;
        '(h'', l'', freed') ← drain h' l' fuel' iter';
        Some (h'', l'', freed ++ freed')
  end.

Section Search.

(** What the function behind the [match] pointer answers for a value and
    a key. *)
Variable match_run : Z -> Z -> Z -> Z.

(** Whether [listSearchKey] takes the node with value [v] for [key]. *)
Definition matches (l : adlist) (key v : Z) : bool :=
  if match_ l =? NULL then key =? v
  else negb (match_run (match_ l) v key =? 0).

(** The loop of [listSearchKey]. *)
Fixpoint search_loop (h : heap) (l : adlist) (key : Z) (fuel : nat) (iter : listIter)
    : option Z :=
  match fuel with
  | O => None
  | S fuel' =>
      '(node, iter') ← listNext h iter;
      if node =? NULL then Some NULL
      else
        nd ← h !! node;
        if match_ l =? NULL then
          if key =? value nd then Some node
          else search_loop h l key fuel' iter'
        else
          if match_run (match_ l) (value nd) key =? 0
          then search_loop h l key fuel' iter'
          else Some node
  end.

(** [listSearchKey]; the iterator it gets is used unchecked. *)
Definition listSearchKey (h : heap) (l : adlist) (key : Z) (fuel : nat)
    (alloc_ok : bool) : option Z :=
  iter ← listGetIterator l AL_START_HEAD alloc_ok;
  search_loop h l key fuel iter.

End Search.

(** A list of three nodes with a [free] method. *)
Definition sample_heap : heap :=
  <[3 := mkNode NULL 5 30]> (<[5 := mkNode 3 7 50]> (<[7 := mkNode 5 NULL 70]> ∅)).
Definition sample_list : adlist := mkList 3 7 NULL 99 NULL 3.

Section Dup.

(** What the function behind the [dup] pointer returns for a value. *)
Variable dup_run : Z -> Z -> Z.

(** The value [listDup] stores in the copy of a node with value [v]. *)
Definition dup_value (l : adlist) (v : Z) : Z :=
  if dup l =? NULL then v else dup_run (dup l) v.

(** [listDup] gives up at a node with value [v]: the [dup] method returns
    [NULL] for it, or the allocator has no cell for its copy ([cell] is what
    [zmalloc] returns). *)
Definition dup_stuck (l : adlist) (v cell : Z) : Prop :=
  (dup l <> NULL /\ dup_run (dup l) v = NULL) \/ cell = NULL.

(** The loop of [listDup]; [cells] are the results of the calls of
    [zmalloc] to come, [NULL] once they are used up.  The result is the
    memory, the copy or [None] for [NULL], and the values handed to the
    [free] method. *)
Fixpoint dup_loop (h : heap) (copy : adlist) (fuel : nat) (iter : listIter)
    (cells : list Z) : option (heap * option adlist * list Z) :=
  match fuel with
  | O => None
  | S fuel' =>
      '(node, iter') ← listNext h iter;
      if node =? NULL then Some (h, Some copy, [])
      else
        nd ← h !! node;
        let v := if dup copy =? NULL then value nd
                 else dup_run (dup copy) (value nd) in
        if negb (dup copy =? NULL) && (v =? NULL) then
          '(h', freed) ← listRelease h copy; Some (h', None, freed)
        else
          match listAddNodeTail h copy (hd NULL cells) v with
          | None => '(h', freed) ← listRelease h copy; Some (h', None, freed)
          | Some (h', copy') => dup_loop h' copy' fuel' iter' (tl cells)
          end
  end.

(** [listDup]; [list_ok] and [iter_ok] tell whether the allocations of the
    list and of the iterator succeed.  The iterator is used unchecked. *)
Definition listDup (h : heap) (orig : adlist) (fuel : nat) (list_ok iter_ok : bool)
    (cells : list Z) : option (heap * option adlist * list Z) :=
  match listCreate list_ok with
  | None => Some (h, None, [])
  | Some copy =>
      let copy := mkList (head copy) (tail copy) (dup orig) (free orig) (match_ orig)
                    (len copy) in
      iter ← listGetIterator orig AL_START_HEAD iter_ok;
      dup_loop h copy fuel iter cells
  end.

End Dup.

End AdlistOps.

(** ** Lemmas about the descriptor table *)

Lemma clear_slots_length ev i c : length (clear_slots ev i c) = length ev.
Proof.
  revert ev i. induction c as [|c IH]; intros ev i; simpl; [done|].
  by rewrite IH, length_alter.
Qed.

Lemma clear_slots_lookup ev i c (j : nat) :
  clear_slots ev i c !! j =
  if decide (i <= j < i + c)%nat then set_mask AE_NONE <$> ev !! j else ev !! j.
Proof.
  revert ev i. induction c as [|c IH]; intros ev i; simpl.
  - case_decide; [lia|done].
  - rewrite IH. destruct (decide (i = j)) as [->|Hne].
    + rewrite list_lookup_alter. repeat case_decide; try lia; try done.
    + rewrite list_lookup_alter_ne by done.
      repeat case_decide; try lia; done.
Qed.

Lemma scan_down_spec ev n :
  -1 <= scan_down ev n < Z.of_nat n /\
  (forall (j : nat) fe, scan_down ev n < Z.of_nat j -> (j < n)%nat ->
      ev !! j = Some fe -> mask fe = AE_NONE) /\
  (scan_down ev n <> -1 ->
   exists fe, ev !! Z.to_nat (scan_down ev n) = Some fe /\ mask fe <> AE_NONE).
Proof.
  induction n as [|n (Hb & Habove & Hreg)]; simpl.
  - split; [lia|]. split; [intros; lia|done].
  - destruct (ev !! n) as [fe|] eqn:Hn.
    + destruct (mask fe =? AE_NONE) eqn:Hm.
      * apply Z.eqb_eq in Hm. split; [lia|]. split; [|done].
        intros j fe' Hj Hlt Hfe'. destruct (decide (j = n)) as [->|].
        -- congruence.
        -- apply (Habove j); [done|lia|done].
      * apply Z.eqb_neq in Hm. split; [lia|]. split.
        -- intros; lia.
        -- intros _. exists fe. by rewrite Nat2Z.id.
    + split; [lia|]. split; [|done].
      intros j fe' Hj Hlt Hfe'. destruct (decide (j = n)) as [->|].
      * congruence.
      * apply (Habove j); [done|lia|done].
Qed.

Lemma slot_lookup l fd fe :
  slot l fd = Some fe <-> 0 <= fd /\ events l !! Z.to_nat fd = Some fe.
Proof.
  unfold slot. destruct (fd <? 0) eqn:H.
  - apply Z.ltb_lt in H. split; [done|]. intros [? _]; lia.
  - apply Z.ltb_ge in H. tauto.
Qed.

Lemma wf_bounds l : wf_loop l -> maxfd_bounds l.
Proof.
  intros [Hlen Hsz Hlo Hhi Habove]. unfold maxfd_bounds.
  assert (forall fd fe, slot l fd = Some fe -> maxfd l < fd -> mask fe = AE_NONE) as H.
  { intros fd fe [Hfd Hfe]%slot_lookup Hlt.
    apply (Habove (Z.to_nat fd)); [done|lia]. }
  split; [|split; [exact H|exact Hhi]].
  intros fd fe Hfe Hm. destruct (Z_le_gt_dec fd (maxfd l)); [done|].
  exfalso. apply Hm, (H fd); [done|lia].
Qed.

Lemma wf_tight_inv l : wf_loop l -> maxfd_tight l -> table_inv l.
Proof.
  intros Hwf Ht. split; [by apply wf_bounds|].
  destruct (wf_bounds l Hwf) as (Hreg & _ & _). split.
  - intros fd (fe & Hfe & Hm). by apply (Hreg fd fe).
  - destruct Ht as [E|(fe & Hfe & Hm)]; [by left|].
    destruct (decide (maxfd l = -1)) as [E|Hne]; [by left|right].
    exists fe. split; [|done]. apply slot_lookup. split; [|done].
    destruct Hwf. lia.
Qed.

Lemma create_upd_mask m proc data fe :
  mask (create_upd m proc data fe) = Z.lor (mask fe) m.
Proof.
  unfold create_upd. destruct (Z.land m AE_READABLE =? 0), (Z.land m AE_WRITABLE =? 0); done.
Qed.

(** What a successful [aeCreateFileEvent] leaves. *)
Lemma aeCreateFileEvent_ok l fd m proc data :
  0 <= fd -> fd < setsize l ->
  aeCreateFileEvent l fd m proc data true =
  (AE_OK,
   mkLoop (Z.max (maxfd l) fd) (setsize l) (timeEventNextId l) (lastTime l)
          (alter (create_upd m proc data) (Z.to_nat fd) (events l)) (fired l)
          (timeEventHead l) (stop l) (apidata l ++ [ApiAddEvent fd m]) (beforesleep l)).
Proof.
  intros H0 Hlt. unfold aeCreateFileEvent.
  destruct (fd >=? setsize l) eqn:E1; zbool; [lia|]. simpl negb. cbv iota.
  destruct (fd <? 0) eqn:E2; zbool; [lia|]. fields. fold (create_upd m proc data).
  destruct (fd >? maxfd l) eqn:E3; zbool; fields; f_equal; f_equal; lia.
Qed.

(** What a failed [aeCreateFileEvent] leaves: the loop as it was. *)
Lemma aeCreateFileEvent_err l fd m proc data ok :
  fd >= setsize l \/ ok = false ->
  aeCreateFileEvent l fd m proc data ok = (AE_ERR, l).
Proof.
  intros H. unfold aeCreateFileEvent.
  destruct (fd >=? setsize l) eqn:E1; [done|]. zbool.
  destruct H as [H| ->]; [lia|done].
Qed.

Lemma aeCreateFileEvent_cases l fd m proc data ok :
  (fd < setsize l /\ ok = true) \/ aeCreateFileEvent l fd m proc data ok = (AE_ERR, l).
Proof.
  destruct (Z_lt_ge_dec fd (setsize l)); [|right; apply aeCreateFileEvent_err; by left].
  destruct ok; [by left|right; apply aeCreateFileEvent_err; by right].
Qed.

Lemma create_wf l fd m proc data ok :
  0 <= fd -> wf_loop l -> wf_loop (snd (aeCreateFileEvent l fd m proc data ok)).
Proof.
  intros H0 Hwf.
  destruct (aeCreateFileEvent_cases l fd m proc data ok) as [[Hlt ->]| ->]; [|done].
  rewrite aeCreateFileEvent_ok by done. destruct Hwf as [Hlen Hsz Hlo Hhi Habove].
  split; fields; try lia.
  - by rewrite length_alter.
  - intros i fe Hi Hlt'. rewrite list_lookup_alter_ne in Hi by lia.
    apply (Habove i); [done|lia].
Qed.

Lemma create_tight l fd m proc data ok :
  0 <= fd -> m <> AE_NONE -> wf_loop l -> maxfd_tight l ->
  maxfd_tight (snd (aeCreateFileEvent l fd m proc data ok)).
Proof.
  intros H0 Hm Hwf Ht.
  destruct (aeCreateFileEvent_cases l fd m proc data ok) as [[Hlt ->]| ->]; [|done].
  rewrite aeCreateFileEvent_ok by done. destruct Hwf as [Hlen Hsz Hlo Hhi Habove].
  right. fields.
  destruct (Z_le_gt_dec fd (maxfd l)) as [Hle|Hgt].
  - rewrite Z.max_l by lia. destruct Ht as [E|(fe & Hfe & Hfm)]; [lia|].
    destruct (decide (fd = maxfd l)) as [->|Hne].
    + exists (create_upd m proc data fe). rewrite list_lookup_alter_eq, Hfe.
      split; [done|]. rewrite create_upd_mask. intros [E _]%Z.lor_eq_0_iff. done.
    + exists fe. rewrite list_lookup_alter_ne by lia. done.
  - rewrite Z.max_r by lia.
    destruct (lookup_lt_is_Some_2 (events l) (Z.to_nat fd)) as [fe Hfe]; [lia|].
    exists (create_upd m proc data fe). rewrite list_lookup_alter_eq, Hfe.
    split; [done|]. rewrite create_upd_mask. intros [_ E]%Z.lor_eq_0_iff. done.
Qed.

(** [aeDeleteFileEvent] where it returns at once. *)
Lemma aeDeleteFileEvent_noop l fd m :
  fd >= setsize l \/ (exists fe, slot l fd = Some fe /\ mask fe = AE_NONE) ->
  aeDeleteFileEvent l fd m = l.
Proof.
  intros H. unfold aeDeleteFileEvent.
  destruct (fd >=? setsize l) eqn:E1; [done|]. zbool.
  destruct H as [H|(fe & -> & Hm)]; [lia|]. by rewrite Hm.
Qed.

(** [aeDeleteFileEvent] on a registered descriptor. *)
Lemma aeDeleteFileEvent_act l fd m fe :
  fd < setsize l -> slot l fd = Some fe -> mask fe <> AE_NONE ->
  aeDeleteFileEvent l fd m =
  let m' := Z.land (mask fe) (Z.lnot m) in
  let ev' := alter (set_mask m') (Z.to_nat fd) (events l) in
  mkLoop (if (fd =? maxfd l) && (m' =? AE_NONE)
          then scan_down ev' (Z.to_nat (maxfd l)) else maxfd l)
         (setsize l) (timeEventNextId l) (lastTime l) ev' (fired l)
         (timeEventHead l) (stop l) (apidata l ++ [ApiDelEvent fd m]) (beforesleep l).
Proof.
  intros Hlt Hfe Hm. unfold aeDeleteFileEvent.
  destruct (fd >=? setsize l) eqn:E1; zbool; [lia|]. rewrite Hfe.
  destruct (mask fe =? AE_NONE) eqn:E2; zbool; [done|]. fields.
  by destruct ((fd =? maxfd l) && (Z.land (mask fe) (Z.lnot m) =? AE_NONE)).
Qed.

Lemma aeDeleteFileEvent_cases l fd m :
  aeDeleteFileEvent l fd m = l \/
  exists fe, fd < setsize l /\ slot l fd = Some fe /\ mask fe <> AE_NONE.
Proof.
  unfold aeDeleteFileEvent.
  destruct (fd >=? setsize l) eqn:E1; [by left|]. zbool.
  destruct (slot l fd) as [fe|]; [|by left].
  destruct (mask fe =? AE_NONE) eqn:E2; [by left|]. zbool.
  right. exists fe. repeat split; [lia|done].
Qed.

Lemma delete_wf l fd m : wf_loop l -> wf_loop (aeDeleteFileEvent l fd m).
Proof.
  intros Hwf.
  destruct (aeDeleteFileEvent_cases l fd m) as [->|(fe & Hlt & Hfe & Hm)]; [done|].
  rewrite (aeDeleteFileEvent_act l fd m fe) by done. cbv zeta.
  apply slot_lookup in Hfe as [H0 Hfe].
  destruct Hwf as [Hlen Hsz Hlo Hhi Habove].
  set (m' := Z.land (mask fe) (Z.lnot m)).
  set (ev' := alter (set_mask m') (Z.to_nat fd) (events l)).
  assert (forall (i : nat) fe', ev' !! i = Some fe' -> maxfd l < Z.of_nat i ->
            mask fe' = AE_NONE) as Habove'.
  { intros i fe' Hi Hgt. unfold ev' in Hi.
    destruct (decide (Z.to_nat fd = i)) as [<-|Hne].
    - exfalso. apply Hm. apply (Habove (Z.to_nat fd)); [done|lia].
    - rewrite list_lookup_alter_ne in Hi by done. by apply (Habove i). }
  destruct ((fd =? maxfd l) && (m' =? AE_NONE)) eqn:E.
  - zbool. destruct (scan_down_spec ev' (Z.to_nat (maxfd l))) as (Hb & Hz & _).
    split; fields; try lia.
    + unfold ev'. by rewrite length_alter.
    + intros i fe' Hi Hgt.
      destruct (Z_lt_ge_dec (maxfd l) (Z.of_nat i)); [by apply (Habove' i)|].
      destruct (decide (Z.of_nat i = maxfd l)) as [Hi'|Hi'].
      * unfold ev' in Hi. replace i with (Z.to_nat fd) in Hi by lia.
        rewrite list_lookup_alter_eq, Hfe in Hi. injection Hi as <-. done.
      * apply (Hz i); [done|lia|done].
  - split; fields; try lia; [|done]. unfold ev'. by rewrite length_alter.
Qed.

Lemma delete_tight l fd m :
  wf_loop l -> maxfd_tight l -> maxfd_tight (aeDeleteFileEvent l fd m).
Proof.
  intros Hwf Ht.
  destruct (aeDeleteFileEvent_cases l fd m) as [->|(fe & Hlt & Hfe & Hm)]; [done|].
  rewrite (aeDeleteFileEvent_act l fd m fe) by done. cbv zeta.
  apply slot_lookup in Hfe as [H0 Hfe].
  set (m' := Z.land (mask fe) (Z.lnot m)).
  set (ev' := alter (set_mask m') (Z.to_nat fd) (events l)).
  unfold maxfd_tight.
  destruct ((fd =? maxfd l) && (m' =? AE_NONE)) eqn:E; fields.
  - destruct (scan_down_spec ev' (Z.to_nat (maxfd l))) as (_ & _ & Hr).
    destruct (decide (scan_down ev' (Z.to_nat (maxfd l)) = -1)); [by left|right; auto].
  - destruct Ht as [E'|(fe' & Hfe' & Hm')]; [by left|right].
    destruct (decide (fd = maxfd l)) as [Heq|Hne].
    + rewrite <- Heq. exists (set_mask m' fe). unfold ev'.
      rewrite list_lookup_alter_eq, Hfe. split; [done|]. simpl.
      apply andb_false_iff in E as [E|E]; zbool; [lia|done].
    + exists fe'. unfold ev'. rewrite list_lookup_alter_ne; [done|].
      destruct Hwf as [_ _ Hlo _ Habove]. intros Hc.
      destruct (decide (maxfd l = -1)) as [E'|]; [|lia].
      apply Hm. apply (Habove (Z.to_nat fd)); [done|lia].
Qed.

Lemma zrealloc_length {A} (g : A) n xs : length (zrealloc g n xs) = n.
Proof.
  unfold zrealloc. rewrite length_app, length_take, length_replicate. lia.
Qed.

Lemma zrealloc_lookup {A} (g : A) n xs (i : nat) :
  (i < n)%nat -> (i < length xs)%nat -> zrealloc g n xs !! i = xs !! i.
Proof.
  intros Hn Hl. unfold zrealloc.
  rewrite lookup_app_l by (rewrite length_take; lia).
  by rewrite lookup_take_lt.
Qed.

(** What a successful [aeResizeSetSize] leaves. *)
Lemma aeResizeSetSize_ok l size :
  size <> setsize l -> maxfd l < size ->
  aeResizeSetSize l size true =
  (AE_OK,
   mkLoop (maxfd l) size (timeEventNextId l) (lastTime l)
          (clear_slots (zrealloc fe_uninit (Z.to_nat size) (events l))
                       (Z.to_nat (maxfd l + 1))
                       (Z.to_nat size - Z.to_nat (maxfd l + 1)))
          (zrealloc fired_uninit (Z.to_nat size) (fired l))
          (timeEventHead l) (stop l) (apidata l ++ [ApiResize size]) (beforesleep l)).
Proof.
  intros Hne Hlt. unfold aeResizeSetSize.
  destruct (size =? setsize l) eqn:E1; zbool; [done|].
  destruct (maxfd l >=? size) eqn:E2; zbool; [lia|]. done.
Qed.

Lemma aeResizeSetSize_cases l size ok :
  (size <> setsize l /\ maxfd l < size /\ ok = true) \/
  snd (aeResizeSetSize l size ok) = l.
Proof.
  unfold aeResizeSetSize.
  destruct (size =? setsize l) eqn:E1; zbool; [by right|].
  destruct (maxfd l >=? size) eqn:E2; zbool; [by right|].
  destruct ok; [left; repeat split; [done|lia]|by right].
Qed.

Lemma resize_wf l size ok :
  wf_loop l -> wf_loop (snd (aeResizeSetSize l size ok)).
Proof.
  intros Hwf.
  destruct (aeResizeSetSize_cases l size ok) as [(Hne & Hlt & ->)| ->]; [|done].
  rewrite aeResizeSetSize_ok by done. destruct Hwf as [Hlen Hsz Hlo Hhi Habove].
  split; fields; try lia.
  - by rewrite clear_slots_length, zrealloc_length.
  - intros i fe Hi Hgt. rewrite clear_slots_lookup in Hi.
    assert (i < Z.to_nat size)%nat as Hin.
    { case_decide; [lia|]. apply lookup_lt_Some in Hi.
      by rewrite zrealloc_length in Hi. }
    rewrite decide_True in Hi by lia.
    destruct (zrealloc fe_uninit (Z.to_nat size) (events l) !! i); [|done].
    by injection Hi as <-.
Qed.

Lemma resize_tight l size ok :
  wf_loop l -> maxfd_tight l -> maxfd_tight (snd (aeResizeSetSize l size ok)).
Proof.
  intros Hwf Ht.
  destruct (aeResizeSetSize_cases l size ok) as [(Hne & Hlt & ->)| ->]; [|done].
  rewrite aeResizeSetSize_ok by done. destruct Hwf as [Hlen Hsz Hlo Hhi Habove].
  unfold maxfd_tight. fields.
  destruct Ht as [E|(fe & Hfe & Hm)]; [by left|].
  destruct (decide (maxfd l = -1)); [by left|right].
  exists fe. split; [|done].
  rewrite clear_slots_lookup, decide_False by lia.
  rewrite zrealloc_lookup; [done|lia|lia].
Qed.

Lemma aeCreateEventLoop_Some a b c d now size l :
  aeCreateEventLoop a b c d now size = Some l ->
  l = mkLoop (-1) size 0 now
        (clear_slots (replicate (Z.to_nat size) fe_uninit) 0 (Z.to_nat size))
        (replicate (Z.to_nat size) fired_uninit) [] 0 [] NULL.
Proof.
  unfold aeCreateEventLoop. destruct a, b, c, d; simpl; congruence.
Qed.

Lemma create_loop_wf a b c d now size l :
  0 <= size -> aeCreateEventLoop a b c d now size = Some l ->
  wf_loop l /\ maxfd_tight l.
Proof.
  intros Hsz ->%aeCreateEventLoop_Some. split; [|by left].
  split; fields; try lia.
  - by rewrite clear_slots_length, length_replicate.
  - intros i fe Hi _. rewrite clear_slots_lookup in Hi.
    case_decide as Hd.
    + destruct (replicate (Z.to_nat size) fe_uninit !! i); [|done].
      by injection Hi as <-.
    + apply lookup_lt_Some in Hi. rewrite length_replicate in Hi. lia.
Qed.

Lemma run_call_wf l c : call_fd_ok c -> wf_loop l -> wf_loop (run_call l c).
Proof.
  destruct c; simpl; intros Hc Hwf.
  - by apply create_wf.
  - by apply delete_wf.
  - by apply resize_wf.
Qed.

Lemma run_call_tight l c :
  call_fd_ok c -> call_mask_ok c -> wf_loop l -> maxfd_tight l ->
  maxfd_tight (run_call l c).
Proof.
  destruct c; simpl; intros Hc Hm Hwf Ht.
  - by apply create_tight.
  - by apply delete_tight.
  - by apply resize_tight.
Qed.

Lemma run_calls_wf cs : forall l,
  Forall call_fd_ok cs -> wf_loop l -> wf_loop (run_calls l cs).
Proof.
  induction cs as [|c cs IH]; intros l Hcs Hwf; [done|].
  apply Forall_cons in Hcs as [Hc Hcs]. simpl. apply IH; [done|].
  by apply run_call_wf.
Qed.

Lemma run_calls_tight cs : forall l,
  Forall call_fd_ok cs -> Forall call_mask_ok cs -> wf_loop l -> maxfd_tight l ->
  maxfd_tight (run_calls l cs).
Proof.
  induction cs as [|c cs IH]; intros l Hcs Hms Hwf Ht; [done|].
  apply Forall_cons in Hcs as [Hc Hcs]. apply Forall_cons in Hms as [Hm Hms].
  simpl. apply IH; [done|done|by apply run_call_wf|by apply run_call_tight].
Qed.

(** ** The invariant of the descriptor table *)

(** C1, refuted as stated: [aeCreateFileEvent] called with the mask
    [AE_NONE] on descriptor 2 of a fresh loop of 4 slots returns [AE_OK] and
    raises [maxfd] to 2 although no slot is registered, so [maxfd] is not
    the largest registered descriptor (which would be -1). *)
Lemma file_table_invariant_mask_none :
  ~ (forall now size cs l,
        0 <= size -> Forall call_fd_ok cs ->
        aeCreateEventLoop true true true true now size = Some l ->
        table_inv (run_calls l cs)).
Proof.
  intros H.
  specialize (H 0 4 [CreateFile 2 AE_NONE 7 0 true] _ ltac:(lia)
                ltac:(repeat constructor; simpl; lia) eq_refl).
  destruct H as [_ [_ [H|(fe & Hfe & Hm)]]].
  - vm_compute in H. discriminate.
  - vm_compute in Hfe. injection Hfe as <-. by apply Hm.
Qed.

(** C1, amended: for every event loop produced by [aeCreateEventLoop] and
    every sequence of [aeCreateFileEvent], [aeDeleteFileEvent] and
    [aeResizeSetSize] calls on descriptors (none negative), every slot with
    a mask other than [AE_NONE] has [fd <= maxfd], every slot with
    [fd > maxfd] has the mask [AE_NONE], and [maxfd < setsize]; and when no
    [aeCreateFileEvent] of the sequence is called with the mask [AE_NONE],
    [maxfd] is the largest descriptor with a mask other than [AE_NONE], or
    -1 when no slot is registered. *)
Theorem file_table_invariant a b c d now size cs l :
  0 <= size ->
  aeCreateEventLoop a b c d now size = Some l ->
  Forall call_fd_ok cs ->
  maxfd_bounds (run_calls l cs) /\
  (Forall call_mask_ok cs -> table_inv (run_calls l cs)).
Proof.
  intros Hsz Hl Hcs.
  destruct (create_loop_wf _ _ _ _ _ _ _ Hsz Hl) as [Hwf Ht].
  split.
  - apply wf_bounds. by apply run_calls_wf.
  - intros Hms. apply wf_tight_inv.
    + by apply run_calls_wf.
    + by apply run_calls_tight.
Qed.

(** The invariant on a loop of 4 slots after two registrations, a removal, a
    resize and a registration that is refused. *)
Lemma file_table_invariant_witness :
  let cs := [CreateFile 2 AE_READABLE 7 0 true; CreateFile 3 AE_WRITABLE 8 0 true;
             DeleteFile 3 AE_WRITABLE; Resize 8 true; CreateFile 9 1 7 0 true] in
  exists l, aeCreateEventLoop true true true true 0 4 = Some l /\
            maxfd (run_calls l cs) = 2 /\
            maxfd_bounds (run_calls l cs) /\
            (Forall call_mask_ok cs -> table_inv (run_calls l cs)).
Proof.
  intros cs. eexists. split; [reflexivity|]. split; [reflexivity|].
  apply (file_table_invariant true true true true 0 4 cs).
  - lia.
  - reflexivity.
  - repeat constructor; simpl; lia.
Defined.

(** ** [aeDeleteFileEvent] *)

(** C7: [aeDeleteFileEvent] leaves the loop as it is when [fd >= setsize] or
    the mask of the slot is [AE_NONE]; otherwise it clears exactly the bits
    of the argument in the mask of the slot (and nothing else in the table),
    and when this leaves the mask [AE_NONE] on the descriptor that is
    [maxfd], the new [maxfd] is the largest descriptor with a mask other
    than [AE_NONE], or -1 if none remains. *)
Theorem aeDeleteFileEvent_spec l fd m :
  wf_loop l -> 0 <= fd ->
  (fd >= setsize l -> aeDeleteFileEvent l fd m = l) /\
  (forall fe, slot l fd = Some fe -> mask fe = AE_NONE ->
              aeDeleteFileEvent l fd m = l) /\
  (forall fe, fd < setsize l -> slot l fd = Some fe -> mask fe <> AE_NONE ->
     let l' := aeDeleteFileEvent l fd m in
     (exists fe', slot l' fd = Some fe' /\
        (forall n, 0 <= n ->
           Z.testbit (mask fe') n = Z.testbit (mask fe) n && negb (Z.testbit m n)) /\
        rfileProc fe' = rfileProc fe /\ wfileProc fe' = wfileProc fe /\
        clientData fe' = clientData fe) /\
     (forall fd', fd' <> fd -> slot l' fd' = slot l fd') /\
     setsize l' = setsize l /\
     (fd = maxfd l -> Z.land (mask fe) (Z.lnot m) = AE_NONE ->
        largest_registered l' (maxfd l')) /\
     (~ (fd = maxfd l /\ Z.land (mask fe) (Z.lnot m) = AE_NONE) ->
        maxfd l' = maxfd l)).
Proof.
  intros Hwf H0. split; [|split].
  - intros H. apply aeDeleteFileEvent_noop. by left.
  - intros fe Hfe Hm. apply aeDeleteFileEvent_noop. right. by exists fe.
  - intros fe Hlt Hfe Hm l'.
    assert (wf_loop l') as Hwf' by by apply delete_wf.
    pose proof (aeDeleteFileEvent_act l fd m fe Hlt Hfe Hm) as Hact.
    cbv zeta in Hact. fold l' in Hact.
    apply slot_lookup in Hfe as [_ Hfe].
    split; [|split; [|split; [|split]]].
    + exists (set_mask (Z.land (mask fe) (Z.lnot m)) fe). split.
      * apply slot_lookup. split; [done|]. rewrite Hact. fields.
        by rewrite list_lookup_alter_eq, Hfe.
      * split; [|done]. intros n Hn. simpl.
        by rewrite Z.land_spec, Z.lnot_spec.
    + intros fd' Hne. unfold slot. rewrite Hact. fields.
      destruct (fd' <? 0) eqn:E; [done|]. zbool.
      rewrite list_lookup_alter_ne; [done|lia].
    + rewrite Hact. by fields.
    + intros Heq Hz.
      destruct (wf_bounds l' Hwf') as (Hreg & _ & _). split.
      * intros fd' (fe' & Hfe' & Hm'). by apply (Hreg fd' fe').
      * rewrite Hact. fields.
        rewrite (proj2 (Z.eqb_eq _ _) Heq), (proj2 (Z.eqb_eq _ _) Hz). simpl.
        set (ev' := alter _ _ _).
        destruct (scan_down_spec ev' (Z.to_nat (maxfd l))) as (Hb & _ & Hr).
        destruct (decide (scan_down ev' (Z.to_nat (maxfd l)) = -1)) as [E|E];
          [by left|right].
        destruct (Hr E) as (fe' & Hfe' & Hm'). exists fe'. split; [|done].
        apply slot_lookup. split; [lia|done].
    + intros Hn. rewrite Hact. fields.
      destruct (fd =? maxfd l) eqn:E1; [|done].
      destruct (Z.land (mask fe) (Z.lnot m) =? AE_NONE) eqn:E2; [|done].
      zbool. tauto.
Qed.

(** Removing the only direction of descriptor 3, which is [maxfd], moves
    [maxfd] down to descriptor 1. *)
Lemma aeDeleteFileEvent_spec_witness :
  exists l, aeCreateEventLoop true true true true 0 4 = Some l /\
    let l1 := run_calls l [CreateFile 1 3 7 0 true; CreateFile 3 AE_READABLE 8 0 true] in
    maxfd l1 = 3 /\
    maxfd (aeDeleteFileEvent l1 3 AE_READABLE) = 1 /\
    largest_registered (aeDeleteFileEvent l1 3 AE_READABLE)
                       (maxfd (aeDeleteFileEvent l1 3 AE_READABLE)).
Proof.
  eexists. split; [reflexivity|]. intros l1.
  split; [reflexivity|]. split; [reflexivity|].
  assert (wf_loop l1) as Hwf.
  { apply run_calls_wf.
    - repeat constructor; simpl; lia.
    - by apply (create_loop_wf true true true true 0 4). }
  destruct (aeDeleteFileEvent_spec l1 3 AE_READABLE Hwf ltac:(lia)) as (_ & _ & H).
  destruct (H (mkFileEvent 1 8 85 0) ltac:(reflexivity) ltac:(reflexivity) ltac:(done))
    as (_ & _ & _ & Hl & _).
  apply Hl; reflexivity.
Defined.

(** ** Bits of a mask *)

Lemma land_pow2 a k :
  0 <= k -> Z.land a (2 ^ k) = if Z.testbit a k then 2 ^ k else 0.
Proof.
  intros Hk. apply Z.bits_inj'. intros n Hn.
  rewrite Z.land_spec, Z.pow2_bits_eqb by done.
  destruct (Z.eqb_spec k n) as [->|Hne].
  - destruct (Z.testbit a n); [|by rewrite Z.bits_0].
    by rewrite Z.pow2_bits_true.
  - rewrite andb_false_r. destruct (Z.testbit a k); [|by rewrite Z.bits_0].
    by rewrite Z.pow2_bits_false.
Qed.

Lemma land_pow2_nonzero a k : 0 <= k -> Z.land a (2 ^ k) <> 0 <-> Z.testbit a k = true.
Proof.
  intros Hk. rewrite land_pow2 by done.
  destruct (Z.testbit a k); [|done]. split; [done|]. intros _.
  apply Z.pow_nonzero; lia.
Qed.

Lemma readable_bit a : Z.land a AE_READABLE <> 0 <-> Z.testbit a 0 = true.
Proof. apply (land_pow2_nonzero a 0). lia. Qed.


Lemma land_land_readable a b :
  (Z.land (Z.land a b) AE_READABLE =? 0) = negb (Z.testbit a 0 && Z.testbit b 0).
Proof.
  destruct (Z.eqb_spec (Z.land (Z.land a b) AE_READABLE) 0) as [E|E].
  - destruct (Z.testbit a 0 && Z.testbit b 0) eqn:Hb; [|done].
    exfalso. rewrite <- Z.land_spec in Hb. apply readable_bit in Hb. done.
  - apply readable_bit in E. by rewrite Z.land_spec in E; rewrite E.
Qed.


(** ** [aeCreateFileEvent] *)

(** A call that returned [AE_OK] passed both tests. *)
Lemma aeCreateFileEvent_success l fd m proc data ok l' :
  0 <= fd ->
  aeCreateFileEvent l fd m proc data ok = (AE_OK, l') ->
  fd < setsize l /\
  l' = mkLoop (Z.max (maxfd l) fd) (setsize l) (timeEventNextId l) (lastTime l)
         (alter (create_upd m proc data) (Z.to_nat fd) (events l)) (fired l)
         (timeEventHead l) (stop l) (apidata l ++ [ApiAddEvent fd m]) (beforesleep l).
Proof.
  intros H0 H.
  destruct (aeCreateFileEvent_cases l fd m proc data ok) as [[Hlt ->]|E].
  - rewrite aeCreateFileEvent_ok in H by done. split; [done|]. congruence.
  - rewrite E in H. discriminate.
Qed.

Lemma create_slot l fd m proc data ok l' fe :
  slot l fd = Some fe ->
  aeCreateFileEvent l fd m proc data ok = (AE_OK, l') ->
  slot l' fd = Some (create_upd m proc data fe).
Proof.
  intros [H0 Hfe]%slot_lookup H.
  apply aeCreateFileEvent_success in H as [_ ->]; [|done].
  apply slot_lookup. split; [done|]. fields.
  by rewrite list_lookup_alter_eq, Hfe.
Qed.

(** C8: [aeCreateFileEvent] is additive.  After a successful call with the
    mask [AE_READABLE] installing [f] and a successful call with the mask
    [AE_WRITABLE] installing [g] on the same descriptor, the mask of the
    slot is [AE_READABLE|AE_WRITABLE] (the mask it had, a subset of these
    two bits, joined with them), its read callback is [f] and its write
    callback is [g]. *)
Theorem aeCreateFileEvent_additive l fd f g d1 d2 ok1 ok2 l1 l2 fe :
  slot l fd = Some fe ->
  0 <= mask fe <= 3 ->
  aeCreateFileEvent l fd AE_READABLE f d1 ok1 = (AE_OK, l1) ->
  aeCreateFileEvent l1 fd AE_WRITABLE g d2 ok2 = (AE_OK, l2) ->
  fd < setsize l /\
  exists fe2, slot l2 fd = Some fe2 /\
    mask fe2 = Z.lor AE_READABLE AE_WRITABLE /\
    rfileProc fe2 = f /\ wfileProc fe2 = g.
Proof.
  intros Hfe Hm H1 H2.
  pose proof (create_slot _ _ _ _ _ _ _ _ Hfe H1) as Hfe1.
  pose proof (create_slot _ _ _ _ _ _ _ _ Hfe1 H2) as Hfe2.
  apply slot_lookup in Hfe as [H0 _].
  apply aeCreateFileEvent_success in H1 as [Hlt _]; [|done].
  split; [done|]. eexists. split; [exact Hfe2|].
  split; [|done].
  rewrite !create_upd_mask.
  assert (mask fe = 0 \/ mask fe = 1 \/ mask fe = 2 \/ mask fe = 3) as Hc by lia.
  destruct Hc as [-> |[-> |[-> | ->]]]; reflexivity.
Qed.

(** Two registrations on descriptor 5 of a fresh loop. *)
Lemma aeCreateFileEvent_additive_witness :
  exists l l1 l2,
    aeCreateEventLoop true true true true 0 8 = Some l /\
    aeCreateFileEvent l 5 AE_READABLE 10 100 true = (AE_OK, l1) /\
    aeCreateFileEvent l1 5 AE_WRITABLE 20 200 true = (AE_OK, l2) /\
    5 < setsize l /\
    exists fe2, slot l2 5 = Some fe2 /\ mask fe2 = 3 /\
                rfileProc fe2 = 10 /\ wfileProc fe2 = 20.
Proof.
  eexists _, _, _. split; [reflexivity|]. split; [reflexivity|].
  split; [reflexivity|].
  eapply (aeCreateFileEvent_additive _ 5 10 20 100 200 true true).
  - reflexivity.
  - split; apply Z.leb_le; reflexivity.
  - reflexivity.
  - reflexivity.
Defined.

(** ** Dispatch of one fired entry *)

(** The entry when the read callback runs. *)
Lemma dispatch_fired_read run w tr fd mk fe :
  slot (loop w) fd = Some fe ->
  Z.land (mask fe) AE_READABLE <> 0 -> Z.land mk AE_READABLE <> 0 ->
  dispatch_fired run w tr (mkFired fd mk) =
  let w1 := run (rfileProc fe) w fd (clientData fe) mk in
  let tr1 := tr ++ [CallRead (rfileProc fe) fd (clientData fe) mk] in
  match slot (loop w1) fd with
  | None => (w1, tr1)
  | Some fe' =>
      if Z.land (Z.land (mask fe') mk) AE_WRITABLE =? 0 then (w1, tr1)
      else if negb (wfileProc fe' =? rfileProc fe')
      then (run (wfileProc fe') w1 fd (clientData fe') mk,
            tr1 ++ [CallWrite (wfileProc fe') fd (clientData fe') mk])
      else (w1, tr1)
  end.
Proof.
  intros Hfe Hr%readable_bit Hk%readable_bit. unfold dispatch_fired.
  cbn [fired_fd fired_mask]. rewrite Hfe, land_land_readable, Hr, Hk. done.
Qed.

(** The calls of one entry come in the order read, write. *)
Lemma dispatch_fired_order run w tr fd mk :
  exists new, snd (dispatch_fired run w tr (mkFired fd mk)) = tr ++ new /\
              read_before_write fd mk new.
Proof.
  unfold dispatch_fired, read_before_write. cbn [fired_fd fired_mask].
  destruct (slot (loop w) fd) as [fe|]; [|exists []; by rewrite app_nil_r; auto].
  destruct (Z.land (Z.land (mask fe) mk) AE_READABLE =? 0).
  - destruct (slot (loop w) fd) as [fe'|]; [|exists []; by rewrite app_nil_r; auto].
    destruct (Z.land (Z.land (mask fe') mk) AE_WRITABLE =? 0);
      [exists []; by rewrite app_nil_r; auto|].
    simpl. eexists. split; [done|]. right; right; left. eauto.
  - destruct (slot _ fd) as [fe'|]; [|eexists; split; [done|]; right; left; eauto].
    destruct (Z.land (Z.land (mask fe') mk) AE_WRITABLE =? 0);
      [eexists; split; [done|]; right; left; eauto|].
    simpl. destruct (negb (wfileProc fe' =? rfileProc fe')); simpl.
    + rewrite <- app_assoc. simpl. eexists; split; [done|].
      right; right; right. eauto 10.
    + eexists; split; [done|]. right; left; eauto.
Qed.











(** ** The client data of a slot *)

Lemma create_upd_clientData m proc data fe :
  clientData (create_upd m proc data fe) = data.
Proof. done. Qed.

Lemma create_upd_readable proc data fe :
  create_upd AE_READABLE proc data fe =
  mkFileEvent (Z.lor (mask fe) AE_READABLE) proc (wfileProc fe) data.
Proof. done. Qed.

Lemma create_upd_writable proc data fe :
  create_upd AE_WRITABLE proc data fe =
  mkFileEvent (Z.lor (mask fe) AE_WRITABLE) (rfileProc fe) proc data.
Proof. done. Qed.

(** C10: a slot holds one [clientData] for both directions.  Every
    successful [aeCreateFileEvent] on a descriptor overwrites it, whatever
    the mask of the call; so after [add(fd, READABLE, f, d1)] followed by
    [add(fd, WRITABLE, g, d2)] the client data of the slot is [d2], and
    when the descriptor fires readable the read callback [f] is called with
    [d2]. *)
Theorem clientData_shared run l fd f g d1 d2 ok1 ok2 l1 l2 fe :
  slot l fd = Some fe ->
  aeCreateFileEvent l fd AE_READABLE f d1 ok1 = (AE_OK, l1) ->
  aeCreateFileEvent l1 fd AE_WRITABLE g d2 ok2 = (AE_OK, l2) ->
  (forall m proc data ok l',
      aeCreateFileEvent l fd m proc data ok = (AE_OK, l') ->
      exists fe', slot l' fd = Some fe' /\ clientData fe' = data) /\
  (exists fe2, slot l2 fd = Some fe2 /\ rfileProc fe2 = f /\ clientData fe2 = d2) /\
  (forall n tr mk, Z.land mk AE_READABLE <> 0 ->
     exists rest,
       snd (dispatch_fired run (mkWorld l2 n) tr (mkFired fd mk)) =
       tr ++ CallRead f fd d2 mk :: rest).
Proof.
  intros Hfe H1 H2.
  pose proof (create_slot _ _ _ _ _ _ _ _ Hfe H1) as Hfe1.
  pose proof (create_slot _ _ _ _ _ _ _ _ Hfe1 H2) as Hfe2.
  rewrite create_upd_readable in Hfe1. rewrite create_upd_writable, create_upd_readable in Hfe2.
  cbn [mask rfileProc wfileProc clientData] in Hfe2.
  split; [|split].
  - intros m proc data ok l' H. eexists. split.
    + eapply create_slot; [exact Hfe|exact H].
    + apply create_upd_clientData.
  - eexists. split; [exact Hfe2|]. done.
  - intros n tr mk Hmk.
    destruct (dispatch_fired_order run (mkWorld l2 n) tr fd mk) as (new & Hnew & Hshape).
    rewrite Hnew.
    rewrite (dispatch_fired_read run (mkWorld l2 n) tr fd mk _ Hfe2) in Hnew; [|..|done].
    + cbv zeta in Hnew. cbn [mask rfileProc wfileProc clientData] in Hnew.
      destruct (slot _ fd) as [fe'|] in Hnew.
      * destruct (Z.land (Z.land (mask fe') mk) AE_WRITABLE =? 0) in Hnew.
        -- apply app_inv_head in Hnew. subst new. by exists [].
        -- destruct (negb (wfileProc fe' =? rfileProc fe')) in Hnew.
           ++ simpl in Hnew. rewrite <- app_assoc in Hnew.
              apply app_inv_head in Hnew. subst new. simpl. eauto.
           ++ apply app_inv_head in Hnew. subst new. by exists [].
      * apply app_inv_head in Hnew. subst new. by exists [].
    + cbn [mask]. apply (proj2 (readable_bit _)). rewrite Z.lor_spec, Z.lor_spec.
      change (Z.testbit AE_READABLE 0) with true. by rewrite orb_true_r.
Qed.

(** The read callback of descriptor 5 is called with the client data of the
    later registration for writing. *)
Lemma clientData_shared_witness :
  let l := mkLoop (-1) 8 0 0 (replicate 8 (mkFileEvent 0 85 85 85))
                  (replicate 8 fired_uninit) [] 0 [] NULL in
  let l1 := snd (aeCreateFileEvent l 5 AE_READABLE 10 100 true) in
  let l2 := snd (aeCreateFileEvent l1 5 AE_WRITABLE 20 200 true) in
  aeCreateEventLoop true true true true 0 8 = Some l /\
  snd (dispatch_fired idle_fileProc (mkWorld l2 0) [] (mkFired 5 AE_READABLE))
  = [CallRead 10 5 200 AE_READABLE] /\
  exists rest,
    snd (dispatch_fired idle_fileProc (mkWorld l2 0) [] (mkFired 5 AE_READABLE))
    = [] ++ CallRead 10 5 200 AE_READABLE :: rest.
Proof.
  intros l l1 l2. split; [reflexivity|]. split; [reflexivity|].
  apply (proj2 (proj2 (clientData_shared idle_fileProc l 5 10 20 100 200 true true
                         l1 l2 (mkFileEvent 0 85 85 85) eq_refl eq_refl eq_refl))
           0%nat [] AE_READABLE).
  discriminate.
Defined.

(** ** [aeCreateTimeEvent] *)

(** C6, refuted as stated: when the allocation fails, [aeCreateTimeEvent]
    returns [AE_ERR] but the loop is not the loop it was given: the
    identifier counter was advanced before the allocation was tried. *)
Lemma aeCreateTimeEvent_failure_changes_loop :
  ~ (forall clock w ms proc data fin,
       aeCreateTimeEvent clock w ms proc data fin false = (AE_ERR, w)).
Proof.
  intros H.
  specialize (H clock_set_back two_timer_world 50 12 0 NULL).
  apply (f_equal (fun r => timeEventNextId (loop (snd r)))) in H.
  vm_compute in H. discriminate.
Qed.

(** C6, amended: when [aeCreateTimeEvent] fails to allocate the timer
    record it returns [AE_ERR], the timer list is the same as before the
    call and so is every field of the loop but [timeEventNextId], which is
    one more than before: the identifier is used up. *)
Theorem aeCreateTimeEvent_alloc_failure clock w ms proc data fin :
  aeCreateTimeEvent clock w ms proc data fin false =
    (AE_ERR, set_loop (set_timeEventNextId (timeEventNextId (loop w) + 1) (loop w)) w) /\
  timeEventHead (loop (snd (aeCreateTimeEvent clock w ms proc data fin false)))
    = timeEventHead (loop w) /\
  timeEventNextId (loop (snd (aeCreateTimeEvent clock w ms proc data fin false)))
    = timeEventNextId (loop w) + 1.
Proof. done. Qed.

(** A successful [aeCreateTimeEvent] returns the identifier the counter
    held, puts the new timer at the head of the list and advances the
    counter. *)
Lemma aeCreateTimeEvent_ok clock w ms proc data fin :
  exists sec msec,
    aeCreateTimeEvent clock w ms proc data fin true =
    (timeEventNextId (loop w),
     mkWorld (mkLoop (maxfd (loop w)) (setsize (loop w)) (timeEventNextId (loop w) + 1)
                (lastTime (loop w)) (events (loop w)) (fired (loop w))
                (mkTimeEvent (timeEventNextId (loop w)) sec msec proc fin data
                   :: timeEventHead (loop w))
                (stop (loop w)) (apidata (loop w)) (beforesleep (loop w)))
             (S (ticks w))).
Proof.
  unfold aeCreateTimeEvent, aeAddMillisecondsToNow, aeGetTime. cbn [negb].
  cbv iota. fields.
  destruct (_ >=? 1000); eauto.
Qed.

(** ** The timeout handed to the backend *)

(** The timeout computed for a timer that is due: the seconds are clamped
    to zero, the microseconds are what the subtraction with borrow left. *)
Lemma timer_timeout_overdue t now_sec now_ms :
  0 <= when_ms t < 1000 -> 0 <= now_ms < 1000 ->
  when_sec t < now_sec \/ (when_sec t = now_sec /\ when_ms t <= now_ms) ->
  timer_timeout t now_sec now_ms = (0, ((when_ms t - now_ms) mod 1000) * 1000).
Proof.
  intros Hw Hn Hdue. unfold timer_timeout.
  destruct (when_ms t <? now_ms) eqn:E; zbool.
  - replace ((when_ms t - now_ms) mod 1000) with (when_ms t + 1000 - now_ms).
    2:{ apply Z.mod_unique with (q := -1); lia. }
    destruct (when_sec t - now_sec - 1 <? 0) eqn:E1; zbool; [|lia].
    destruct ((when_ms t + 1000 - now_ms) * 1000 <? 0) eqn:E2; zbool; [lia|done].
  - replace ((when_ms t - now_ms) mod 1000) with (when_ms t - now_ms).
    2:{ symmetry. apply Z.mod_small. lia. }
    destruct (when_sec t - now_sec <? 0) eqn:E1; zbool.
    + destruct ((when_ms t - now_ms) * 1000 <? 0) eqn:E2; zbool; [lia|done].
    + destruct ((when_ms t - now_ms) * 1000 <? 0) eqn:E2; zbool; [lia|].
      f_equal; lia.
Qed.

(** C5, the code at the failing input: the only timer is due at 10.2 s, the
    clock reads 10.5 s, and [aeProcessEvents] hands the backend a timeout
    of 0 s and 700000 microseconds, not zero. *)
Theorem poll_timeout_overdue_not_zero :
  timeEventHead (loop overdue_world) = [mkTimeEvent 0 10 200 12 NULL 0] /\
  fst (aeGetTime clock_overdue overdue_world) = (10, 500) /\
  fst (poll_timeout clock_overdue AE_ALL_EVENTS overdue_world) = Some (0, 700000) /\
  snd (aeProcessEvents clock_overdue idle_fileProc idle_timeProc idle_finalizer
         quiet_poll 10 overdue_world AE_ALL_EVENTS [])
    = [Poll (Some (0, 700000)); CallTime 12 0 0].
Proof. repeat split; reflexivity. Qed.

(** ** The timer pass *)

Section TimerPass.

Variable clock : nat -> Z * Z.
Variable tp : Z -> world -> Z -> Z -> Z * world.
Variable fin : Z -> world -> Z -> world.

Lemma time_loop_nil fuel maxId w tr p :
  time_loop clock tp fin (S fuel) maxId w [] tr p = (Finished p, w, tr).
Proof. done. Qed.

Lemma time_loop_skip fuel maxId w t next tr p :
  maxId < te_id t ->
  time_loop clock tp fin (S fuel) maxId w (t :: next) tr p =
  time_loop clock tp fin fuel maxId w next tr p.
Proof.
  intros H. simpl. destruct (te_id t >? maxId) eqn:E; zbool; [done|lia].
Qed.

Lemma time_loop_wait fuel maxId w t next tr p :
  te_id t <= maxId ->
  ripe t (fst (clock (ticks w))) (Z.quot (snd (clock (ticks w))) 1000) = false ->
  time_loop clock tp fin (S fuel) maxId w (t :: next) tr p =
  time_loop clock tp fin fuel maxId (tick w) next tr p.
Proof.
  intros H Hr. simpl. destruct (te_id t >? maxId) eqn:E; zbool; [lia|].
  by rewrite Hr.
Qed.

Lemma time_loop_fire fuel maxId w t next tr p :
  te_id t <= maxId ->
  ripe t (fst (clock (ticks w))) (Z.quot (snd (clock (ticks w))) 1000) = true ->
  time_loop clock tp fin (S fuel) maxId w (t :: next) tr p =
  let r := tp (timeProc t) (tick w) (te_id t) (te_clientData t) in
  let w3 := after_timeProc clock fin (snd r) (te_id t) (fst r) in
  time_loop clock tp fin fuel maxId w3 (timeEventHead (loop w3))
            (tr ++ [CallTime (timeProc t) (te_id t) (te_clientData t)]) (p + 1).
Proof.
  intros H Hr. simpl. destruct (te_id t >? maxId) eqn:E; zbool; [lia|].
  rewrite Hr. by destruct (tp _ _ _ _).
Qed.

(** The calls a pass adds are calls of time callbacks for timers with an
    identifier up to [maxId]. *)
Lemma time_loop_fired_upto fuel : forall maxId w te tr p,
  exists new, snd (time_loop clock tp fin fuel maxId w te tr p) = tr ++ new /\
              Forall (fired_upto maxId) new.
Proof.
  induction fuel as [|fuel IH]; intros maxId w te tr p.
  - exists []. by rewrite app_nil_r.
  - destruct te as [|t next].
    + exists []. by rewrite app_nil_r.
    + destruct (Z_lt_ge_dec maxId (te_id t)) as [Hgt|Hle].
      * rewrite time_loop_skip by done. apply IH.
      * destruct (ripe t (fst (clock (ticks w))) (Z.quot (snd (clock (ticks w))) 1000))
          eqn:Hr.
        -- rewrite time_loop_fire by (done || lia). cbv zeta.
           edestruct IH as (new & -> & Hnew).
           eexists. rewrite <- app_assoc. split; [done|].
           constructor; [simpl; lia|done].
        -- rewrite time_loop_wait by (done || lia). apply IH.
Qed.

Lemma time_skew_nextId w :
  timeEventNextId (loop (time_skew clock w)) = timeEventNextId (loop w).
Proof.
  unfold time_skew, time_now. fields.
  by destruct (_ <? _).
Qed.

End TimerPass.

(** C3: during one call of [processTimeEvents] no timer whose identifier
    exceeds [maxId = timeEventNextId - 1], captured at the start of the
    pass, is fired: whatever the callbacks do and however long the pass
    runs, every call the pass makes is the call of a time callback for an
    identifier up to [maxId]; a timer created during the pass gets an
    identifier above [maxId] and is put at the head of the list; and the
    loop steps over a timer with such an identifier without calling it. *)
Theorem processTimeEvents_maxId clock tp fin fuel w tr :
  let maxId := timeEventNextId (loop w) - 1 in
  (exists new, snd (processTimeEvents clock tp fin fuel w tr) = tr ++ new /\
               Forall (fired_upto maxId) new) /\
  (forall w0 ms proc data fin0,
     timeEventNextId (loop w) <= timeEventNextId (loop w0) ->
     exists t,
       maxId < fst (aeCreateTimeEvent clock w0 ms proc data fin0 true) /\
       te_id t = fst (aeCreateTimeEvent clock w0 ms proc data fin0 true) /\
       timeEventHead (loop (snd (aeCreateTimeEvent clock w0 ms proc data fin0 true)))
         = t :: timeEventHead (loop w0)) /\
  (forall fuel' w' t next tr' p,
     maxId < te_id t ->
     time_loop clock tp fin (S fuel') maxId w' (t :: next) tr' p =
     time_loop clock tp fin fuel' maxId w' next tr' p).
Proof.
  intros maxId. split; [|split].
  - unfold processTimeEvents. rewrite time_skew_nextId. apply time_loop_fired_upto.
  - intros w0 ms proc data fin0 Hle.
    destruct (aeCreateTimeEvent_ok clock w0 ms proc data fin0) as (sec & msec & ->).
    eexists. cbn [fst snd loop timeEventHead]. split; [unfold maxId; lia|].
    split; [|done]. done.
  - intros. by apply time_loop_skip.
Qed.

(** A callback that schedules a timer due at once: the new timer waits for
    the next pass. *)
Lemma processTimeEvents_maxId_witness :
  (* first pass: the timer 0 fires and schedules the timer 1, due at once,
     which the pass steps over *)
  processTimeEvents clock_100 (spawning_timeProc clock_100) idle_finalizer 10
    spawning_world [] =
  (Finished 1,
   mkWorld (mkLoop (-1) 4 2 100 (events (new_loop 100 4)) (fired (new_loop 100 4))
              [mkTimeEvent 1 100 0 12 NULL 0] 0 [] NULL) 4,
   [CallTime 11 0 0]) /\
  (* second pass: the timer 1 fires *)
  snd (processTimeEvents clock_100 (spawning_timeProc clock_100) idle_finalizer 10
         (snd (fst (processTimeEvents clock_100 (spawning_timeProc clock_100)
                      idle_finalizer 10 spawning_world []))) [])
    = [CallTime 12 1 0] /\
  exists new,
    snd (processTimeEvents clock_100 (spawning_timeProc clock_100) idle_finalizer 10
           spawning_world []) = [] ++ new /\
    Forall (fired_upto 0) new.
Proof.
  split; [reflexivity|]. split; [reflexivity|].
  exact (proj1 (processTimeEvents_maxId clock_100 (spawning_timeProc clock_100)
                  idle_finalizer 10 spawning_world [])).
Defined.

(** ** Clock skew *)

Lemma update_timer_keeps id f tes x :
  x ∈ tes -> te_id x <> id -> x ∈ update_timer id f tes.
Proof.
  intros Hx Hne. induction tes as [|t tes IH]; [done|]. simpl.
  apply elem_of_cons in Hx as [->|Hx].
  - destruct (te_id t =? id) eqn:E; zbool; [done|]. by left.
  - destruct (te_id t =? id) eqn:E; right; auto.
Qed.

Lemma unlink_timer_keeps id tes t rest x :
  unlink_timer id tes = Some (t, rest) -> x ∈ tes -> te_id x <> id -> x ∈ rest.
Proof.
  revert rest. induction tes as [|t' tes IH]; intros rest H Hx Hne; [done|].
  simpl in H. destruct (te_id t' =? id) eqn:E; zbool.
  - injection H as <- <-. apply elem_of_cons in Hx as [->|Hx]; done.
  - destruct (unlink_timer id tes) as [[t0 rest0]|]; [|done].
    injection H as <- <-. apply elem_of_cons in Hx as [->|Hx]; [by left|].
    right. by apply IH.
Qed.

Lemma aeAddMillisecondsToNow_world clock w ms :
  snd (aeAddMillisecondsToNow clock w ms) = tick w.
Proof.
  unfold aeAddMillisecondsToNow, aeGetTime. by destruct (_ >=? 1000).
Qed.

(** After the callback of the timer [id], every other pending timer is
    still pending and unchanged. *)
Lemma after_timeProc_keeps clock fin w id retval x :
  (forall p w d, keeps_timers w (fin p w d)) ->
  x ∈ timeEventHead (loop w) -> te_id x <> id ->
  x ∈ timeEventHead (loop (after_timeProc clock fin w id retval)).
Proof.
  intros Hfin Hx Hne. unfold after_timeProc.
  destruct (negb (retval =? AE_NOMORE)).
  - pose proof (aeAddMillisecondsToNow_world clock w retval) as Hw.
    destruct (aeAddMillisecondsToNow clock w retval) as [[sec ms] w'].
    simpl in Hw. subst w'. fields. by apply update_timer_keeps.
  - unfold aeDeleteTimeEvent.
    destruct (unlink_timer id (timeEventHead (loop w))) as [[t rest]|] eqn:E; [|done].
    cbn [snd]. assert (x ∈ rest) as Hr by by eapply unlink_timer_keeps.
    destruct (finalizerProc t =? NULL); [by fields|].
    apply Hfin. by fields.
Qed.

Lemma ripe_zero t now_sec now_ms : when_sec t = 0 -> 0 < now_sec -> ripe t now_sec now_ms = true.
Proof.
  intros Hz Hpos. unfold ripe. rewrite Hz.
  destruct (now_sec >? 0) eqn:E; zbool; [done|lia].
Qed.

Section Skew.

Variable clock : nat -> Z * Z.
Variable tp : Z -> world -> Z -> Z -> Z * world.
Variable fin : Z -> world -> Z -> world.

(** The clock reads a time after the epoch. *)
Hypothesis clock_pos : forall k, 0 < fst (clock k).

(** No callback removes or changes a pending timer. *)
Hypothesis tp_keeps : forall p w id d, keeps_timers w (snd (tp p w id d)).
Hypothesis fin_keeps : forall p w d, keeps_timers w (fin p w d).

(** A pass that ends has fired every timer of [ids] that was set to second
    0 when it had not fired yet. *)
Lemma time_loop_fires_zeroed maxId (ids : list Z) tr0 fuel :
  forall w te pre nw p n w' tr',
    timeEventHead (loop w) = pre ++ te ->
    (forall x, x ∈ pre -> te_id x <= maxId -> when_sec x <> 0) ->
    (forall i, i ∈ ids ->
       timer_fired i nw \/
       exists x, x ∈ timeEventHead (loop w) /\ te_id x = i /\ when_sec x = 0) ->
    (forall i, i ∈ ids -> i <= maxId) ->
    time_loop clock tp fin fuel maxId w te (tr0 ++ nw) p = (Finished n, w', tr') ->
    exists nw', tr' = tr0 ++ nw' /\ forall i, i ∈ ids -> timer_fired i nw'.
Proof.
  induction fuel as [|fuel IH]; intros w te pre nw p n w' tr' Hl Hpre HJ Hids Hrun;
    [done|].
  destruct te as [|t next].
  - rewrite time_loop_nil in Hrun. injection Hrun as _ <- <-.
    exists nw. split; [done|]. intros i Hi.
    destruct (HJ i Hi) as [Hf|(x & Hx & Hxi & Hz)]; [done|].
    exfalso. rewrite app_nil_r in Hl. rewrite Hl in Hx.
    apply (Hpre x Hx); [|done]. rewrite Hxi. by apply Hids.
  - destruct (Z_lt_ge_dec maxId (te_id t)) as [Hgt|Hle].
    + rewrite time_loop_skip in Hrun by done.
      apply (IH w next (pre ++ [t]) nw p n w' tr'); try done.
      * by rewrite <- app_assoc.
      * intros x [Hx|Hx%list_elem_of_singleton]%elem_of_app Hxm; [by apply Hpre|].
        subst x. lia.
    + destruct (ripe t (fst (clock (ticks w))) (Z.quot (snd (clock (ticks w))) 1000))
        eqn:Hr.
      * rewrite time_loop_fire in Hrun by (done || lia). cbv zeta in Hrun.
        rewrite <- app_assoc in Hrun.
        set (r := tp (timeProc t) (tick w) (te_id t) (te_clientData t)) in *.
        set (w3 := after_timeProc clock fin (snd r) (te_id t) (fst r)) in *.
        apply (IH w3 (timeEventHead (loop w3)) []
                 (nw ++ [CallTime (timeProc t) (te_id t) (te_clientData t)])
                 (p + 1) n w' tr'); try done.
        { intros x Hx. by apply elem_of_nil in Hx. }
        intros i Hi. destruct (decide (i = te_id t)) as [->|Hne].
        { left. exists (timeProc t), (te_clientData t).
          apply elem_of_app. right. by left. }
        destruct (HJ i Hi) as [(q & d & Hf)|(x & Hx & Hxi & Hz)].
        { left. exists q, d. apply elem_of_app. by left. }
        right. exists x. split; [|done].
        apply after_timeProc_keeps; [done| |congruence].
        apply tp_keeps. by fields.
      * rewrite time_loop_wait in Hrun by (done || lia).
        apply (IH (tick w) next (pre ++ [t]) nw p n w' tr'); try done.
        -- fields. by rewrite <- app_assoc.
        -- intros x [Hx|Hx%list_elem_of_singleton]%elem_of_app Hxm; [by apply Hpre|].
           subst x. intros Hz. rewrite ripe_zero in Hr; done.
Qed.

End Skew.

(** Timers scheduled through the interface have identifiers below the
    counter. *)
Lemma aeCreateEventLoop_ids_below a b c d now size l :
  aeCreateEventLoop a b c d now size = Some l -> ids_below l.
Proof.
  intros ->%aeCreateEventLoop_Some t Ht. by apply elem_of_nil in Ht.
Qed.

Lemma aeCreateTimeEvent_ids_below clock w ms proc data fin ok :
  ids_below (loop w) ->
  ids_below (loop (snd (aeCreateTimeEvent clock w ms proc data fin ok))).
Proof.
  intros Hids. destruct ok.
  - destruct (aeCreateTimeEvent_ok clock w ms proc data fin) as (sec & msec & ->).
    intros t Ht. fields. apply elem_of_cons in Ht as [->|Ht]; [simpl; lia|].
    specialize (Hids t Ht). lia.
  - intros t Ht. unfold aeCreateTimeEvent in *. simpl in *. fields.
    specialize (Hids t Ht). lia.
Qed.

Lemma time_skew_back clock w :
  fst (clock (ticks w)) < lastTime (loop w) ->
  time_skew clock w =
  mkWorld (mkLoop (maxfd (loop w)) (setsize (loop w)) (timeEventNextId (loop w))
             (fst (clock (ticks w))) (events (loop w)) (fired (loop w))
             (map (set_when_sec 0) (timeEventHead (loop w)))
             (stop (loop w)) (apidata (loop w)) (beforesleep (loop w)))
          (S (ticks w)).
Proof.
  intros H. unfold time_skew, time_now. fields.
  destruct (_ <? _) eqn:E; zbool; [done|lia].
Qed.

(** ** Taking a timer out of the list *)

Lemma unlink_timer_Some id tes t rest :
  unlink_timer id tes = Some (t, rest) ->
  exists pre post, tes = pre ++ t :: post /\ rest = pre ++ post /\ te_id t = id /\
                   forall x, x ∈ pre -> te_id x <> id.
Proof.
  revert rest. induction tes as [|t' tes IH]; intros rest H; [done|].
  simpl in H. destruct (te_id t' =? id) eqn:E; zbool.
  - injection H as <- <-. exists [], tes. repeat split; try done.
    intros x Hx. by apply elem_of_nil in Hx.
  - destruct (unlink_timer id tes) as [[t0 rest0]|]; [|done].
    injection H as <- <-.
    destruct (IH rest0 eq_refl) as (pre & post & -> & -> & Hid & Hpre).
    exists (t' :: pre), post. repeat split; try done.
    intros x [->|Hx]%elem_of_cons; [done|by apply Hpre].
Qed.

Lemma unlink_timer_None id tes :
  unlink_timer id tes = None <-> forall x, x ∈ tes -> te_id x <> id.
Proof.
  induction tes as [|t' tes IH]; simpl.
  - split; [|done]. intros _ x Hx. by apply elem_of_nil in Hx.
  - destruct (te_id t' =? id) eqn:E; zbool.
    + split; [done|]. intros H. exfalso. apply (H t'); [by left|done].
    + destruct (unlink_timer id tes) as [[t0 rest0]|].
      * split; [done|]. intros H. exfalso.
        assert (Some (t0, rest0) = None) as Hc; [|done].
        apply IH. intros x Hx. apply H. by right.
      * split; [|done]. intros _ x [->|Hx]%elem_of_cons; [done|].
        by apply (proj1 IH).
Qed.

(** ** A pass over one-shot timers *)

Section OneShot.

Variable clock : nat -> Z * Z.
Variable tp : Z -> world -> Z -> Z -> Z * world.
Variable fin : Z -> world -> Z -> world.

(** Every time callback returns [AE_NOMORE] and leaves the timers alone, and
    so does every finalizer. *)
Hypothesis tp_one_shot : forall p w id d,
  fst (tp p w id d) = AE_NOMORE /\
  timeEventHead (loop (snd (tp p w id d))) = timeEventHead (loop w).
Hypothesis fin_idle : forall p w d,
  timeEventHead (loop (fin p w d)) = timeEventHead (loop w).

Lemma after_one_shot w id x :
  x ∈ timeEventHead (loop w) -> te_id x = id ->
  S (length (timeEventHead (loop (after_timeProc clock fin w id AE_NOMORE))))
    = length (timeEventHead (loop w)).
Proof.
  intros Hx Hid. unfold after_timeProc. rewrite Z.eqb_refl. cbn [negb].
  unfold aeDeleteTimeEvent.
  destruct (unlink_timer id (timeEventHead (loop w))) as [[t rest]|] eqn:E.
  2:{ exfalso. by apply (proj1 (unlink_timer_None id _) E x). }
  apply unlink_timer_Some in E as (pre & post & Hl & -> & _ & _). cbn [snd].
  assert (S (length (pre ++ post)) = length (timeEventHead (loop w))) as Hlen.
  { rewrite Hl, !length_app. simpl. lia. }
  destruct (finalizerProc t =? NULL); [by fields|].
  rewrite fin_idle. by fields.
Qed.

Lemma time_loop_one_shot maxId fuel : forall w te pre tr p,
  timeEventHead (loop w) = pre ++ te ->
  (length te + 1
   + length (timeEventHead (loop w)) * (length (timeEventHead (loop w)) + 1)
   <= fuel)%nat ->
  exists k w' tr',
    time_loop clock tp fin fuel maxId w te tr p = (Finished (p + Z.of_nat k), w', tr') /\
    (length (timeEventHead (loop w')) + k = length (timeEventHead (loop w)))%nat.
Proof.
  induction fuel as [|fuel IH]; intros w te pre tr p Hl Hfuel; [lia|].
  destruct te as [|t next].
  - rewrite time_loop_nil. exists 0%nat, w, tr.
    change (Z.of_nat 0) with 0. rewrite Z.add_0_r. split; [done|].
    apply Nat.add_0_r.
  - destruct (Z_lt_ge_dec maxId (te_id t)) as [Hgt|Hle].
    + rewrite time_loop_skip by done.
      apply (IH w next (pre ++ [t])); [by rewrite <- app_assoc|simpl in Hfuel; lia].
    + destruct (ripe t (fst (clock (ticks w))) (Z.quot (snd (clock (ticks w))) 1000))
        eqn:Hr.
      * rewrite time_loop_fire by (done || lia). cbv zeta.
        destruct (tp_one_shot (timeProc t) (tick w) (te_id t) (te_clientData t))
          as [Hret Hkeep].
        rewrite Hret.
        set (w2 := snd (tp (timeProc t) (tick w) (te_id t) (te_clientData t))) in *.
        assert (t ∈ timeEventHead (loop w2)) as Ht.
        { rewrite Hkeep. fields. rewrite Hl. apply elem_of_app. right. by left. }
        pose proof (after_one_shot w2 (te_id t) t Ht eq_refl) as Hlen.
        rewrite Hkeep in Hlen. fields.
        set (w3 := after_timeProc clock fin w2 (te_id t) AE_NOMORE) in *.
        destruct (IH w3 (timeEventHead (loop w3)) []
                    (tr ++ [CallTime (timeProc t) (te_id t) (te_clientData t)])
                    (p + 1)) as (k & w' & tr' & Hrun & Hk); [done| |].
        { simpl in Hfuel. nia. }
        exists (S k), w', tr'. split; [|lia].
        rewrite Hrun. f_equal. f_equal. f_equal. lia.
      * rewrite time_loop_wait by (done || lia).
        apply (IH (tick w) next (pre ++ [t])).
        -- fields. by rewrite <- app_assoc.
        -- fields. simpl in Hfuel. lia.
Qed.

End OneShot.

(** ** More fuel *)

(** A pass that has ended is not changed by more fuel. *)
Lemma time_loop_more_fuel clock tp fin maxId fuel : forall w te tr p n w' tr',
  time_loop clock tp fin fuel maxId w te tr p = (Finished n, w', tr') ->
  forall k, time_loop clock tp fin (fuel + k) maxId w te tr p = (Finished n, w', tr').
Proof.
  induction fuel as [|fuel IH]; intros w te tr p n w' tr' H k; [done|].
  change (S fuel + k)%nat with (S (fuel + k)).
  destruct te as [|t next].
  - by rewrite time_loop_nil in *.
  - destruct (Z_lt_ge_dec maxId (te_id t)) as [Hgt|Hle].
    + rewrite time_loop_skip in * by done. by apply IH.
    + destruct (ripe t (fst (clock (ticks w))) (Z.quot (snd (clock (ticks w))) 1000))
        eqn:Hr.
      * rewrite time_loop_fire in * by (done || lia). cbv zeta in *. by apply IH.
      * rewrite time_loop_wait in * by (done || lia). by apply IH.
Qed.

(** ** A pass that never ends *)

(** The timer 1, whose callback returns 0, is ripe again as soon as it has
    been rescheduled; as it is the first record of the list, the loop, which
    starts again from the head after every call, never gets past it. *)
Lemma restless_loop fuel : forall w s rest tr p,
  timeEventHead (loop w) = mkTimeEvent 1 s 0 11 NULL 0 :: rest ->
  s <= 100 -> (2 <= ticks w)%nat ->
  Forall (fun o => o = CallTime 11 1 0) tr ->
  exists w' tr',
    time_loop clock_set_back restless_timeProc idle_finalizer fuel 1 w
      (timeEventHead (loop w)) tr p = (OutOfFuel, w', tr') /\
    Forall (fun o => o = CallTime 11 1 0) tr'.
Proof.
  induction fuel as [|fuel IH]; intros w s rest tr p Hhead Hs Hticks Htr.
  - by exists w, tr.
  - assert (forall k, (2 <= k)%nat -> clock_set_back k = (100, 0)) as Hclock.
    { intros k Hk. unfold clock_set_back.
      destruct (k <? 2)%nat eqn:E; [|done]. apply Nat.ltb_lt in E. lia. }
    rewrite Hhead. rewrite time_loop_fire; cbn [te_id]; [|lia|].
    2:{ rewrite Hclock by done. unfold ripe. cbn [fst snd when_sec when_ms].
        destruct (100 >? s) eqn:E1; [done|]. zbool.
        assert (s = 100) as -> by lia. done. }
    cbv zeta. cbn [timeProc te_clientData restless_timeProc fst snd].
    set (w3 := after_timeProc clock_set_back idle_finalizer (tick w) 1 0).
    assert (timeEventHead (loop w3) = mkTimeEvent 1 100 0 11 NULL 0 :: rest /\
            ticks w3 = S (S (ticks w))) as (Hhead3 & Hticks3).
    { unfold w3, after_timeProc, aeAddMillisecondsToNow, aeGetTime.
      cbn [negb Z.eqb AE_NOMORE]. cbn [ticks tick loop].
      rewrite Hclock by lia. cbn [fst snd].
      change (Z.quot 0 1000) with 0. change (Z.rem 0 1000) with 0.
      change (0 + 0 >=? 1000) with false. cbn iota beta.
      cbn [loop tick set_loop]. fields. rewrite Hhead.
      cbn [update_timer te_id]. change (1 =? 1) with true. cbn iota.
      split; [|done]. unfold set_when. cbn. done. }
    destruct (IH w3 100 rest (tr ++ [CallTime 11 1 0]) (p + 1)) as (w' & tr' & Hrun & Hall);
      [done|lia|lia| |].
    { apply Forall_app. split; [done|]. by constructor. }
    exists w', tr'. by rewrite Hrun.
Qed.

Lemma two_timer_world_timers :
  timeEventHead (loop two_timer_world)
  = [mkTimeEvent 1 210 0 11 NULL 0; mkTimeEvent 0 210 0 12 NULL 0] /\
  timeEventNextId (loop two_timer_world) = 2 /\
  ticks two_timer_world = 2%nat /\
  lastTime (loop two_timer_world) = 200.
Proof. repeat split; vm_compute; reflexivity. Qed.

Lemma two_timer_world_skew :
  fst (clock_set_back (ticks two_timer_world)) < lastTime (loop two_timer_world).
Proof. apply Z.ltb_lt. vm_compute. reflexivity. Qed.

(** C4, refuted as stated: a timer pending at the start of a pass that
    follows a step backwards of the clock need not fire during the pass,
    for two reasons.  Of two pending timers, the callback of the first one
    cancels the second with [aeDeleteTimeEvent]: the pass ends having called
    the first callback only.  And when the callback of the first timer
    returns 0, the timer is due again at once: the pass calls it for ever,
    it does not end whatever the fuel, and the second timer is never
    called. *)
Lemma clock_skew_not_all_fire :
  ~ (forall clock tp fin fuel w tr n w' tr',
       fst (clock (ticks w)) < lastTime (loop w) ->
       processTimeEvents clock tp fin fuel w tr = (Finished n, w', tr') ->
       forall t, t ∈ timeEventHead (loop w) -> timer_fired (te_id t) tr') /\
  (fst (clock_set_back (ticks two_timer_world)) < lastTime (loop two_timer_world) /\
   mkTimeEvent 0 210 0 12 NULL 0 ∈ timeEventHead (loop two_timer_world) /\
   forall fuel, exists w' tr',
     processTimeEvents clock_set_back restless_timeProc idle_finalizer fuel
       two_timer_world [] = (OutOfFuel, w', tr') /\
     ~ timer_fired 0 tr').
Proof.
  destruct two_timer_world_timers as (Hhead & Hnext & Hticks & Hlast).
  split; [|split; [|split]].
  - intros H.
    assert (processTimeEvents clock_set_back cancelling_timeProc idle_finalizer 10
              two_timer_world []
            = (Finished 1,
               snd (fst (processTimeEvents clock_set_back cancelling_timeProc
                           idle_finalizer 10 two_timer_world [])),
               [CallTime 11 1 0])) as E by (vm_compute; reflexivity).
    destruct (H _ _ _ _ _ _ _ _ _ two_timer_world_skew E (mkTimeEvent 0 210 0 12 NULL 0))
      as (p & d & Hin).
    + rewrite Hhead. right. left.
    + apply list_elem_of_singleton in Hin. discriminate.
  - exact two_timer_world_skew.
  - rewrite Hhead. right. left.
  - intros fuel. unfold processTimeEvents.
    rewrite (time_skew_back _ _ two_timer_world_skew). cbn [loop timeEventNextId].
    rewrite Hnext, Hhead, Hticks. change (2 - 1) with 1.
    match goal with
    | |- context [time_loop _ _ _ _ _ ?w _ _ _] =>
        destruct (restless_loop fuel w 0 [mkTimeEvent 0 0 0 12 NULL 0] [] 0)
          as (w' & tr' & Hrun & Hall)
    end; [done|lia|cbn; lia|done|].
    cbn [loop timeEventHead] in Hrun.
    exists w', tr'. split; [exact Hrun|].
    intros (p & d & Hin). rewrite Forall_forall in Hall.
    specialize (Hall _ Hin). discriminate.
Qed.

(** C4, amended: at the start of a [processTimeEvents] pass, if the current
    time in seconds is less than [lastTime], the [when_sec] field of every
    pending timer is set to 0 and [lastTime] is set to the current time;
    every pending timer is then ripe at every reading of a clock that is
    after the epoch.  When no callback removes or changes a pending timer,
    every timer that was pending at the start has fired when the pass ends,
    and more fuel does not change what a pass that has ended returns.  The
    pass does end, within [(n+1)^2] iterations for [n] pending timers, and
    has then fired every one of them, when every time callback returns
    [AE_NOMORE] and callbacks and finalizers leave the list of timers as it
    is. *)
Theorem clock_skew_fires_all clock tp fin w :
  fst (clock (ticks w)) < lastTime (loop w) ->
  (timeEventHead (loop (time_skew clock w))
     = map (set_when_sec 0) (timeEventHead (loop w)) /\
   (forall t, t ∈ timeEventHead (loop (time_skew clock w)) -> when_sec t = 0) /\
   lastTime (loop (time_skew clock w)) = fst (clock (ticks w))) /\
  (forall t now_sec now_ms,
     t ∈ timeEventHead (loop (time_skew clock w)) -> 0 < now_sec ->
     ripe t now_sec now_ms = true) /\
  ((forall k, 0 < fst (clock k)) ->
   (forall p w id d, keeps_timers w (snd (tp p w id d))) ->
   (forall p w d, keeps_timers w (fin p w d)) ->
   ids_below (loop w) ->
   forall fuel tr n w' tr',
     processTimeEvents clock tp fin fuel w tr = (Finished n, w', tr') ->
     (forall k, processTimeEvents clock tp fin (fuel + k) w tr = (Finished n, w', tr')) /\
     exists new, tr' = tr ++ new /\
       forall t, t ∈ timeEventHead (loop w) -> timer_fired (te_id t) new) /\
  ((forall k, 0 < fst (clock k)) ->
   (forall p w id d,
      fst (tp p w id d) = AE_NOMORE /\
      timeEventHead (loop (snd (tp p w id d))) = timeEventHead (loop w)) ->
   (forall p w d, timeEventHead (loop (fin p w d)) = timeEventHead (loop w)) ->
   ids_below (loop w) ->
   forall fuel tr,
     ((length (timeEventHead (loop w)) + 1) * (length (timeEventHead (loop w)) + 1)
      <= fuel)%nat ->
     exists n w' new,
       processTimeEvents clock tp fin fuel w tr = (Finished n, w', tr ++ new) /\
       forall t, t ∈ timeEventHead (loop w) -> timer_fired (te_id t) new).
Proof.
  intros Hskew. pose proof (time_skew_back clock w Hskew) as Hs.
  assert (forall t, t ∈ timeEventHead (loop (time_skew clock w)) -> when_sec t = 0) as Hz.
  { intros t Ht. rewrite Hs in Ht. fields.
    apply list_elem_of_fmap in Ht as (t0 & -> & _). done. }
  assert ((forall k, 0 < fst (clock k)) ->
          (forall p w id d, keeps_timers w (snd (tp p w id d))) ->
          (forall p w d, keeps_timers w (fin p w d)) ->
          ids_below (loop w) ->
          forall fuel tr n w' tr',
            processTimeEvents clock tp fin fuel w tr = (Finished n, w', tr') ->
            exists new, tr' = tr ++ new /\
              forall t, t ∈ timeEventHead (loop w) -> timer_fired (te_id t) new) as Hall.
  { intros Hclock Htp Hfin Hids fuel tr n w' tr' Hrun.
    unfold processTimeEvents in Hrun.
    rewrite <- (app_nil_r tr) in Hrun.
    destruct (time_loop_fires_zeroed clock tp fin Hclock Htp Hfin
                (timeEventNextId (loop (time_skew clock w)) - 1)
                (map te_id (timeEventHead (loop w))) tr fuel
                (time_skew clock w) (timeEventHead (loop (time_skew clock w))) []
                [] 0 n w' tr') as (nw' & -> & Hall); try done.
    + intros x Hx. by apply elem_of_nil in Hx.
    + intros i (t & -> & Ht)%list_elem_of_fmap. right.
      exists (set_when_sec 0 t). split; [|done].
      rewrite Hs. fields. apply list_elem_of_fmap. eauto.
    + intros i (t & -> & Ht)%list_elem_of_fmap.
      rewrite time_skew_nextId. specialize (Hids t Ht). lia.
    + exists nw'. split; [done|]. intros t Ht. apply Hall.
      apply list_elem_of_fmap. eauto. }
  split; [|split; [|split]].
  - split; [by rewrite Hs|]. split; [done|]. by rewrite Hs.
  - intros t now_sec now_ms Ht Hpos. apply ripe_zero; auto.
  - intros Hclock Htp Hfin Hids fuel tr n w' tr' Hrun. split.
    + intros k. unfold processTimeEvents in *. by apply time_loop_more_fuel.
    + by apply (Hall Hclock Htp Hfin Hids fuel tr n w' tr').
  - intros Hclock Htp Hfin Hids fuel tr Hfuel.
    assert (length (timeEventHead (loop (time_skew clock w)))
            = length (timeEventHead (loop w))) as Hlen.
    { rewrite Hs. fields. by rewrite length_map. }
    destruct (time_loop_one_shot clock tp fin Htp Hfin
                (timeEventNextId (loop (time_skew clock w)) - 1) fuel
                (time_skew clock w) (timeEventHead (loop (time_skew clock w))) [] tr 0)
      as (k & w' & tr' & Hrun & _); [done| |].
    { rewrite Hlen. nia. }
    assert (forall p w id d, keeps_timers w (snd (tp p w id d))) as Htp'.
    { intros p w0 id d t Ht. by rewrite (proj2 (Htp p w0 id d)). }
    assert (forall p w d, keeps_timers w (fin p w d)) as Hfin'.
    { intros p w0 d t Ht. by rewrite Hfin. }
    destruct (Hall Hclock Htp' Hfin' Hids fuel tr _ _ _ Hrun) as (new & -> & Hfired).
    by exists (0 + Z.of_nat k), w', new.
Qed.

(** Scenario S4 with two timers of 10 s: after the clock is set back by
    100 s both fire in the next pass. *)
Lemma clock_skew_fires_all_witness :
  exists n w' new,
    processTimeEvents clock_set_back idle_timeProc idle_finalizer 9 two_timer_world []
    = (Finished n, w', [] ++ new) /\
    forall t, t ∈ timeEventHead (loop two_timer_world) -> timer_fired (te_id t) new.
Proof.
  destruct two_timer_world_timers as (Hhead & Hnext & _ & _).
  apply (proj2 (proj2 (proj2 (clock_skew_fires_all clock_set_back idle_timeProc
                                idle_finalizer two_timer_world two_timer_world_skew)))).
  - intros k. unfold clock_set_back. by destruct (k <? 2)%nat.
  - intros p w id d. split; reflexivity.
  - intros p w d. reflexivity.
  - intros t Ht. rewrite Hhead in Ht. rewrite Hnext.
    apply elem_of_cons in Ht as [->|Ht]; [reflexivity|].
    apply list_elem_of_singleton in Ht as ->. reflexivity.
  - rewrite Hhead. apply Nat.leb_le. reflexivity.
Defined.

(** ** The list of adlist *)

Module AdlistFacts.
Import Adlist.

Lemma node_at_lookup ns (i : nat) a :
  ns !! i = Some a -> node_at ns (Z.of_nat i) = a.
Proof.
  intros H. unfold node_at. destruct (Z.of_nat i <? 0) eqn:E; zbool; [lia|].
  by rewrite Nat2Z.id, H.
Qed.

Lemma node_at_out ns i :
  i < 0 \/ Z.of_nat (length ns) <= i -> node_at ns i = NULL.
Proof.
  intros H. unfold node_at. destruct (i <? 0) eqn:E; zbool; [done|].
  rewrite lookup_ge_None_2; [done|lia].
Qed.

Lemma node_at_in ns i :
  0 <= i < Z.of_nat (length ns) ->
  exists a, ns !! Z.to_nat i = Some a /\ node_at ns i = a.
Proof.
  intros H. destruct (lookup_lt_is_Some_2 ns (Z.to_nat i)) as [a Ha]; [lia|].
  exists a. split; [done|]. rewrite <- (Z2Nat.id i) by lia.
  by apply node_at_lookup.
Qed.

Section Walk.

Variables (h : heap) (l : adlist) (ns : list Z).
Hypothesis Hl : is_list h l ns.

Lemma is_list_node i :
  0 <= i < Z.of_nat (length ns) ->
  node_at ns i <> NULL /\
  exists nd, h !! node_at ns i = Some nd /\
             next nd = node_at ns (i + 1) /\ prev nd = node_at ns (i - 1).
Proof.
  intros Hi. destruct (node_at_in ns i Hi) as (a & Ha & ->).
  destruct Hl as (_ & _ & _ & Hn).
  destruct (Hn _ _ Ha) as (Hnz & nd & Hnd & Hnext & Hprev).
  rewrite Z2Nat.id in Hnext, Hprev by lia. eauto.
Qed.

Lemma walk_next_spec k : forall j,
  0 <= j -> walk_next h k (node_at ns j) = node_at ns (j + Z.of_nat k).
Proof.
  induction k as [|k IH]; intros j Hj.
  - simpl. f_equal. lia.
  - cbn [walk_next]. destruct (Z_lt_ge_dec j (Z.of_nat (length ns))) as [Hlt|Hge].
    + destruct (is_list_node j) as (Hnz & nd & Hnd & Hnext & _); [lia|].
      destruct (node_at ns j =? NULL) eqn:E; zbool; [done|].
      rewrite Hnd, Hnext, IH by lia. f_equal. lia.
    + rewrite !node_at_out by lia. done.
Qed.

Lemma walk_prev_spec k : forall j,
  j < Z.of_nat (length ns) ->
  walk_prev h k (node_at ns j) = node_at ns (j - Z.of_nat k).
Proof.
  induction k as [|k IH]; intros j Hj.
  - simpl. f_equal. lia.
  - cbn [walk_prev]. destruct (Z_lt_ge_dec j 0) as [Hlt|Hge].
    + rewrite !node_at_out by lia. done.
    + destruct (is_list_node j) as (Hnz & nd & Hnd & _ & Hprev); [lia|].
      destruct (node_at ns j =? NULL) eqn:E; zbool; [done|].
      rewrite Hnd, Hprev, IH by lia. f_equal. lia.
Qed.

(** [listIndex] on every index. *)
Lemma listIndex_spec i :
  listIndex h l i = node_at ns (if i <? 0 then len l + i else i).
Proof.
  destruct Hl as (Hlen & Hhead & Htail & _). unfold listIndex.
  destruct (i <? 0) eqn:E; zbool.
  - rewrite Htail, walk_prev_spec by lia. f_equal. lia.
  - rewrite Hhead, walk_next_spec by lia. f_equal. lia.
Qed.

End Walk.

(** C9: for every list and every index [i] with [0 <= i < len], [listIndex]
    returns for [i] and for [i - len] the same node, the one at position [i]
    from the head (so -1 is the last node); and it returns [NULL] for every
    index out of range. *)
Theorem listIndex_agree h l ns :
  is_list h l ns ->
  (forall i, 0 <= i < len l ->
     listIndex h l i = listIndex h l (i - len l) /\
     listIndex h l i = node_at ns i /\ listIndex h l i <> NULL) /\
  listIndex h l (-1) = node_at ns (len l - 1) /\
  (forall i, len l <= i \/ i < - len l -> listIndex h l i = NULL).
Proof.
  intros Hl. pose proof Hl as (Hlen & _). split; [|split].
  - intros i Hi. rewrite !(listIndex_spec h l ns Hl).
    destruct (i <? 0) eqn:E1; zbool; [lia|].
    destruct (i - len l <? 0) eqn:E2; zbool; [|lia].
    replace (len l + (i - len l)) with i by lia.
    split; [done|]. split; [done|].
    apply (is_list_node h l ns Hl). lia.
  - rewrite (listIndex_spec h l ns Hl). simpl. f_equal; lia.
  - intros i Hi. rewrite (listIndex_spec h l ns Hl).
    destruct (i <? 0) eqn:E; zbool; apply node_at_out; lia.
Qed.


(** *** Lists built by the interface *)

Lemma listCreate_is_list h l : listCreate true = Some l -> is_list h l [].
Proof.
  intros [= <-]. repeat split; done.
Qed.

Lemma node_at_app_l ns x i :
  i < Z.of_nat (length ns) -> node_at (ns ++ [x]) i = node_at ns i.
Proof.
  intros Hi. unfold node_at. destruct (i <? 0) eqn:E; zbool; [done|].
  rewrite lookup_app_l; [done|lia].
Qed.

Lemma node_at_app_last ns x : node_at (ns ++ [x]) (Z.of_nat (length ns)) = x.
Proof.
  apply node_at_lookup. rewrite lookup_app_r by lia.
  by rewrite Nat.sub_diag.
Qed.

Lemma node_at_cons_0 ns x : node_at (x :: ns) 0 = x.
Proof. done. Qed.

Lemma node_at_cons_S ns x i : 0 <= i -> node_at (x :: ns) (i + 1) = node_at ns i.
Proof.
  intros Hi. unfold node_at.
  destruct (i + 1 <? 0) eqn:E1; zbool; [lia|].
  destruct (i <? 0) eqn:E2; zbool; [lia|].
  replace (Z.to_nat (i + 1)) with (S (Z.to_nat i)) by lia. done.
Qed.

Lemma node_at_neg ns i : i < 0 -> node_at ns i = NULL.
Proof. intros. apply node_at_out. by left. Qed.

(** The nodes of a list lie at different addresses: only the last one has
    no successor, and the successors of two nodes tell them apart. *)
Lemma is_list_last_unique h l ns (i : nat) a :
  is_list h l ns -> ns !! i = Some a -> a = node_at ns (len l - 1) ->
  Z.of_nat i = len l - 1.
Proof.
  intros Hl Hi Ha. pose proof Hl as (Hlen & _ & _ & Hn).
  pose proof (lookup_lt_Some _ _ _ Hi) as Hlt.
  destruct (decide (Z.of_nat i = len l - 1)) as [|Hne]; [done|exfalso].
  destruct (Hn _ _ Hi) as (_ & nd & Hnd & Hnext & _).
  destruct (is_list_node h l ns Hl (len l - 1)) as (_ & nd' & Hnd' & Hnext' & _); [lia|].
  rewrite <- Ha, Hnd in Hnd'. injection Hnd' as <-.
  rewrite Hnext in Hnext'.
  destruct (is_list_node h l ns Hl (Z.of_nat i + 1)) as (Hnz & _); [lia|].
  apply Hnz. rewrite Hnext'. apply node_at_out. lia.
Qed.

Lemma is_list_first_unique h l ns (i : nat) a :
  is_list h l ns -> ns !! i = Some a -> a = node_at ns 0 -> i = 0%nat.
Proof.
  intros Hl Hi Ha. pose proof Hl as (Hlen & _ & _ & Hn).
  pose proof (lookup_lt_Some _ _ _ Hi) as Hlt.
  destruct i as [|i]; [done|exfalso].
  destruct (Hn _ _ Hi) as (_ & nd & Hnd & _ & Hprev).
  destruct (is_list_node h l ns Hl 0) as (_ & nd' & Hnd' & _ & Hprev'); [lia|].
  rewrite <- Ha, Hnd in Hnd'. injection Hnd' as <-.
  rewrite Hprev in Hprev'.
  destruct (is_list_node h l ns Hl (Z.of_nat (S i) - 1)) as (Hnz & _); [lia|].
  apply Hnz. rewrite Hprev'. by apply node_at_neg.
Qed.

Lemma is_list_singleton h node v d f m :
  node <> NULL ->
  is_list (<[node := mkNode NULL NULL v]> h) (mkList node node d f m 1) [node].
Proof.
  intros Hnz. split; [done|]. split; [done|]. split; [done|].
  intros i a Hi. destruct i as [|i]; [|done]. injection Hi as <-.
  split; [done|]. eexists. by rewrite lookup_insert_eq.
Qed.

(** [listAddNodeTail] with a fresh cell appends the cell to the list. *)
Lemma listAddNodeTail_is_list h l ns node v :
  is_list h l ns -> node <> NULL -> h !! node = None ->
  len l + 1 < ULONG_MODULUS ->
  exists h' l', listAddNodeTail h l node v = Some (h', l') /\
                is_list h' l' (ns ++ [node]) /\ len l' = len l + 1.
Proof.
  intros Hl Hnz Hfresh Hmax. pose proof Hl as (Hlen & Hhead & Htail & Hn).
  assert ((len l + 1) mod ULONG_MODULUS = len l + 1) as Hmod
    by (apply Z.mod_small; lia).
  unfold listAddNodeTail. rewrite Hmod.
  destruct (node =? NULL) eqn:E0; zbool; [done|].
  destruct (len l =? 0) eqn:E1; zbool.
  - destruct ns; [|simpl in Hlen; lia].
    eexists _, _. split; [done|]. split; [|done]. rewrite E1.
    by apply is_list_singleton.
  - eexists _, _. split; [done|]. split; [|done].
    assert (0 < Z.of_nat (length ns)) as Hpos by lia.
    destruct (is_list_node h l ns Hl (len l - 1)) as (Htz & ndt & Hndt & _ & Hprevt);
      [lia|].
    rewrite <- Htail in Htz, Hndt.
    assert (tail l <> node) as Htn by (intros Heq; rewrite Heq in Hndt; congruence).
    split; [|split; [|split]]; cbn [len head tail].
    + rewrite length_app. simpl. lia.
    + rewrite node_at_app_l by lia. done.
    + replace (len l + 1 - 1) with (Z.of_nat (length ns)) by lia.
      by rewrite node_at_app_last.
    + intros i a Hi.
      destruct (decide (i = length ns)) as [->|Hne].
      * rewrite lookup_app_r in Hi by lia. rewrite Nat.sub_diag in Hi.
        injection Hi as <-. split; [done|].
        exists (mkNode (tail l) NULL v). split.
        { rewrite lookup_alter_ne by done. by rewrite lookup_insert_eq. }
        cbn [next prev]. split.
        { symmetry. apply node_at_out. right. rewrite length_app. simpl. lia. }
        rewrite node_at_app_l by lia. rewrite Htail. f_equal. lia.
      * assert (i < length ns)%nat as Hlt.
        { apply lookup_lt_Some in Hi. rewrite length_app in Hi. simpl in Hi. lia. }
        rewrite lookup_app_l in Hi by done.
        destruct (Hn _ _ Hi) as (Haz & nd & Hnd & Hnext & Hprev).
        split; [done|].
        assert (a <> node) as Han by (intros ->; congruence).
        destruct (decide (a = tail l)) as [Hat|Hat].
        -- assert (Z.of_nat i = len l - 1) as Hi'.
           { eapply is_list_last_unique; [done..|]. by rewrite <- Htail. }
           exists (set_next node nd). split.
           { rewrite Hat, lookup_alter_eq, lookup_insert_ne by done.
             rewrite <- Hat, Hnd. done. }
           cbn [next prev]. split.
           { replace (Z.of_nat i + 1) with (Z.of_nat (length ns)) by lia.
             by rewrite node_at_app_last. }
           rewrite node_at_app_l by lia. done.
        -- exists nd. split.
           { rewrite lookup_alter_ne, lookup_insert_ne by done. done. }
           assert (Z.of_nat i <> len l - 1) as Hi'.
           { intros Hi'. apply Hat. rewrite Htail, <- Hi'.
             symmetry. by apply node_at_lookup. }
           rewrite !node_at_app_l by lia. done.
Qed.


(** [listAddNodeHead] with a fresh cell puts the cell in front of the list. *)
Lemma listAddNodeHead_is_list h l ns node v :
  is_list h l ns -> node <> NULL -> h !! node = None ->
  len l + 1 < ULONG_MODULUS ->
  exists h' l', listAddNodeHead h l node v = Some (h', l') /\
                is_list h' l' (node :: ns) /\ len l' = len l + 1.
Proof.
  intros Hl Hnz Hfresh Hmax. pose proof Hl as (Hlen & Hhead & Htail & Hn).
  assert ((len l + 1) mod ULONG_MODULUS = len l + 1) as Hmod
    by (apply Z.mod_small; lia).
  unfold listAddNodeHead. rewrite Hmod.
  destruct (node =? NULL) eqn:E0; zbool; [done|].
  destruct (len l =? 0) eqn:E1; zbool.
  - destruct ns; [|simpl in Hlen; lia].
    eexists _, _. split; [done|]. split; [|done]. rewrite E1.
    by apply is_list_singleton.
  - eexists _, _. split; [done|]. split; [|done].
    assert (0 < Z.of_nat (length ns)) as Hpos by lia.
    destruct (is_list_node h l ns Hl 0) as (Hhz & nd0 & Hnd0 & Hnext0 & _); [lia|].
    rewrite <- Hhead in Hhz, Hnd0.
    assert (head l <> node) as Hhn by (intros Heq; rewrite Heq in Hnd0; congruence).
    split; [|split; [|split]]; cbn [len head tail].
    + simpl length. lia.
    + done.
    + replace (len l + 1 - 1) with ((len l - 1) + 1) by lia.
      rewrite node_at_cons_S by lia. done.
    + intros i a Hi. destruct i as [|i].
      * injection Hi as <-. split; [done|].
        exists (mkNode NULL (head l) v). split.
        { rewrite lookup_alter_ne by done. by rewrite lookup_insert_eq. }
        cbn [next prev]. split; [|done].
        change (Z.of_nat 0 + 1) with (0 + 1).
        rewrite (node_at_cons_S ns node 0) by lia. done.
      * cbn in Hi. destruct (Hn _ _ Hi) as (Haz & nd & Hnd & Hnext & Hprev).
        split; [done|].
        assert (a <> node) as Han by (intros ->; congruence).
        replace (Z.of_nat (S i) + 1) with ((Z.of_nat i + 1) + 1) by lia.
        rewrite node_at_cons_S by lia.
        destruct (decide (a = head l)) as [Hat|Hat].
        -- assert (i = 0%nat) as ->.
           { eapply is_list_first_unique; [done..|]. by rewrite <- Hhead. }
           exists (set_prev node nd). split.
           { rewrite Hat, lookup_alter_eq, lookup_insert_ne by done.
             rewrite <- Hat, Hnd. done. }
           cbn [next prev]. done.
        -- exists nd. split.
           { rewrite lookup_alter_ne, lookup_insert_ne by done. done. }
           split; [done|].
           assert (i <> 0%nat) as Hi0.
           { intros ->. apply Hat. rewrite Hhead. symmetry.
             by apply (node_at_lookup ns 0). }
           replace (Z.of_nat (S i) - 1) with ((Z.of_nat i - 1) + 1) by lia.
           rewrite node_at_cons_S by lia. done.
Qed.

(** A list of three nodes built with [listAddNodeTail] and
    [listAddNodeHead]. *)
Lemma listIndex_agree_witness :
  exists l0 h1 l1 h2 l2 h3 l3,
    listCreate true = Some l0 /\
    listAddNodeTail ∅ l0 200 20 = Some (h1, l1) /\
    listAddNodeTail h1 l1 300 30 = Some (h2, l2) /\
    listAddNodeHead h2 l2 100 10 = Some (h3, l3) /\
    is_list h3 l3 [100; 200; 300] /\
    (forall i, 0 <= i < len l3 ->
       listIndex h3 l3 i = listIndex h3 l3 (i - len l3) /\
       listIndex h3 l3 i = node_at [100; 200; 300] i /\ listIndex h3 l3 i <> NULL) /\
    listIndex h3 l3 (-1) = 300 /\
    listIndex h3 l3 3 = NULL.
Proof.
  destruct (listAddNodeTail_is_list ∅ (mkList NULL NULL NULL NULL NULL 0) [] 200 20)
    as (h1 & l1 & E1 & Hl1 & Hn1); [by apply listCreate_is_list|done|done|done|].
  cbn [len] in Hn1.
  destruct (listAddNodeTail_is_list h1 l1 [200] 300 30 Hl1)
    as (h2 & l2 & E2 & Hl2 & Hn2); [done|..].
  { vm_compute in E1. by injection E1 as <- _. }
  { by rewrite Hn1. }
  rewrite Hn1 in Hn2.
  destruct (listAddNodeHead_is_list h2 l2 [200; 300] 100 10 Hl2)
    as (h3 & l3 & E3 & Hl3 & _); [done|..].
  { vm_compute in E1. injection E1 as <- <-. vm_compute in E2. by injection E2 as <- _. }
  { by rewrite Hn2. }
  exists (mkList NULL NULL NULL NULL NULL 0), h1, l1, h2, l2, h3, l3.
  split; [reflexivity|]. do 3 (split; [assumption|]). split; [assumption|].
  destruct (listIndex_agree h3 l3 [100; 200; 300] Hl3) as (Hagree & Hlast & Hout).
  split; [exact Hagree|]. destruct Hl3 as (Hlen & _). split.
  - rewrite Hlast, Hlen. reflexivity.
  - apply Hout. left. rewrite Hlen. simpl. lia.
Defined.

End AdlistFacts.

(** * Further properties of ae.c *)

(** ** Registration and lookup *)

Lemma aeGetFileEvents_slot l fd fe :
  fd < setsize l -> slot l fd = Some fe -> aeGetFileEvents l fd = mask fe.
Proof.
  intros Hlt Hfe. unfold aeGetFileEvents.
  destruct (fd >=? setsize l) eqn:E; zbool; [lia|]. by rewrite Hfe.
Qed.

Lemma aeGetFileEvents_none l fd :
  fd >= setsize l \/ slot l fd = None -> aeGetFileEvents l fd = 0.
Proof.
  intros H. unfold aeGetFileEvents.
  destruct (fd >=? setsize l) eqn:E; [done|]. zbool.
  destruct H as [H|H]; [lia|]. by rewrite H.
Qed.

Lemma wf_slot l fd :
  wf_loop l -> 0 <= fd < setsize l -> exists fe, slot l fd = Some fe.
Proof.
  intros [Hlen _ _ _ _] Hfd.
  destruct (lookup_lt_is_Some_2 (events l) (Z.to_nat fd)) as [fe Hfe]; [lia|].
  exists fe. apply slot_lookup. split; [lia|done].
Qed.

Lemma wf_slot_none l fd :
  wf_loop l -> fd < 0 \/ setsize l <= fd -> slot l fd = None.
Proof.
  intros [Hlen _ _ _ _] Hfd. unfold slot.
  destruct (fd <? 0) eqn:E; zbool; [done|].
  apply lookup_ge_None_2. lia.
Qed.

(** What [aeGetFileEvents] reports above [maxfd]: nothing. *)
Lemma aeGetFileEvents_above l fd :
  wf_loop l -> maxfd l < fd -> aeGetFileEvents l fd = 0.
Proof.
  intros Hwf Hgt. unfold aeGetFileEvents.
  destruct (fd >=? setsize l); [done|].
  destruct (slot l fd) as [fe|] eqn:Hfe; [|done].
  destruct (wf_bounds l Hwf) as (_ & Habove & _). by apply (Habove fd).
Qed.

Lemma aeGetFileEvents_delete l fd m fd' :
  aeGetFileEvents (aeDeleteFileEvent l fd m) fd' =
  if decide (fd' = fd) then Z.land (aeGetFileEvents l fd) (Z.lnot m)
  else aeGetFileEvents l fd'.
Proof.
  destruct (Z_lt_ge_dec fd (setsize l)) as [Hlt|Hge].
  2:{ rewrite aeDeleteFileEvent_noop by by left.
      case_decide as Hd; [|done]. subst fd'.
      rewrite aeGetFileEvents_none by by left. done. }
  destruct (slot l fd) as [fe|] eqn:Hfe.
  2:{ replace (aeDeleteFileEvent l fd m) with l.
      - case_decide as Hd; [|done]. subst fd'.
        rewrite aeGetFileEvents_none by by right. done.
      - unfold aeDeleteFileEvent. rewrite Hfe. by destruct (fd >=? setsize l). }
  destruct (Z.eq_dec (mask fe) AE_NONE) as [Hm|Hm].
  { rewrite aeDeleteFileEvent_noop by (right; eauto).
    case_decide as Hd; [|done]. subst fd'.
    rewrite (aeGetFileEvents_slot l fd fe), Hm by done. done. }
  rewrite (aeDeleteFileEvent_act l fd m fe) by done. cbv zeta.
  pose proof Hfe as [H0 Hfe']%slot_lookup.
  unfold aeGetFileEvents at 1. unfold slot. cbn [setsize events].
  case_decide as Hd.
  - subst fd'. destruct (fd >=? setsize l) eqn:E; zbool; [lia|].
    destruct (fd <? 0) eqn:E0; zbool; [lia|].
    rewrite list_lookup_alter_eq, Hfe'. simpl.
    by rewrite (aeGetFileEvents_slot l fd fe).
  - unfold aeGetFileEvents, slot.
    destruct (fd' >=? setsize l); [done|]. destruct (fd' <? 0) eqn:E0; [done|].
    zbool. rewrite list_lookup_alter_ne by lia. done.
Qed.

Lemma aeGetFileEvents_create l fd m proc data fd' :
  wf_loop l -> 0 <= fd < setsize l ->
  aeGetFileEvents (snd (aeCreateFileEvent l fd m proc data true)) fd' =
  if decide (fd' = fd) then Z.lor (aeGetFileEvents l fd) m
  else aeGetFileEvents l fd'.
Proof.
  intros Hwf Hfd. rewrite aeCreateFileEvent_ok by lia. cbn [snd].
  destruct (wf_slot l fd Hwf Hfd) as [fe Hfe].
  pose proof Hfe as [_ Hfe']%slot_lookup.
  unfold aeGetFileEvents at 1. unfold slot. cbn [setsize events].
  case_decide as Hd.
  - subst fd'. destruct (fd >=? setsize l) eqn:E; zbool; [lia|].
    destruct (fd <? 0) eqn:E0; zbool; [lia|].
    rewrite list_lookup_alter_eq, Hfe'. cbn [fmap option_fmap option_map].
    rewrite create_upd_mask. by rewrite (aeGetFileEvents_slot l fd fe) by (lia || done).
  - unfold aeGetFileEvents, slot.
    destruct (fd' >=? setsize l); [done|]. destruct (fd' <? 0) eqn:E0; [done|].
    zbool. rewrite list_lookup_alter_ne by lia. done.
Qed.

(** X1: what [aeGetFileEvents] reports after a registration and after a
    removal.  A registration is refused, the loop left as it was, exactly
    when [fd >= setsize] or the backend refuses; a successful
    [aeCreateFileEvent] adds the bits of its mask to what is reported for its
    descriptor; [aeDeleteFileEvent] takes the bits of its mask away; neither
    changes what is reported for another descriptor. *)
Theorem aeGetFileEvents_after l fd m proc data ok :
  wf_loop l -> 0 <= fd ->
  (fst (aeCreateFileEvent l fd m proc data ok) = AE_ERR <->
     fd >= setsize l \/ ok = false) /\
  (fst (aeCreateFileEvent l fd m proc data ok) = AE_ERR ->
     snd (aeCreateFileEvent l fd m proc data ok) = l) /\
  (fst (aeCreateFileEvent l fd m proc data ok) = AE_OK ->
     aeGetFileEvents (snd (aeCreateFileEvent l fd m proc data ok)) fd
       = Z.lor (aeGetFileEvents l fd) m) /\
  (forall fd', fd' <> fd ->
     aeGetFileEvents (snd (aeCreateFileEvent l fd m proc data ok)) fd'
       = aeGetFileEvents l fd') /\
  aeGetFileEvents (aeDeleteFileEvent l fd m) fd
    = Z.land (aeGetFileEvents l fd) (Z.lnot m) /\
  (forall fd', fd' <> fd ->
     aeGetFileEvents (aeDeleteFileEvent l fd m) fd' = aeGetFileEvents l fd').
Proof.
  intros Hwf H0.
  destruct (aeCreateFileEvent_cases l fd m proc data ok) as [[Hlt ->]|E].
  - pose proof (aeCreateFileEvent_ok l fd m proc data H0 Hlt) as Hok.
    split; [|split; [|split; [|split; [|split]]]].
    + rewrite Hok. simpl. split; [done|]. intros [H|H]; [lia|done].
    + rewrite Hok. done.
    + intros _. rewrite aeGetFileEvents_create by (done || lia).
      by rewrite decide_True.
    + intros fd' Hne. rewrite aeGetFileEvents_create by (done || lia).
      by rewrite decide_False.
    + rewrite aeGetFileEvents_delete. by rewrite decide_True.
    + intros fd' Hne. rewrite aeGetFileEvents_delete. by rewrite decide_False.
  - split; [|split; [|split; [|split; [|split]]]].
    + rewrite E. simpl. split; [|done]. intros _.
      destruct (Z_lt_ge_dec fd (setsize l)); [|by left]. right.
      destruct ok; [|done]. rewrite aeCreateFileEvent_ok in E by done. done.
    + by rewrite E.
    + rewrite E. done.
    + intros fd' Hne. by rewrite E.
    + rewrite aeGetFileEvents_delete. by rewrite decide_True.
    + intros fd' Hne. rewrite aeGetFileEvents_delete. by rewrite decide_False.
Qed.

(** A loop of 8 slots: descriptor 5 registered for reading, then also for
    writing, then no longer for reading. *)
Lemma aeGetFileEvents_after_witness :
  let l := snd (aeCreateFileEvent (new_loop 0 8) 5 AE_READABLE 10 0 true) in
  aeGetFileEvents l 5 = 1 /\
  aeGetFileEvents (snd (aeCreateFileEvent l 5 AE_WRITABLE 20 0 true)) 5 = 3 /\
  aeGetFileEvents (snd (aeCreateFileEvent l 9 AE_WRITABLE 20 0 true)) 9 = 0 /\
  aeGetFileEvents (snd (aeCreateFileEvent l 5 AE_WRITABLE 20 0 true)) 5
    = Z.lor (aeGetFileEvents l 5) AE_WRITABLE.
Proof.
  intros l. split; [reflexivity|]. split; [reflexivity|]. split; [reflexivity|].
  assert (wf_loop l) as Hwf.
  { apply create_wf; [lia|].
    by apply (create_loop_wf true true true true 0 8). }
  destruct (aeGetFileEvents_after l 5 AE_WRITABLE 20 0 true Hwf ltac:(lia))
    as (_ & _ & H & _).
  apply H. reflexivity.
Defined.

(** ** Resizing *)

(** X2: [aeResizeSetSize].  The call is refused, the loop left as it was,
    when the new size does not exceed [maxfd] or the backend refuses; asking
    for the size the loop has changes nothing; otherwise the loop has the
    new size, [maxfd] and the slots up to [maxfd] are what they were, the
    table is well formed again, and [aeGetFileEvents] reports for every
    descriptor what it reported before. *)
Theorem aeResizeSetSize_spec l size ok :
  wf_loop l ->
  (size = setsize l -> aeResizeSetSize l size ok = (AE_OK, l)) /\
  (size <> setsize l -> size <= maxfd l \/ ok = false ->
     aeResizeSetSize l size ok = (AE_ERR, l)) /\
  (size <> setsize l -> maxfd l < size -> ok = true ->
     let l' := snd (aeResizeSetSize l size ok) in
     fst (aeResizeSetSize l size ok) = AE_OK /\
     setsize l' = size /\ maxfd l' = maxfd l /\ wf_loop l' /\
     timeEventHead l' = timeEventHead l /\
     (forall fd, fd <= maxfd l -> slot l' fd = slot l fd) /\
     (forall fd, aeGetFileEvents l' fd = aeGetFileEvents l fd)).
Proof.
  intros Hwf. split; [|split].
  - intros ->. unfold aeResizeSetSize. by rewrite Z.eqb_refl.
  - intros Hne H. unfold aeResizeSetSize.
    destruct (size =? setsize l) eqn:E1; zbool; [done|].
    destruct (maxfd l >=? size) eqn:E2; zbool; [done|].
    destruct H as [H| ->]; [lia|done].
  - intros Hne Hlt -> l'.
    assert (wf_loop l') as Hwf' by by apply resize_wf.
    unfold l' in *. rewrite aeResizeSetSize_ok in * by done. cbn [fst snd] in *.
    split; [done|]. split; [done|]. split; [done|]. split; [done|].
    split; [done|].
    assert (forall fd, fd <= maxfd l ->
              slot (mkLoop (maxfd l) size (timeEventNextId l) (lastTime l)
                      (clear_slots (zrealloc fe_uninit (Z.to_nat size) (events l))
                         (Z.to_nat (maxfd l + 1))
                         (Z.to_nat size - Z.to_nat (maxfd l + 1)))
                      (zrealloc fired_uninit (Z.to_nat size) (fired l))
                      (timeEventHead l) (stop l) (apidata l ++ [ApiResize size])
                      (beforesleep l)) fd = slot l fd) as Hslots.
    { intros fd Hfd. unfold slot. cbn [events].
      destruct (fd <? 0) eqn:E; [done|]. zbool.
      destruct Hwf as [Hlen Hsz Hlo Hhi Habove].
      rewrite clear_slots_lookup, decide_False by lia.
      apply zrealloc_lookup; lia. }
    split; [exact Hslots|].
    intros fd. destruct (Z_le_gt_dec fd (maxfd l)) as [Hle|Hgt].
    + unfold aeGetFileEvents. rewrite Hslots by done. cbn [setsize].
      destruct Hwf as [Hlen Hsz Hlo Hhi Habove].
      destruct (fd >=? size) eqn:E1; destruct (fd >=? setsize l) eqn:E2; zbool;
        (done || lia).
    + rewrite (aeGetFileEvents_above _ fd Hwf') by (cbn [maxfd]; lia).
      by rewrite (aeGetFileEvents_above l fd Hwf) by lia.
Qed.

(** Scenario S5: a loop of 16 slots with descriptor 15 registered; resizing
    to 16 changes nothing, resizing to 10 is refused, resizing to 64 keeps
    the registration. *)
Lemma aeResizeSetSize_spec_witness :
  let l := snd (aeCreateFileEvent (new_loop 0 16) 15 AE_READABLE 10 0 true) in
  aeResizeSetSize l 16 true = (AE_OK, l) /\
  aeResizeSetSize l 10 true = (AE_ERR, l) /\
  fst (aeResizeSetSize l 64 true) = AE_OK /\
  aeGetFileEvents (snd (aeResizeSetSize l 64 true)) 15 = AE_READABLE /\
  forall fd, aeGetFileEvents (snd (aeResizeSetSize l 64 true)) fd
             = aeGetFileEvents l fd.
Proof.
  intros l. split; [reflexivity|]. split; [reflexivity|]. split; [reflexivity|].
  split; [reflexivity|].
  assert (wf_loop l) as Hwf.
  { apply create_wf; [lia|].
    by apply (create_loop_wf true true true true 0 16). }
  destruct (aeResizeSetSize_spec l 64 true Hwf) as (_ & _ & H).
  destruct H as (_ & _ & _ & _ & _ & _ & Hget); [discriminate|reflexivity|reflexivity|].
  exact Hget.
Defined.

(** ** Registering and unregistering *)

Lemma land_lor_lnot m : Z.land (Z.lor 0 m) (Z.lnot m) = 0.
Proof. rewrite Z.lor_0_l. apply Z.land_lnot_diag. Qed.

(** X3: registering a descriptor that was not registered and removing the
    same bits again brings [maxfd] back to what it was and leaves every
    descriptor with the mask it had. *)
Theorem register_unregister l fd m proc data :
  wf_loop l -> maxfd_tight l ->
  0 <= fd < setsize l -> aeGetFileEvents l fd = AE_NONE -> m <> AE_NONE ->
  let l1 := snd (aeCreateFileEvent l fd m proc data true) in
  let l2 := aeDeleteFileEvent l1 fd m in
  aeGetFileEvents l1 fd = m /\
  maxfd l2 = maxfd l /\ setsize l2 = setsize l /\
  forall fd', aeGetFileEvents l2 fd' = aeGetFileEvents l fd'.
Proof.
  intros Hwf Ht Hfd Hnone Hm l1 l2.
  assert (aeGetFileEvents l1 fd = m) as Hget1.
  { unfold l1. rewrite aeGetFileEvents_create, decide_True by done.
    rewrite Hnone. apply Z.lor_0_l. }
  split; [done|].
  assert (forall fd', aeGetFileEvents l2 fd' = aeGetFileEvents l fd') as Hget2.
  { intros fd'. unfold l2. rewrite aeGetFileEvents_delete. case_decide as Hd.
    - subst fd'. rewrite Hget1, Hnone. apply Z.land_lnot_diag.
    - unfold l1. rewrite aeGetFileEvents_create, decide_False by done. done. }
  assert (wf_loop l1) as Hwf1 by (apply create_wf; [lia|done]).
  assert (wf_loop l2) as Hwf2 by by apply delete_wf.
  assert (maxfd_tight l2) as Ht2.
  { apply delete_tight; [done|]. apply create_tight; [lia|done..]. }
  assert (setsize l2 = setsize l) as Hsz.
  { destruct (wf_slot l1 fd Hwf1) as [fe1 Hfe1].
    { unfold l1. rewrite aeCreateFileEvent_ok by lia. cbn. lia. }
    assert (fd < setsize l1) as Hlt1.
    { unfold l1. rewrite aeCreateFileEvent_ok by lia. cbn. lia. }
    assert (mask fe1 <> AE_NONE) as Hm1.
    { rewrite <- (aeGetFileEvents_slot l1 fd fe1), Hget1 by done. done. }
    unfold l2. rewrite (aeDeleteFileEvent_act l1 fd m fe1) by done. cbn [setsize].
    unfold l1. rewrite aeCreateFileEvent_ok by lia. done. }
  split; [|split; [done|done]].
  (* both [maxfd l2] and [maxfd l] are the largest descriptor that
     [aeGetFileEvents] reports as registered *)
  assert (forall l', wf_loop l' -> maxfd_tight l' ->
            (maxfd l' = -1 \/ aeGetFileEvents l' (maxfd l') <> 0)) as Hreg.
  { intros l' Hw' [E|(fe & Hfe & Hfm)]; [by left|].
    destruct (decide (maxfd l' = -1)); [by left|right].
    destruct Hw' as [Hlen' Hsz' Hlo' Hhi' _].
    rewrite (aeGetFileEvents_slot l' (maxfd l') fe); [done|done|].
    apply slot_lookup. split; [lia|done]. }
  destruct (Z.lt_trichotomy (maxfd l2) (maxfd l)) as [Hlt|[Heq|Hgt]]; [|done|].
  - exfalso. destruct (Hreg l Hwf Ht) as [E|Hr].
    + destruct Hwf2. lia.
    + apply Hr. rewrite <- Hget2. by apply aeGetFileEvents_above.
  - exfalso. destruct (Hreg l2 Hwf2 Ht2) as [E|Hr].
    + destruct Hwf. lia.
    + apply Hr. rewrite Hget2. by apply aeGetFileEvents_above.
Qed.

(** On a loop where descriptor 2 is registered, descriptor 6 is registered
    and unregistered: [maxfd] is 2 again. *)
Lemma register_unregister_witness :
  let l := snd (aeCreateFileEvent (new_loop 0 8) 2 AE_READABLE 10 0 true) in
  let l1 := snd (aeCreateFileEvent l 6 3 20 0 true) in
  maxfd l = 2 /\ maxfd l1 = 6 /\
  aeGetFileEvents l1 6 = 3 /\
  maxfd (aeDeleteFileEvent l1 6 3) = maxfd l /\
  setsize (aeDeleteFileEvent l1 6 3) = setsize l /\
  forall fd', aeGetFileEvents (aeDeleteFileEvent l1 6 3) fd' = aeGetFileEvents l fd'.
Proof.
  intros l l1. split; [reflexivity|]. split; [reflexivity|].
  assert (wf_loop (new_loop 0 8) /\ maxfd_tight (new_loop 0 8)) as [Hwf0 Ht0].
  { by apply (create_loop_wf true true true true 0 8). }
  apply (register_unregister l 6 3 20 0).
  - apply create_wf; [lia|done].
  - apply create_tight; [lia|discriminate|done|done].
  - split; [lia|reflexivity].
  - reflexivity.
  - discriminate.
Defined.

(** ** Scheduling timers *)

Lemma aeCreateTimeEvent_when clock w ms proc data fin :
  aeCreateTimeEvent clock w ms proc data fin true =
  (timeEventNextId (loop w),
   mkWorld (mkLoop (maxfd (loop w)) (setsize (loop w)) (timeEventNextId (loop w) + 1)
              (lastTime (loop w)) (events (loop w)) (fired (loop w))
              (mkTimeEvent (timeEventNextId (loop w))
                 (fst (fst (aeAddMillisecondsToNow clock w ms)))
                 (snd (fst (aeAddMillisecondsToNow clock w ms))) proc fin data
                 :: timeEventHead (loop w))
              (stop (loop w)) (apidata (loop w)) (beforesleep (loop w)))
           (S (ticks w))).
Proof.
  unfold aeCreateTimeEvent, aeAddMillisecondsToNow, aeGetTime. cbn [negb].
  cbv iota. fields. by destruct (_ >=? 1000).
Qed.

(** X4: [aeAddMillisecondsToNow] adds the milliseconds to the time read and
    carries into the seconds: for a clock reading with its microseconds in
    [0, 1000000) and a delay that is not negative, the milliseconds of the
    result are in [0, 1000) and the result is the time read plus the delay;
    the timer [aeCreateTimeEvent] schedules carries that fire time. *)
Theorem aeAddMillisecondsToNow_spec clock w ms proc data fin :
  0 <= snd (clock (ticks w)) < 1000000 -> 0 <= ms ->
  let now_sec := fst (clock (ticks w)) in
  let now_ms := Z.quot (snd (clock (ticks w))) 1000 in
  let r := fst (aeAddMillisecondsToNow clock w ms) in
  0 <= snd r < 1000 /\
  fst r * 1000 + snd r = now_sec * 1000 + now_ms + ms /\
  snd (aeAddMillisecondsToNow clock w ms) = tick w /\
  exists t rest,
    timeEventHead (loop (snd (aeCreateTimeEvent clock w ms proc data fin true)))
      = t :: rest /\
    rest = timeEventHead (loop w) /\
    when_sec t = fst r /\ when_ms t = snd r /\
    timeProc t = proc /\ finalizerProc t = fin /\ te_clientData t = data.
Proof.
  intros Hus Hms now_sec now_ms r.
  assert (0 <= snd r < 1000 /\ fst r * 1000 + snd r = now_sec * 1000 + now_ms + ms)
    as [Hr1 Hr2].
  { unfold r, now_sec, now_ms, aeAddMillisecondsToNow, aeGetTime.
    rewrite !Z.quot_div_nonneg, Z.rem_mod_nonneg by lia.
    destruct (_ >=? 1000) eqn:E; zbool; cbn [fst snd];
      Z.to_euclidean_division_equations; lia. }
  split; [done|]. split; [done|]. split; [apply aeAddMillisecondsToNow_world|].
  rewrite aeCreateTimeEvent_when. cbn [snd loop timeEventHead].
  eexists _, _. split; [done|]. done.
Qed.

(** At 9 s 999 ms a delay of 2500 ms gives 12 s 499 ms. *)
Lemma aeAddMillisecondsToNow_spec_witness :
  let clock := fun _ : nat => (9, 999000) in
  let w := mkWorld (new_loop 9 4) 0 in
  fst (aeAddMillisecondsToNow clock w 2500) = (12, 499) /\
  fst (fst (aeAddMillisecondsToNow clock w 2500)) * 1000
    + snd (fst (aeAddMillisecondsToNow clock w 2500)) = 9 * 1000 + 999 + 2500.
Proof.
  intros clock w. split; [reflexivity|].
  destruct (aeAddMillisecondsToNow_spec clock w 2500 12 0 NULL) as (_ & H & _).
  - simpl. lia.
  - lia.
  - exact H.
Defined.

(** ** Identifiers of timers *)

(** X5: identifiers of timers are unique and increasing.  On a loop whose
    pending timers have different identifiers, all below the counter (so on
    every loop built through the interface), [aeCreateTimeEvent] returns the
    counter, an identifier above those of all pending timers, advances the
    counter by one whether or not the allocation succeeds, and leaves the
    pending identifiers different and below the counter; so does
    [aeDeleteTimeEvent] when the finalizer it runs adds no timer. *)
Theorem timer_ids_unique clock fin w ms proc data f ok id :
  timer_ids_ok (loop w) ->
  timer_ids_ok (loop (snd (aeCreateTimeEvent clock w ms proc data f ok))) /\
  timeEventNextId (loop (snd (aeCreateTimeEvent clock w ms proc data f ok)))
    = timeEventNextId (loop w) + 1 /\
  (ok = true ->
     fst (aeCreateTimeEvent clock w ms proc data f ok) = timeEventNextId (loop w) /\
     forall t, t ∈ timeEventHead (loop w) ->
               te_id t < fst (aeCreateTimeEvent clock w ms proc data f ok)) /\
  ((forall p w' d, loop (fin p w' d) = loop w') ->
     timer_ids_ok (loop (snd (aeDeleteTimeEvent fin w id)))).
Proof.
  intros [Hb Hnd]. split; [|split; [|split]].
  - split; [by apply aeCreateTimeEvent_ids_below|].
    destruct ok; [|done]. rewrite aeCreateTimeEvent_when. cbn [snd loop timeEventHead].
    rewrite fmap_cons. apply NoDup_cons. split; [|done].
    cbn [te_id]. intros (t & Hid & Ht)%list_elem_of_fmap.
    specialize (Hb t Ht). lia.
  - destruct ok; [by rewrite aeCreateTimeEvent_when|done].
  - intros ->. rewrite aeCreateTimeEvent_when. cbn [fst]. split; [done|].
    intros t Ht. by apply Hb.
  - intros Hfin. unfold aeDeleteTimeEvent.
    destruct (unlink_timer id (timeEventHead (loop w))) as [[t rest]|] eqn:E;
      [|done].
    cbn [snd].
    apply unlink_timer_Some in E as (pre & post & Hl & -> & _ & _).
    assert (timer_ids_ok (set_timeEventHead (pre ++ post) (loop w))) as Hok.
    { split.
      - intros x Hx. fields. apply Hb. rewrite Hl.
        apply elem_of_app in Hx as [Hx|Hx]; apply elem_of_app; [by left|].
        right. by right.
      - fields. rewrite Hl, fmap_app, fmap_cons in Hnd. rewrite fmap_app.
        apply NoDup_app in Hnd as (Hn1 & Hn2 & Hn3).
        apply NoDup_cons in Hn3 as [_ Hn3].
        apply NoDup_app. split; [done|]. split; [|done].
        intros x Hx Hx'. apply (Hn2 x Hx). by right. }
    destruct (finalizerProc t =? NULL); [done|]. by rewrite Hfin.
Qed.

(** Two timers scheduled on a fresh loop get the identifiers 0 and 1. *)
Lemma timer_ids_unique_witness :
  timer_ids_ok (loop two_timer_world) /\
  te_id <$> timeEventHead (loop two_timer_world) = [1; 0] /\
  timer_ids_ok
    (loop (snd (aeCreateTimeEvent clock_set_back two_timer_world 5 12 0 NULL true))) /\
  fst (aeCreateTimeEvent clock_set_back two_timer_world 5 12 0 NULL true) = 2.
Proof.
  assert (timer_ids_ok (loop two_timer_world)) as Hok.
  { split.
    - intros t Ht. change (timeEventHead (loop two_timer_world))
        with [mkTimeEvent 1 210 0 11 NULL 0; mkTimeEvent 0 210 0 12 NULL 0] in Ht.
      apply elem_of_cons in Ht as [->|Ht]; [reflexivity|].
      apply list_elem_of_singleton in Ht as ->. reflexivity.
    - change (NoDup [1; 0]). apply NoDup_cons. split.
      + intros H. apply list_elem_of_singleton in H. discriminate.
      + apply NoDup_singleton. }
  split; [exact Hok|]. split; [reflexivity|].
  split; [|reflexivity].
  exact (proj1 (timer_ids_unique clock_set_back idle_finalizer two_timer_world
                  5 12 0 NULL true 0 Hok)).
Defined.

(** ** Deleting a timer *)

(** X6: [aeDeleteTimeEvent].  When no pending timer carries the identifier,
    it returns [AE_ERR] and changes nothing; otherwise it returns [AE_OK],
    takes the first timer with the identifier out of the list, the other
    timers staying in their order, and then runs the finalizer of that timer
    on its client data, if it has one; and when identifiers are unique and
    the timer has no finalizer, deleting the same identifier once more
    returns [AE_ERR]. *)
Theorem aeDeleteTimeEvent_spec fin w id :
  ((forall x, x ∈ timeEventHead (loop w) -> te_id x <> id) ->
     aeDeleteTimeEvent fin w id = (AE_ERR, w)) /\
  (forall x, x ∈ timeEventHead (loop w) -> te_id x = id ->
     exists pre t post,
       timeEventHead (loop w) = pre ++ t :: post /\ te_id t = id /\
       (forall y, y ∈ pre -> te_id y <> id) /\
       let w1 := set_loop (set_timeEventHead (pre ++ post) (loop w)) w in
       aeDeleteTimeEvent fin w id =
         (AE_OK, if finalizerProc t =? NULL then w1
                 else fin (finalizerProc t) w1 (te_clientData t)) /\
       (NoDup (te_id <$> timeEventHead (loop w)) -> finalizerProc t = NULL ->
          aeDeleteTimeEvent fin (snd (aeDeleteTimeEvent fin w id)) id
            = (AE_ERR, w1))).
Proof.
  split.
  - intros H. unfold aeDeleteTimeEvent.
    by rewrite (proj2 (unlink_timer_None id _) H).
  - intros x Hx Hid. unfold aeDeleteTimeEvent.
    destruct (unlink_timer id (timeEventHead (loop w))) as [[t rest]|] eqn:E.
    2:{ exfalso. by apply (proj1 (unlink_timer_None id _) E x). }
    apply unlink_timer_Some in E as (pre & post & Hl & -> & Ht & Hpre).
    exists pre, t, post. split; [done|]. split; [done|]. split; [done|].
    cbv zeta. split; [done|].
    intros Hnd Hnull. cbn [snd]. rewrite Hnull. cbn [Z.eqb NULL].
    assert (forall y, y ∈ pre ++ post -> te_id y <> id) as Hgone.
    { intros y Hy. rewrite Hl, fmap_app, fmap_cons in Hnd.
      apply NoDup_app in Hnd as (_ & Hn2 & Hn3).
      apply NoDup_cons in Hn3 as [Hn3 _].
      apply elem_of_app in Hy as [Hy|Hy]; [by apply Hpre|].
      intros Hc. apply Hn3. apply list_elem_of_fmap. exists y. split; [|done].
      congruence. }
    fields. by rewrite (proj2 (unlink_timer_None id _) Hgone).
Qed.

(** ** The nearest timer *)

Lemma when_le_refl t : when_le t t.
Proof. right. split; [done|lia]. Qed.

Lemma when_le_trans a b c : when_le a b -> when_le b c -> when_le a c.
Proof. unfold when_le. lia. Qed.

Lemma nearest_from_spec tes : forall acc,
  match nearest_from acc tes with
  | None => acc = None /\ tes = []
  | Some t =>
      (acc = Some t \/ t ∈ tes) /\
      (forall a, acc = Some a -> when_le t a) /\
      (forall x, x ∈ tes -> when_le t x)
  end.
Proof.
  induction tes as [|te rest IH]; intros acc; simpl.
  - destruct acc as [a|]; [|done]. split; [by left|]. split.
    + intros ? [= <-]. apply when_le_refl.
    + intros x Hx. by apply elem_of_nil in Hx.
  - set (acc' := match acc with
                 | Some n => if (when_sec te <? when_sec n)
                                || (when_sec te =? when_sec n) && (when_ms te <? when_ms n)
                             then Some te else Some n
                 | None => Some te
                 end).
    assert (exists c, acc' = Some c /\ (c = te \/ acc = Some c) /\ when_le c te /\
                      forall a, acc = Some a -> when_le c a) as (c & Hc & Hwho & Hte & Hacc).
    { unfold acc'. destruct acc as [n|].
      - destruct ((when_sec te <? when_sec n)
                  || (when_sec te =? when_sec n) && (when_ms te <? when_ms n)) eqn:E.
        + exists te. split; [done|]. split; [by left|]. split; [apply when_le_refl|].
          intros a [= <-]. unfold when_le.
          apply orb_true_iff in E as [E|E]; zbool; lia.
        + exists n. split; [done|]. split; [by right|]. split.
          * unfold when_le. zbool.
            destruct (Z.eq_dec (when_sec te) (when_sec n)) as [Heq|Hne]; [|lia].
            right. split; [done|].
            apply andb_false_iff in H0 as [H0|H0]; zbool; lia.
          * intros a [= <-]. apply when_le_refl.
      - exists te. split; [done|]. split; [by left|]. split; [apply when_le_refl|].
        done. }
    specialize (IH acc'). destruct (nearest_from acc' rest) as [t|].
    + destruct IH as (Hin & Hle & Hall). rewrite Hc in Hin, Hle.
      specialize (Hle c eq_refl). split; [|split].
      * destruct Hin as [[= <-]|Hin]; [|right; by right].
        destruct Hwho as [->|Hwho]; [right; by left|by left].
      * intros a Ha. eapply when_le_trans; [exact Hle|by apply Hacc].
      * intros x [->|Hx]%elem_of_cons; [|by apply Hall].
        by eapply when_le_trans.
    + destruct IH as [IH _]. congruence.
Qed.

Lemma aeSearchNearestTimer_list l :
  (aeSearchNearestTimer l = None <-> timeEventHead l = []) /\
  (forall t, aeSearchNearestTimer l = Some t ->
     t ∈ timeEventHead l /\ forall x, x ∈ timeEventHead l -> when_le t x).
Proof.
  unfold aeSearchNearestTimer.
  pose proof (nearest_from_spec (timeEventHead l) None) as H.
  destruct (nearest_from None (timeEventHead l)) as [t|].
  - destruct H as ([Hc|Hin] & _ & Hall); [done|]. split.
    + split; [done|]. intros E. rewrite E in Hin. by apply elem_of_nil in Hin.
    + intros ? [= <-]. done.
  - destruct H as [_ H]. split; [done|]. done.
Qed.

(** X7: [aeSearchNearestTimer] returns no timer exactly when none is
    pending; otherwise it returns a pending timer whose fire time, seconds
    first and then milliseconds, is not after that of any pending timer. *)
Theorem aeSearchNearestTimer_spec l :
  (aeSearchNearestTimer l = None <-> timeEventHead l = []) /\
  (forall t, aeSearchNearestTimer l = Some t ->
     t ∈ timeEventHead l /\ forall x, x ∈ timeEventHead l -> when_le t x).
Proof. apply aeSearchNearestTimer_list. Qed.

(** ** The timeout of the poll *)

(** X8: the timeout [aeProcessEvents] computes.  With [AE_DONT_WAIT] it is
    zero and the clock is not read; without it and without a timer to wait
    for (no [AE_TIME_EVENTS], or no pending timer) there is none, the poll
    blocks; otherwise it is computed from the nearest timer, and when that
    timer is not yet due (and both millisecond fields are in [0, 1000)) it
    is exactly the time left, with the microseconds in [0, 1000000). *)
Theorem poll_timeout_spec clock flags w t :
  0 <= when_ms t < 1000 ->
  0 <= Z.quot (snd (clock (ticks w))) 1000 < 1000 ->
  let now_sec := fst (clock (ticks w)) in
  let now_ms := Z.quot (snd (clock (ticks w))) 1000 in
  (Z.land flags AE_DONT_WAIT <> 0 -> poll_timeout clock flags w = (Some (0, 0), w)) /\
  (Z.land flags AE_DONT_WAIT = 0 ->
   Z.land flags AE_TIME_EVENTS = 0 \/ timeEventHead (loop w) = [] ->
   poll_timeout clock flags w = (None, w)) /\
  (Z.land flags AE_DONT_WAIT = 0 -> Z.land flags AE_TIME_EVENTS <> 0 ->
   aeSearchNearestTimer (loop w) = Some t ->
   poll_timeout clock flags w = (Some (timer_timeout t now_sec now_ms), tick w)) /\
  (now_sec < when_sec t \/ (now_sec = when_sec t /\ now_ms <= when_ms t) ->
   0 <= fst (timer_timeout t now_sec now_ms) /\
   0 <= snd (timer_timeout t now_sec now_ms) < 1000000 /\
   fst (timer_timeout t now_sec now_ms) * 1000000 + snd (timer_timeout t now_sec now_ms)
     = ((when_sec t - now_sec) * 1000 + (when_ms t - now_ms)) * 1000).
Proof.
  intros Hw Hn now_sec now_ms. fold now_ms in Hn.
  split; [|split; [|split]].
  - intros Hd. unfold poll_timeout.
    destruct (Z.land flags AE_DONT_WAIT =? 0) eqn:E; zbool; [done|].
    by rewrite andb_false_r.
  - intros Hd Hno. unfold poll_timeout. rewrite Hd. cbn [Z.eqb negb].
    rewrite andb_true_r.
    destruct (Z.land flags AE_TIME_EVENTS =? 0) eqn:E; zbool; [done|]. cbn [negb].
    destruct Hno as [Hno|Hno]; [done|].
    by rewrite (proj2 (proj1 (aeSearchNearestTimer_list (loop w))) Hno).
  - intros Hd Ht Hs. unfold poll_timeout. rewrite Hd. cbn [Z.eqb negb].
    rewrite andb_true_r.
    destruct (Z.land flags AE_TIME_EVENTS =? 0) eqn:E; zbool; [done|]. cbn [negb].
    by rewrite Hs.
  - intros Hfut. unfold timer_timeout.
    destruct (when_ms t <? now_ms) eqn:E; zbool.
    + destruct (when_sec t - now_sec - 1 <? 0) eqn:E1; zbool; [lia|].
      destruct ((when_ms t + 1000 - now_ms) * 1000 <? 0) eqn:E2; zbool; [lia|].
      cbn [fst snd]. lia.
    + destruct (when_sec t - now_sec <? 0) eqn:E1; zbool; [lia|].
      destruct ((when_ms t - now_ms) * 1000 <? 0) eqn:E2; zbool; [lia|].
      cbn [fst snd]. lia.
Qed.

(** With the clock at 100 s and the nearest timer due at 210 s, the poll is
    given 110 s. *)
Lemma poll_timeout_spec_witness :
  let t := mkTimeEvent 1 210 0 11 NULL 0 in
  aeSearchNearestTimer (loop two_timer_world) = Some t /\
  poll_timeout clock_set_back AE_ALL_EVENTS two_timer_world
    = (Some (110, 0), tick two_timer_world) /\
  poll_timeout clock_set_back (Z.lor AE_ALL_EVENTS AE_DONT_WAIT) two_timer_world
    = (Some (0, 0), two_timer_world) /\
  fst (timer_timeout t 100 0) * 1000000 + snd (timer_timeout t 100 0)
    = ((210 - 100) * 1000 + (0 - 0)) * 1000.
Proof.
  intros t.
  destruct (poll_timeout_spec clock_set_back AE_ALL_EVENTS two_timer_world t)
    as (_ & _ & Hnear & Hexact).
  { split; [apply Z.leb_le|apply Z.ltb_lt]; reflexivity. }
  { split; [apply Z.leb_le|apply Z.ltb_lt]; reflexivity. }
  split; [reflexivity|]. split.
  - apply Hnear; [reflexivity|discriminate|reflexivity].
  - split; [reflexivity|].
    apply Hexact. left. apply Z.ltb_lt. reflexivity.
Defined.

(** ** Entries of a batch whose descriptor was unregistered *)

Lemma dispatch_fired_none run w tr fd mk fe :
  slot (loop w) fd = Some fe ->
  Z.land (Z.land (mask fe) mk) AE_READABLE = 0 ->
  Z.land (Z.land (mask fe) mk) AE_WRITABLE = 0 ->
  dispatch_fired run w tr (mkFired fd mk) = (w, tr).
Proof.
  intros Hfe Hr Hw. unfold dispatch_fired. cbn [fired_fd fired_mask].
  rewrite Hfe, Hr. cbn [Z.eqb]. by rewrite Hfe, Hw.
Qed.

(** X9: a descriptor that was unregistered is not dispatched.  After
    [aeDeleteFileEvent] has removed every bit of the mask of a slot (as a
    callback run earlier in the same batch may do), a fired entry for that
    descriptor calls no callback and leaves the loop as it is, whatever the
    fired mask and whatever callbacks the slot still points to. *)
Theorem dispatch_after_delete run l n tr fd m mk fe :
  slot l fd = Some fe -> fd < setsize l ->
  Z.land (mask fe) (Z.lnot m) = AE_NONE ->
  aeGetFileEvents (aeDeleteFileEvent l fd m) fd = AE_NONE /\
  dispatch_fired run (mkWorld (aeDeleteFileEvent l fd m) n) tr (mkFired fd mk)
    = (mkWorld (aeDeleteFileEvent l fd m) n, tr).
Proof.
  intros Hfe Hlt Hz.
  assert (aeGetFileEvents (aeDeleteFileEvent l fd m) fd = AE_NONE) as Hg.
  { rewrite aeGetFileEvents_delete, decide_True by done.
    by rewrite (aeGetFileEvents_slot l fd fe). }
  split; [done|].
  assert (exists fe', slot (aeDeleteFileEvent l fd m) fd = Some fe' /\ mask fe' = 0)
    as (fe' & Hfe' & Hm').
  { destruct (Z.eq_dec (mask fe) AE_NONE) as [Hm|Hm].
    - rewrite aeDeleteFileEvent_noop by (right; eauto). eauto.
    - rewrite (aeDeleteFileEvent_act l fd m fe) by done. cbv zeta.
      pose proof Hfe as [H0 Hfe0]%slot_lookup.
      exists (set_mask (Z.land (mask fe) (Z.lnot m)) fe). split; [|done].
      apply slot_lookup. split; [done|]. cbn [events].
      by rewrite list_lookup_alter_eq, Hfe0. }
  apply (dispatch_fired_none run _ tr fd mk fe'); [done|..];
    by rewrite Hm', !Z.land_0_l.
Qed.

(** Descriptor 3, registered for both directions, is removed; an entry that
    reports it readable and writable calls nothing. *)
Lemma dispatch_after_delete_witness :
  let l := snd (aeCreateFileEvent (new_loop 0 4) 3 3 10 7 true) in
  snd (dispatch_fired idle_fileProc (mkWorld l 0) [] (mkFired 3 3))
    = [CallRead 10 3 7 3] /\
  dispatch_fired idle_fileProc (mkWorld (aeDeleteFileEvent l 3 3) 0) [] (mkFired 3 3)
    = (mkWorld (aeDeleteFileEvent l 3 3) 0, []).
Proof.
  intros l. split; [reflexivity|].
  apply (dispatch_after_delete idle_fileProc l 0 [] 3 3 3 (mkFileEvent 3 10 10 7));
    reflexivity.
Defined.

(** ** What one tick observes *)

Lemma time_loop_count clock tp fin fuel : forall maxId w te tr p,
  exists new,
    snd (time_loop clock tp fin fuel maxId w te tr p) = tr ++ new /\
    Forall is_time_call new /\
    forall n, fst (fst (time_loop clock tp fin fuel maxId w te tr p)) = Finished n ->
              n = p + Z.of_nat (length new).
Proof.
  induction fuel as [|fuel IH]; intros maxId w te tr p.
  - exists []. rewrite app_nil_r. split; [done|]. split; [done|]. done.
  - destruct te as [|t next].
    + exists []. rewrite time_loop_nil, app_nil_r. split; [done|]. split; [done|].
      intros n [= <-]. simpl. lia.
    + destruct (Z_lt_ge_dec maxId (te_id t)) as [Hgt|Hle].
      * rewrite time_loop_skip by done. apply IH.
      * destruct (ripe t (fst (clock (ticks w))) (Z.quot (snd (clock (ticks w))) 1000))
          eqn:Hr.
        -- rewrite time_loop_fire by (done || lia). cbv zeta.
           edestruct IH as (new & Hnew & Hall & Hn). rewrite Hnew.
           eexists. rewrite <- app_assoc. split; [done|]. split.
           ++ constructor; [done|exact Hall].
           ++ intros n E. rewrite (Hn n E). simpl length. lia.
        -- rewrite time_loop_wait by (done || lia). apply IH.
Qed.

(** X10: [processTimeEvents] returns the number of time callbacks it
    called, and calls nothing but time callbacks. *)
Theorem processTimeEvents_count clock tp fin fuel w tr :
  exists new,
    snd (processTimeEvents clock tp fin fuel w tr) = tr ++ new /\
    Forall is_time_call new /\
    forall n, fst (fst (processTimeEvents clock tp fin fuel w tr)) = Finished n ->
              n = Z.of_nat (length new).
Proof.
  unfold processTimeEvents.
  destruct (time_loop_count clock tp fin fuel
              (timeEventNextId (loop (time_skew clock w)) - 1) (time_skew clock w)
              (timeEventHead (loop (time_skew clock w))) tr 0)
    as (new & Hnew & Hall & Hn).
  exists new. split; [done|]. split; [done|]. intros n E. rewrite (Hn n E). lia.
Qed.

Lemma is_time_call_is_call new : Forall is_time_call new -> Forall is_call new.
Proof. intros H. eapply Forall_impl; [exact H|]. by intros []. Qed.

Lemma dispatch_loop_calls run count : forall j w tr,
  exists new, snd (fst (dispatch_loop run count j w tr)) = tr ++ new /\
              Forall is_call new.
Proof.
  induction count as [|count IH]; intros j w tr.
  - exists []. simpl. by rewrite app_nil_r.
  - cbn [dispatch_loop]. destruct (fired (loop w) !! j) as [f|].
    2:{ exists []. simpl. by rewrite app_nil_r. }
    destruct (dispatch_fired_order run w tr (fired_fd f) (fired_mask f))
      as (seg & Hseg & Hshape).
    replace (mkFired (fired_fd f) (fired_mask f)) with f in Hseg by by destruct f.
    destruct (dispatch_fired run w tr f) as [w1 tr1]. simpl in Hseg.
    destruct (IH (S j) w1 tr1) as (rest & Hrest & Hcalls).
    destruct (dispatch_loop run count (S j) w1 tr1) as [[w2 tr2] n].
    simpl in Hrest. exists (seg ++ rest). cbn [fst snd].
    split; [by rewrite Hrest, Hseg, app_assoc|].
    apply Forall_app. split; [|done].
    destruct Hshape as [->|[(p & d & ->)|[(p & d & ->)|(p & d & p' & d' & ->)]]];
      repeat constructor.
Qed.

(** X11: when [aeProcessEvents] polls the backend.  With neither
    [AE_FILE_EVENTS] nor [AE_TIME_EVENTS] it returns 0 and does nothing.
    Otherwise it polls exactly once, before it calls any callback, if some
    descriptor is registered ([maxfd] is not -1) or timers are processed
    without [AE_DONT_WAIT]; and it does not poll at all if no descriptor is
    registered and timers are not processed or [AE_DONT_WAIT] is set. *)
Theorem aeProcessEvents_polls clock frun tp fin poll fuel w flags tr :
  let r := aeProcessEvents clock frun tp fin poll fuel w flags tr in
  (Z.land flags AE_TIME_EVENTS = 0 -> Z.land flags AE_FILE_EVENTS = 0 ->
     r = (Finished 0, w, tr)) /\
  (Z.land flags AE_TIME_EVENTS <> 0 \/ Z.land flags AE_FILE_EVENTS <> 0 ->
   maxfd (loop w) = -1 ->
   Z.land flags AE_TIME_EVENTS = 0 \/ Z.land flags AE_DONT_WAIT <> 0 ->
     exists new, snd r = tr ++ new /\ Forall is_call new) /\
  (Z.land flags AE_TIME_EVENTS <> 0 \/ Z.land flags AE_FILE_EVENTS <> 0 ->
   maxfd (loop w) <> -1 \/
     (Z.land flags AE_TIME_EVENTS <> 0 /\ Z.land flags AE_DONT_WAIT = 0) ->
     exists new, snd r = tr ++ Poll (fst (poll_timeout clock flags w)) :: new /\
                 Forall is_call new).
Proof.
  intros r. unfold r, aeProcessEvents.
  assert (forall w1 tr1 processed new1,
            tr1 = tr ++ new1 ->
            exists new,
              snd (if negb (Z.land flags AE_TIME_EVENTS =? 0)
                   then match processTimeEvents clock tp fin fuel w1 tr1 with
                        | (Finished n, w2, tr2) => (Finished (processed + n), w2, tr2)
                        | (OutOfFuel, w2, tr2) => (OutOfFuel, w2, tr2)
                        end
                   else (Finished processed, w1, tr1)) = tr ++ new1 ++ new /\
              Forall is_call new) as Htail.
  { intros w1 tr1 processed new1 ->.
    destruct (negb (Z.land flags AE_TIME_EVENTS =? 0)).
    - destruct (processTimeEvents_count clock tp fin fuel w1 (tr ++ new1))
        as (new & Hnew & Hall & _).
      exists new. split; [|by apply is_time_call_is_call].
      destruct (processTimeEvents clock tp fin fuel w1 (tr ++ new1)) as [[[n|] w2] tr2];
        simpl in *; by rewrite Hnew, app_assoc.
    - exists []. by rewrite !app_nil_r. }
  split; [|split].
  - intros -> ->. done.
  - intros Hsome Hmax Hno.
    replace ((Z.land flags AE_TIME_EVENTS =? 0) && (Z.land flags AE_FILE_EVENTS =? 0))
      with false.
    2:{ symmetry. apply andb_false_iff.
        destruct Hsome as [H|H]; [left|right]; by apply Z.eqb_neq. }
    replace (negb (maxfd (loop w) =? -1)
             || negb (Z.land flags AE_TIME_EVENTS =? 0)
                && (Z.land flags AE_DONT_WAIT =? 0)) with false.
    2:{ symmetry. rewrite Hmax. cbn [Z.eqb negb orb].
        destruct Hno as [->|H]; [done|].
        apply andb_false_iff. right. by apply Z.eqb_neq. }
    destruct (Htail w tr 0 []) as (new & Hnew & Hall); [by rewrite app_nil_r|].
    exists new. split; [|done]. exact Hnew.
  - intros Hsome Hyes.
    replace ((Z.land flags AE_TIME_EVENTS =? 0) && (Z.land flags AE_FILE_EVENTS =? 0))
      with false.
    2:{ symmetry. apply andb_false_iff.
        destruct Hsome as [H|H]; [left|right]; by apply Z.eqb_neq. }
    replace (negb (maxfd (loop w) =? -1)
             || negb (Z.land flags AE_TIME_EVENTS =? 0)
                && (Z.land flags AE_DONT_WAIT =? 0)) with true.
    2:{ symmetry. apply orb_true_iff. destruct Hyes as [H|[H1 H2]].
        - left. apply negb_true_iff. by apply Z.eqb_neq.
        - right. rewrite H2. rewrite andb_true_r. apply negb_true_iff.
          by apply Z.eqb_neq. }
    destruct (poll_timeout clock flags w) as [tvp w0]. cbn [fst].
    set (ready := poll (loop w0) tvp).
    set (w0' := set_loop _ w0).
    destruct (dispatch_loop_calls frun (length ready) 0 w0' (tr ++ [Poll tvp]))
      as (new1 & Hnew1 & Hall1).
    destruct (dispatch_loop frun (length ready) 0 w0' (tr ++ [Poll tvp]))
      as [[w1 tr1] processed]. cbn [fst snd] in Hnew1.
    destruct (Htail w1 tr1 processed (Poll tvp :: new1)) as (new & Hnew & Hall).
    { rewrite Hnew1, <- app_assoc. done. }
    exists (new1 ++ new). split; [|by apply Forall_app].
    rewrite Hnew. by rewrite <- app_comm_cons.
Qed.

(** ** A pass over one-shot timers *)

(** X12: a pass over one-shot timers ends.  When every time callback returns
    [AE_NOMORE] and neither the callbacks nor the finalizers touch the list
    of timers, [processTimeEvents] returns within [(n+1)^2] iterations of
    its loop, [n] being the number of pending timers; the number it returns
    is the number of timers it removed from the list. *)
Theorem one_shot_pass_terminates clock tp fin fuel w tr :
  (forall p w id d,
     fst (tp p w id d) = AE_NOMORE /\
     timeEventHead (loop (snd (tp p w id d))) = timeEventHead (loop w)) ->
  (forall p w d, timeEventHead (loop (fin p w d)) = timeEventHead (loop w)) ->
  ((length (timeEventHead (loop w)) + 1) * (length (timeEventHead (loop w)) + 1)
   <= fuel)%nat ->
  exists k w' tr',
    processTimeEvents clock tp fin fuel w tr = (Finished (Z.of_nat k), w', tr') /\
    (length (timeEventHead (loop w')) + k = length (timeEventHead (loop w)))%nat.
Proof.
  intros Htp Hfin Hfuel. unfold processTimeEvents.
  assert (length (timeEventHead (loop (time_skew clock w)))
          = length (timeEventHead (loop w))) as Hlen.
  { unfold time_skew, time_now. fields.
    destruct (_ <? _); fields; [by rewrite length_map|done]. }
  destruct (time_loop_one_shot clock tp fin Htp Hfin
              (timeEventNextId (loop (time_skew clock w)) - 1) fuel
              (time_skew clock w) (timeEventHead (loop (time_skew clock w))) [] tr 0)
    as (k & w' & tr' & Hrun & Hk); [done| |].
  { rewrite Hlen. nia. }
  exists k, w', tr'. split; [|lia]. rewrite Hrun. f_equal. 
Qed.

(** Scenario S2 with two timers: after the clock is set back both fire and
    the list of timers is empty. *)
Lemma one_shot_pass_terminates_witness :
  exists k w' tr',
    processTimeEvents clock_set_back idle_timeProc idle_finalizer 9
      two_timer_world [] = (Finished (Z.of_nat k), w', tr') /\
    (length (timeEventHead (loop w')) + k
     = length (timeEventHead (loop two_timer_world)))%nat.
Proof.
  apply (one_shot_pass_terminates clock_set_back idle_timeProc idle_finalizer 9
           two_timer_world []).
  - intros p w id d. split; reflexivity.
  - intros p w d. reflexivity.
  - apply Nat.leb_le. reflexivity.
Defined.

(** ** Waiting on one descriptor *)

(** X13: [aeWait].  When [poll] does not return 1 (timeout or error),
    [aeWait] returns what [poll] returned.  When it returns 1 the result is
    a mask of [AE_READABLE] and [AE_WRITABLE] only: readable exactly when
    [POLLIN] was reported, writable exactly when [POLLOUT], [POLLERR] or
    [POLLHUP] was reported. *)
Theorem aeWait_spec POLLIN POLLOUT POLLERR POLLHUP poll fd m ms :
  let retval := fst (poll fd (aeWait_events POLLIN POLLOUT m) ms) in
  let revents := snd (poll fd (aeWait_events POLLIN POLLOUT m) ms) in
  let r := aeWait POLLIN POLLOUT POLLERR POLLHUP poll fd m ms in
  (retval <> 1 -> r = retval) /\
  (retval = 1 ->
     0 <= r <= Z.lor AE_READABLE AE_WRITABLE /\
     (Z.land r AE_READABLE <> 0 <-> Z.land revents POLLIN <> 0) /\
     (Z.land r AE_WRITABLE <> 0 <->
        Z.land revents POLLOUT <> 0 \/ Z.land revents POLLERR <> 0 \/
        Z.land revents POLLHUP <> 0)).
Proof.
  intros retval revents r. unfold r, aeWait. fold retval revents.
  destruct (poll fd (aeWait_events POLLIN POLLOUT m) ms) as [rv re] eqn:E.
  subst retval revents. cbn [fst snd]. split.
  - intros H. destruct (rv =? 1) eqn:E1; zbool; done.
  - intros ->. cbn [Z.eqb Pos.eqb]. unfold aeWait_retmask.
    destruct (Z.land re POLLIN =? 0) eqn:E1, (Z.land re POLLOUT =? 0) eqn:E2,
             (Z.land re POLLERR =? 0) eqn:E3, (Z.land re POLLHUP =? 0) eqn:E4;
      zbool; unfold AE_READABLE, AE_WRITABLE;
      repeat first
        [ progress change (Z.lor 0 1) with 1 | progress change (Z.lor 0 2) with 2
        | progress change (Z.lor 1 2) with 3 | progress change (Z.lor 2 2) with 2
        | progress change (Z.lor 3 2) with 3
        | progress change (Z.land 0 1) with 0 | progress change (Z.land 0 2) with 0
        | progress change (Z.land 1 1) with 1 | progress change (Z.land 1 2) with 0
        | progress change (Z.land 2 1) with 0 | progress change (Z.land 2 2) with 2
        | progress change (Z.land 3 1) with 1 | progress change (Z.land 3 2) with 2 ];
      (split; [lia|]); split; split; intros H; first [lia | tauto].
Qed.

(** ** The main loop *)

Section MainFacts.

Variable clock : nat -> Z * Z.
Variable frun : Z -> world -> Z -> Z -> Z -> world.
Variable tp : Z -> world -> Z -> Z -> Z * world.
Variable fin : Z -> world -> Z -> world.
Variable poll : aeEventLoop -> option (Z * Z) -> list aeFiredEvent.
Variable hook : Z -> world -> world.

Lemma main_loop_stopped fuel pass_fuel : forall w tr w' tr',
  main_loop clock frun tp fin poll hook fuel pass_fuel w tr = (true, w', tr') ->
  stop (loop w') <> 0.
Proof.
  induction fuel as [|fuel IH]; intros w tr w' tr' H; [done|].
  cbn [main_loop] in H. destruct (stop (loop w) =? 0) eqn:E; zbool.
  - destruct (aeProcessEvents _ _ _ _ _ _ _ _ _) as [[[n|] w2] tr2]; [|done].
    by apply (IH w2 tr2 w' tr').
  - by injection H as <- <-.
Qed.

End MainFacts.

(** X14: [aeMain] and the stop flag.  [aeMain] clears the flag before its
    first iteration, so a call of [aeStop] made before [aeMain] has no
    effect; it returns only with the flag set; and once the flag is set at
    the top of the loop nothing more is polled or called. *)
Theorem aeMain_stop clock frun tp fin poll hook fuel pass_fuel w tr :
  aeMain clock frun tp fin poll hook fuel pass_fuel
    (set_loop (aeStop (loop w)) w) tr
  = aeMain clock frun tp fin poll hook fuel pass_fuel w tr /\
  (forall w' tr',
     aeMain clock frun tp fin poll hook fuel pass_fuel w tr = (true, w', tr') ->
     stop (loop w') <> 0) /\
  (stop (loop w) <> 0 ->
     main_loop clock frun tp fin poll hook (S fuel) pass_fuel w tr = (true, w, tr)).
Proof.
  split; [done|]. split.
  - intros w' tr' H. by apply main_loop_stopped in H.
  - intros H. cbn [main_loop]. destruct (stop (loop w) =? 0) eqn:E; zbool; done.
Qed.

(** ** A new loop *)

(** X25: [aeCreateEventLoop].  It returns [NULL] exactly when one of its
    allocations or the creation of the backend state fails.  The loop it
    returns has the size asked for, no descriptor registered ([maxfd] is -1
    and [aeGetFileEvents] reports nothing for every descriptor), no timer,
    the counter of timer identifiers at 0, the stop flag clear, no
    [beforesleep] hook and the time of its creation as [lastTime]; its table
    is well formed. *)
Theorem aeCreateEventLoop_spec a b c d now size :
  0 <= size ->
  (aeCreateEventLoop a b c d now size = None <-> a && b && c && d = false) /\
  forall l, aeCreateEventLoop a b c d now size = Some l ->
    aeGetSetSize l = size /\ maxfd l = -1 /\ stop l = 0 /\ lastTime l = now /\
    timeEventHead l = [] /\ timeEventNextId l = 0 /\ beforesleep l = NULL /\
    length (fired l) = Z.to_nat size /\
    wf_loop l /\ maxfd_tight l /\ timer_ids_ok l /\
    forall fd, aeGetFileEvents l fd = AE_NONE.
Proof.
  intros Hsz. split.
  - unfold aeCreateEventLoop. destruct a, b, c, d; simpl; split; congruence.
  - intros l Hl. destruct (create_loop_wf _ _ _ _ _ _ _ Hsz Hl) as (Hwf & Htight).
    pose proof (aeCreateEventLoop_ids_below _ _ _ _ _ _ _ Hl) as Hids.
    apply aeCreateEventLoop_Some in Hl.
    assert (maxfd l = -1) as Hmax by (by subst l).
    assert (timeEventHead l = []) as Hnil by (by subst l).
    split; [by subst l|]. split; [done|]. split; [by subst l|]. split; [by subst l|].
    split; [done|]. split; [by subst l|]. split; [by subst l|].
    split; [subst l; cbn; by rewrite length_replicate|].
    split; [done|]. split; [done|]. split.
    + split; [done|]. rewrite Hnil. constructor.
    + intros fd. destruct (Z_lt_ge_dec (-1) fd) as [Hgt|Hle].
      * apply aeGetFileEvents_above; [done|lia].
      * apply aeGetFileEvents_none. right. apply wf_slot_none; [done|lia].
Qed.

Lemma aeCreateEventLoop_spec_witness :
  0 <= 16 /\
  (aeCreateEventLoop true true true true 100 16 = None <->
     true && true && true && true = false) /\
  forall l, aeCreateEventLoop true true true true 100 16 = Some l ->
    aeGetSetSize l = 16 /\ maxfd l = -1 /\ stop l = 0 /\ lastTime l = 100 /\
    timeEventHead l = [] /\ timeEventNextId l = 0 /\ beforesleep l = NULL /\
    length (fired l) = Z.to_nat 16 /\
    wf_loop l /\ maxfd_tight l /\ timer_ids_ok l /\
    forall fd, aeGetFileEvents l fd = AE_NONE.
Proof.
  split; [lia|]. apply (aeCreateEventLoop_spec true true true true 100 16). lia.
Defined.

(** ** The rest of adlist *)

Module AdlistOpsFacts.
Import Adlist AdlistFacts AdlistOps.

(** *** The representation predicate *)

Lemma is_list_intro h l ns :
  len l = Z.of_nat (length ns) ->
  head l = node_at ns 0 ->
  tail l = node_at ns (len l - 1) ->
  (forall i, 0 <= i < Z.of_nat (length ns) ->
     node_at ns i <> NULL /\
     exists nd, h !! node_at ns i = Some nd /\
                next nd = node_at ns (i + 1) /\ prev nd = node_at ns (i - 1)) ->
  is_list h l ns.
Proof.
  intros Hlen Hhead Htail Hn. repeat split; try done.
  - pose proof (lookup_lt_Some _ _ _ H) as Hlt.
    destruct (Hn (Z.of_nat i)) as (Hnz & _); [lia|].
    by rewrite (node_at_lookup _ _ _ H) in Hnz.
  - pose proof (lookup_lt_Some _ _ _ H) as Hlt.
    destruct (Hn (Z.of_nat i)) as (_ & Hnd); [lia|].
    by rewrite (node_at_lookup _ _ _ H) in Hnd.
Qed.

(** The nodes of a list lie at different addresses. *)
Lemma is_list_inj h l ns :
  is_list h l ns ->
  forall i j, 0 <= i < Z.of_nat (length ns) -> 0 <= j < Z.of_nat (length ns) ->
    node_at ns i = node_at ns j -> i = j.
Proof.
  intros Hl i. 
  assert (forall k : nat, forall i j, i = Z.of_nat k -> 0 <= i < Z.of_nat (length ns) ->
            0 <= j < Z.of_nat (length ns) -> node_at ns i = node_at ns j -> i = j) as H.
  { induction k as [|k IH]; intros i' j Hk Hi Hj Heq.
    - destruct (is_list_node h l ns Hl i' Hi) as (_ & nd & Hnd & _ & Hprev).
      destruct (is_list_node h l ns Hl j Hj) as (_ & nd' & Hnd' & _ & Hprev').
      rewrite Heq, Hnd' in Hnd. injection Hnd as ->.
      destruct (decide (j = 0)) as [|Hne]; [lia|exfalso].
      destruct (is_list_node h l ns Hl (j - 1)) as (Hnz & _); [lia|].
      apply Hnz. rewrite <- Hprev', Hprev. apply node_at_neg. lia.
    - destruct (is_list_node h l ns Hl i' Hi) as (_ & nd & Hnd & _ & Hprev).
      destruct (is_list_node h l ns Hl j Hj) as (_ & nd' & Hnd' & _ & Hprev').
      rewrite Heq, Hnd' in Hnd. injection Hnd as ->.
      destruct (decide (j = 0)) as [->|Hne].
      + exfalso. destruct (is_list_node h l ns Hl (i' - 1)) as (Hnz & _); [lia|].
        apply Hnz. rewrite <- Hprev, Hprev'. by apply node_at_neg.
      + assert (i' - 1 = j - 1); [|lia].
        apply IH; [lia..|]. by rewrite <- Hprev, <- Hprev'. }
  intros j Hi Hj. apply (H (Z.to_nat i)); lia.
Qed.

Lemma is_list_NoDup h l ns : is_list h l ns -> NoDup ns.
Proof.
  intros Hl. apply NoDup_alt. intros i j a Hi Hj.
  pose proof (lookup_lt_Some _ _ _ Hi). pose proof (lookup_lt_Some _ _ _ Hj).
  assert (Z.of_nat i = Z.of_nat j); [|lia].
  apply (is_list_inj h l ns Hl); [lia..|].
  by rewrite (node_at_lookup _ _ _ Hi), (node_at_lookup _ _ _ Hj).
Qed.

Lemma node_at_delete ns (i : nat) k :
  node_at (delete i ns) k
  = if k <? Z.of_nat i then node_at ns k else node_at ns (k + 1).
Proof.
  unfold node_at. destruct (k <? 0) eqn:E0; zbool.
  - destruct (k <? Z.of_nat i) eqn:E1; zbool; [done|lia].
  - destruct (k <? Z.of_nat i) eqn:E1; zbool.
    + rewrite list_lookup_delete_lt by lia. done.
    + destruct (k + 1 <? 0) eqn:E2; zbool; [lia|].
      rewrite list_lookup_delete_ge by lia.
      replace (Z.to_nat (k + 1)) with (S (Z.to_nat k)) by lia. done.
Qed.

Lemma node_at_insert ns (i : nat) x k :
  (i <= length ns)%nat ->
  node_at (take i ns ++ x :: drop i ns) k
  = if k <? Z.of_nat i then node_at ns k
    else if k =? Z.of_nat i then x else node_at ns (k - 1).
Proof.
  intros Hi. unfold node_at. destruct (k <? 0) eqn:E0; zbool.
  - destruct (k <? Z.of_nat i) eqn:E1; zbool; [done|lia].
  - destruct (k <? Z.of_nat i) eqn:E1; zbool.
    + rewrite lookup_app_l by (rewrite length_take; lia).
      rewrite lookup_take_lt by lia. done.
    + rewrite lookup_app_r by (rewrite length_take; lia).
      rewrite length_take, Nat.min_l by lia.
      destruct (k =? Z.of_nat i) eqn:E2; zbool.
      * replace (Z.to_nat k - i)%nat with 0%nat by lia. done.
      * destruct (k - 1 <? 0) eqn:E3; zbool; [lia|].
        replace (Z.to_nat k - i)%nat with (S (Z.to_nat (k - 1) - i)) by lia.
        simpl. rewrite lookup_drop. do 2 f_equal. lia.
Qed.

(** Only the cells of its nodes matter to a list. *)
Lemma is_list_frame h h' l ns :
  is_list h l ns -> (forall a, a ∈ ns -> h' !! a = h !! a) -> is_list h' l ns.
Proof.
  intros (Hlen & Hhead & Htail & Hn) Hsame. repeat split; try done.
  - by destruct (Hn _ _ H).
  - destruct (Hn _ _ H) as (_ & nd & ? & ? & ?). exists nd.
    rewrite Hsame by (by eapply list_elem_of_lookup_2). done.
Qed.

Lemma store_Some h p f nd :
  h !! p = Some nd -> store h p f = Some (<[p := f nd]> h).
Proof. intros H. unfold store. by rewrite H. Qed.


(** *** [listDelNode] *)

Lemma is_list_delete h h2 l l' ns (i : nat) node :
  is_list h l ns -> ns !! i = Some node ->
  len l' = len l - 1 ->
  head l' = (if Z.of_nat i =? 0 then node_at ns 1 else head l) ->
  tail l' = (if Z.of_nat i =? len l - 1 then node_at ns (Z.of_nat i - 1) else tail l) ->
  (forall k, 0 <= k < Z.of_nat (length ns) -> k <> Z.of_nat i ->
     exists nd0 nd2, h !! node_at ns k = Some nd0 /\ h2 !! node_at ns k = Some nd2 /\
       next nd2 = (if k =? Z.of_nat i - 1 then node_at ns (Z.of_nat i + 1) else next nd0) /\
       prev nd2 = (if k =? Z.of_nat i + 1 then node_at ns (Z.of_nat i - 1) else prev nd0)) ->
  is_list (delete node h2) l' (delete i ns).
Proof.
  intros Hl Hi Hlen' Hhead' Htail' Hcells.
  pose proof Hl as (Hlen & Hhead & Htail & _).
  pose proof (lookup_lt_Some _ _ _ Hi) as Hlt.
  assert (Z.of_nat (length (delete i ns)) = Z.of_nat (length ns) - 1) as Hdl.
  { rewrite length_delete by eauto. lia. }
  apply is_list_intro.
  - lia.
  - rewrite Hhead', node_at_delete.
    destruct (Z.of_nat i =? 0) eqn:E; zbool.
    + destruct (0 <? Z.of_nat i) eqn:E1; zbool; [lia|done].
    + destruct (0 <? Z.of_nat i) eqn:E1; zbool; [done|lia].
  - rewrite Htail', node_at_delete, Hlen', Htail.
    destruct (Z.of_nat i =? len l - 1) eqn:E; zbool.
    + destruct (len l - 1 - 1 <? Z.of_nat i) eqn:E1; zbool; [|lia].
      f_equal. lia.
    + destruct (len l - 1 - 1 <? Z.of_nat i) eqn:E1; zbool; [lia|].
      f_equal. lia.
  - intros k Hk. rewrite !node_at_delete.
    set (k' := if k <? Z.of_nat i then k else k + 1).
    assert (0 <= k' < Z.of_nat (length ns) /\ k' <> Z.of_nat i) as (Hk' & Hne).
    { unfold k'. destruct (k <? Z.of_nat i) eqn:E; zbool; lia. }
    replace (if k <? Z.of_nat i then node_at ns k else node_at ns (k + 1))
      with (node_at ns k') by (unfold k'; by destruct (k <? Z.of_nat i)).
    destruct (is_list_node h l ns Hl k' Hk') as (Hnz & nd & Hnd & Hnext & Hprev).
    split; [done|].
    destruct (Hcells k' Hk' Hne) as (nd0 & nd2 & Hnd0 & Hnd2 & Hn2 & Hp2).
    rewrite Hnd in Hnd0. injection Hnd0 as <-.
    exists nd2. split.
    { rewrite lookup_delete_ne; [done|].
      intros Heq. apply Hne. symmetry.
      apply (is_list_inj h l ns Hl); [lia..|].
      by rewrite (node_at_lookup _ _ _ Hi). }
    rewrite Hn2, Hp2, Hnext, Hprev. unfold k'.
    destruct (k <? Z.of_nat i) eqn:E; zbool.
    + destruct (k + 1 <? Z.of_nat i) eqn:E1, (k - 1 <? Z.of_nat i) eqn:E2,
        (k =? Z.of_nat i - 1) eqn:E3, (k =? Z.of_nat i + 1) eqn:E4; zbool;
        try lia; split; f_equal; lia.
    + destruct (k + 1 <? Z.of_nat i) eqn:E1, (k - 1 <? Z.of_nat i) eqn:E2,
        (k + 1 =? Z.of_nat i - 1) eqn:E3, (k + 1 =? Z.of_nat i + 1) eqn:E4; zbool;
        try lia; split; f_equal; lia.
Qed.


Lemma listDelNode_is_list h l ns (i : nat) node :
  is_list h l ns -> ns !! i = Some node -> len l <= ULONG_MODULUS ->
  exists h' l' nd,
    h !! node = Some nd /\
    listDelNode h l node = Some (h', l', if free l =? NULL then [] else [value nd]) /\
    is_list h' l' (delete i ns) /\
    h' !! node = None /\
    (forall a, a <> node -> listNodeValue h' a = listNodeValue h a) /\
    (forall a, a ∉ ns -> h' !! a = h !! a) /\
    dup l' = dup l /\ free l' = free l /\ match_ l' = match_ l.
Proof.
  intros Hl Hi Hmax. pose proof Hl as (Hlen & Hhead & Htail & _).
  pose proof (lookup_lt_Some _ _ _ Hi) as Hlt.
  pose proof (node_at_lookup _ _ _ Hi) as Hnode.
  destruct (is_list_node h l ns Hl (Z.of_nat i)) as (Hnz & nd & Hnd & Hnext & Hprev);
    [lia|]. rewrite Hnode in Hnz, Hnd.
  assert (forall k, 0 <= k < Z.of_nat (length ns) -> k <> Z.of_nat i ->
            node_at ns k <> node) as Hother.
  { intros k Hk Hne Heq. apply Hne. apply (is_list_inj h l ns Hl); [lia..|].
    by rewrite Hnode. }
  (* the store through [node->prev] *)
  assert (exists h1 l1,
    (if prev nd =? NULL then Some (h, set_head (next nd) l)
     else h' ← store h (prev nd) (set_next (next nd)); Some (h', l)) = Some (h1, l1) /\
    h1 !! node = Some nd /\
    len l1 = len l /\ tail l1 = tail l /\
    head l1 = (if Z.of_nat i =? 0 then node_at ns 1 else head l) /\
    dup l1 = dup l /\ free l1 = free l /\ match_ l1 = match_ l /\
    (forall a, a ∉ ns -> h1 !! a = h !! a) /\
    (forall k, 0 <= k < Z.of_nat (length ns) -> k <> Z.of_nat i ->
       exists nd0 nd1, h !! node_at ns k = Some nd0 /\ h1 !! node_at ns k = Some nd1 /\
         next nd1 = (if k =? Z.of_nat i - 1 then node_at ns (Z.of_nat i + 1) else next nd0) /\
         prev nd1 = prev nd0 /\ value nd1 = value nd0)) as
    (h1 & l1 & Hs1 & Hnd1 & Hlen1 & Htail1 & Hhead1 & Hd1 & Hf1 & Hm1 & Hout1 & Hc1).
  { destruct (decide (i = 0%nat)) as [->|Hi0].
    - rewrite Hprev, node_at_neg by lia. rewrite Z.eqb_refl.
      eexists _, _. split; [done|]. repeat split; try done.
      + intros k Hk Hne.
        destruct (is_list_node h l ns Hl k Hk) as (_ & nd0 & Hnd0 & _).
        exists nd0, nd0. repeat split; try done.
        destruct (k =? Z.of_nat 0 - 1) eqn:E; zbool; [lia|done].
    - destruct (is_list_node h l ns Hl (Z.of_nat i - 1)) as (Hpz & ndp & Hndp & _);
        [lia|]. rewrite <- Hprev in Hpz, Hndp.
      destruct (prev nd =? NULL) eqn:E; zbool; [done|].
      rewrite (store_Some _ _ _ _ Hndp). cbn [mbind option_bind].
      assert (prev nd <> node) as Hpn.
      { rewrite Hprev. apply Hother; lia. }
      eexists _, _. split; [done|]. repeat split; try done.
      + by rewrite lookup_insert_ne.
      + destruct (Z.of_nat i =? 0) eqn:E1; zbool; [lia|done].
      + intros a Ha. rewrite lookup_insert_ne; [done|].
        intros <-. apply Ha. rewrite Hprev.
        destruct (node_at_in ns (Z.of_nat i - 1)) as (a & Ha1 & ->); [lia|].
        by eapply list_elem_of_lookup_2.
      + intros k Hk Hne.
        destruct (is_list_node h l ns Hl k Hk) as (_ & nd0 & Hnd0 & _).
        destruct (k =? Z.of_nat i - 1) eqn:E1; zbool.
        * subst k. rewrite <- Hprev. exists ndp, (set_next (next nd) ndp).
          rewrite lookup_insert_eq. repeat split; try done.
        * exists nd0, nd0. rewrite lookup_insert_ne; [done|].
          rewrite Hprev. intros Heq. apply E1. symmetry.
          by apply (is_list_inj h l ns Hl); [lia..|]. }
  (* the store through [node->next] *)
  assert (exists h2 l2,
    (if next nd =? NULL then Some (h1, set_tail (prev nd) l1)
     else h' ← store h1 (next nd) (set_prev (prev nd)); Some (h', l1)) = Some (h2, l2) /\
    h2 !! node = Some nd /\
    len l2 = len l /\
    tail l2 = (if Z.of_nat i =? len l - 1 then node_at ns (Z.of_nat i - 1) else tail l) /\
    head l2 = (if Z.of_nat i =? 0 then node_at ns 1 else head l) /\
    dup l2 = dup l /\ free l2 = free l /\ match_ l2 = match_ l /\
    (forall a, a ∉ ns -> h2 !! a = h !! a) /\
    (forall k, 0 <= k < Z.of_nat (length ns) -> k <> Z.of_nat i ->
       exists nd0 nd2, h !! node_at ns k = Some nd0 /\ h2 !! node_at ns k = Some nd2 /\
         next nd2 = (if k =? Z.of_nat i - 1 then node_at ns (Z.of_nat i + 1) else next nd0) /\
         prev nd2 = (if k =? Z.of_nat i + 1 then node_at ns (Z.of_nat i - 1) else prev nd0) /\
         value nd2 = value nd0)) as
    (h2 & l2 & Hs2 & Hnd2 & Hlen2 & Htail2 & Hhead2 & Hd2 & Hf2 & Hm2 & Hout2 & Hc2).
  { destruct (decide (Z.of_nat i = len l - 1)) as [Hil|Hil].
    - assert (next nd = NULL) as Hnull.
      { rewrite Hnext. apply node_at_out. lia. }
      rewrite Hnull, Z.eqb_refl.
      eexists _, _. split; [done|]. repeat split; try done.
      + cbn [tail set_tail]. rewrite Hprev.
        destruct (Z.of_nat i =? len l - 1) eqn:E; zbool; [done|lia].
      + intros k Hk Hne. destruct (Hc1 k Hk Hne) as (nd0 & nd1 & ? & ? & ? & ? & ?).
        exists nd0, nd1. repeat split; try done.
        destruct (k =? Z.of_nat i + 1) eqn:E; zbool; [lia|done].
    - destruct (Hc1 (Z.of_nat i + 1)) as (ndn0 & ndn & Hndn0 & Hndn & Hnn & Hnp & Hnv);
        [lia..|]. rewrite <- Hnext in Hndn0, Hndn.
      destruct (is_list_node h l ns Hl (Z.of_nat i + 1)) as (Hnnz & _); [lia|].
      rewrite <- Hnext in Hnnz.
      destruct (next nd =? NULL) eqn:E; zbool; [done|].
      rewrite (store_Some _ _ _ _ Hndn). cbn [mbind option_bind].
      assert (next nd <> node) as Hnn'.
      { rewrite Hnext. apply Hother; lia. }
      eexists _, _. split; [done|]. repeat split; try done.
      + by rewrite lookup_insert_ne.
      + rewrite Htail1. destruct (Z.of_nat i =? len l - 1) eqn:E1; zbool; [lia|done].
      + intros a Ha. rewrite lookup_insert_ne; [by apply Hout1|].
        intros <-. apply Ha. rewrite Hnext.
        destruct (node_at_in ns (Z.of_nat i + 1)) as (a & Ha1 & ->); [lia|].
        by eapply list_elem_of_lookup_2.
      + intros k Hk Hne. destruct (Hc1 k Hk Hne) as (nd0 & nd1 & Hk0 & Hk1 & Hkn & Hkp & Hkv).
        destruct (k =? Z.of_nat i + 1) eqn:E1; zbool.
        * subst k. rewrite <- Hnext. rewrite <- Hnext in Hk0, Hk1.
          rewrite Hndn in Hk1. injection Hk1 as <-.
          exists nd0, (set_prev (prev nd) ndn).
          rewrite lookup_insert_eq. repeat split; try done.
          cbn [next set_prev]. rewrite Hkn. destruct (Z.of_nat i + 1 =? Z.of_nat i - 1) eqn:E2; zbool; [lia|done].
        * exists nd0, nd1. rewrite lookup_insert_ne; [done|].
          rewrite Hnext. intros Heq. apply E1. symmetry.
          by apply (is_list_inj h l ns Hl); [lia..|]. }
  unfold listDelNode. rewrite Hnd. cbn [mbind option_bind]. rewrite Hs1.
  cbn [mbind option_bind]. rewrite Hnd1. cbn [mbind option_bind]. rewrite Hs2.
  cbn [mbind option_bind]. rewrite Hnd2. cbn [mbind option_bind]. rewrite Hf2.
  assert ((len l2 - 1) mod ULONG_MODULUS = len l - 1) as Hmod.
  { rewrite Hlen2. apply Z.mod_small. lia. }
  rewrite Hmod. eexists _, _, nd. split; [done|]. split; [done|]. split; [|split; [|split; [|split]]].
  - eapply is_list_delete; [exact Hl|exact Hi|done..|].
    intros k Hk Hne. destruct (Hc2 k Hk Hne) as (nd0 & nd2' & ? & ? & ? & ? & ?).
    by exists nd0, nd2'.
  - by rewrite lookup_delete_eq.
  - intros a Ha. unfold listNodeValue. rewrite lookup_delete_ne by done.
    destruct (decide (a ∈ ns)) as [Hin|Hin].
    + apply list_elem_of_lookup_1 in Hin as (k & Hk).
      pose proof (lookup_lt_Some _ _ _ Hk) as Hklt.
      pose proof (node_at_lookup _ _ _ Hk) as Hka.
      destruct (Hc2 (Z.of_nat k)) as (nd0 & nd2' & Hk0 & Hk2 & _ & _ & Hkv); [lia| |].
      { intros Heq. apply Ha. assert (k = i) as -> by lia. congruence. }
      rewrite Hka in Hk0, Hk2. rewrite Hk0, Hk2. simpl. by rewrite Hkv.
    + by rewrite Hout2.
  - intros a Ha. rewrite lookup_delete_ne; [by apply Hout2|].
    intros <-. apply Ha. by eapply list_elem_of_lookup_2.
  - done.
Qed.


(** *** Iterators *)

Lemma listNext_node h l ns iter (j : Z) :
  is_list h l ns -> 0 <= j < Z.of_nat (length ns) -> it_next iter = node_at ns j ->
  listNext h iter
  = Some (node_at ns j,
          mkIter (if direction iter =? AL_START_HEAD then node_at ns (j + 1)
                  else node_at ns (j - 1)) (direction iter)) /\
  node_at ns j <> NULL.
Proof.
  intros Hl Hj Hit.
  destruct (is_list_node h l ns Hl j Hj) as (Hnz & nd & Hnd & Hnext & Hprev).
  split; [|done]. unfold listNext. rewrite Hit.
  destruct (node_at ns j =? NULL) eqn:E; zbool; [done|].
  rewrite Hnd. cbn [mbind option_bind]. by rewrite Hnext, Hprev.
Qed.

Lemma listNext_end h iter : it_next iter = NULL -> listNext h iter = Some (NULL, iter).
Proof. intros H. unfold listNext. by rewrite H. Qed.

Lemma visit_forward h l ns :
  is_list h l ns ->
  forall fuel (j : nat), (j <= length ns)%nat -> (length ns - j < fuel)%nat ->
    visit h fuel (mkIter (node_at ns (Z.of_nat j)) AL_START_HEAD) = Some (drop j ns).
Proof.
  intros Hl. induction fuel as [|fuel IH]; intros j Hj Hf; [lia|].
  cbn [visit]. destruct (decide (j = length ns)) as [->|Hne].
  - rewrite listNext_end by (apply node_at_out; cbn; lia).
    cbn. by rewrite drop_all.
  - destruct (listNext_node h l ns (mkIter (node_at ns (Z.of_nat j)) AL_START_HEAD)
                (Z.of_nat j) Hl) as (-> & Hnz); [lia|done|].
    cbn [mbind option_bind direction]. change (AL_START_HEAD =? AL_START_HEAD) with true.
    cbn iota. destruct (node_at ns (Z.of_nat j) =? NULL) eqn:E; zbool; [done|].
    replace (Z.of_nat j + 1) with (Z.of_nat (S j)) by lia.
    rewrite (IH (S j)) by lia. cbn.
    destruct (node_at_in ns (Z.of_nat j)) as (a & Ha & ->); [lia|].
    rewrite Nat2Z.id in Ha. by rewrite (drop_S _ _ _ Ha).
Qed.

Lemma visit_backward h l ns dir :
  is_list h l ns -> dir <> AL_START_HEAD ->
  forall fuel (j : nat), (j <= length ns)%nat -> (j < fuel)%nat ->
    visit h fuel (mkIter (node_at ns (Z.of_nat j - 1)) dir) = Some (reverse (take j ns)).
Proof.
  intros Hl Hdir. induction fuel as [|fuel IH]; intros j Hj Hf; [lia|].
  cbn [visit]. destruct j as [|j].
  - rewrite listNext_end by (apply node_at_neg; cbn; lia). done.
  - destruct (listNext_node h l ns (mkIter (node_at ns (Z.of_nat (S j) - 1)) dir)
                (Z.of_nat (S j) - 1) Hl) as (-> & Hnz); [lia|done|].
    cbn [mbind option_bind direction].
    destruct (dir =? AL_START_HEAD) eqn:Ed; zbool; [done|].
    destruct (node_at ns (Z.of_nat (S j) - 1) =? NULL) eqn:E; zbool; [done|].
    replace (Z.of_nat (S j) - 1 - 1) with (Z.of_nat j - 1) by lia.
    rewrite (IH j) by lia. cbn.
    destruct (node_at_in ns (Z.of_nat (S j) - 1)) as (a & Ha & ->); [lia|].
    replace (Z.to_nat (Z.of_nat (S j) - 1)) with j in Ha by lia.
    by rewrite (take_S_r _ _ _ Ha), reverse_app.
Qed.

(** X20: iterating over a list.  From the head, the loop
    [while ((node = listNext(iter)) != NULL)] sees every node once, from the
    first to the last, and from the tail every node once in the opposite
    order; this holds for the iterator [listGetIterator] returns, which takes
    every direction other than [AL_START_HEAD] for backwards, and for one
    reset with [listRewind] or [listRewindTail].  [listGetIterator] returns
    [NULL] when the allocation fails. *)
Theorem list_iteration h l ns fuel dir li :
  is_list h l ns -> (length ns < fuel)%nat ->
  listGetIterator l dir false = None /\
  (exists iter, listGetIterator l dir true = Some iter /\
     visit h fuel iter = Some (if dir =? AL_START_HEAD then ns else reverse ns)) /\
  visit h fuel (listRewind l li) = Some ns /\
  visit h fuel (listRewindTail l li) = Some (reverse ns).
Proof.
  intros Hl Hf. pose proof Hl as (Hlen & Hhead & Htail & _).
  assert (visit h fuel (mkIter (head l) AL_START_HEAD) = Some ns) as Hfw.
  { rewrite Hhead. apply (visit_forward h l ns Hl fuel 0%nat); lia. }
  assert (forall d, d <> AL_START_HEAD ->
            visit h fuel (mkIter (tail l) d) = Some (reverse ns)) as Hbw.
  { intros d Hd. rewrite Htail, Hlen.
    rewrite (visit_backward h l ns d Hl Hd fuel (length ns)) by lia.
    by rewrite firstn_all. }
  split; [done|]. split; [|split].
  - eexists. split; [done|].
    destruct (dir =? AL_START_HEAD) eqn:E; zbool; [by subst dir|by apply Hbw].
  - exact Hfw.
  - by apply Hbw.
Qed.

Lemma list_iteration_witness :
  is_list (<[5 := mkNode NULL 7 50]> (<[7 := mkNode 5 NULL 70]> ∅))
          (mkList 5 7 NULL NULL NULL 2) [5; 7] /\
  visit (<[5 := mkNode NULL 7 50]> (<[7 := mkNode 5 NULL 70]> ∅)) 3
        (listRewindTail (mkList 5 7 NULL NULL NULL 2) (mkIter NULL 0)) = Some [7; 5].
Proof.
  assert (is_list (<[5 := mkNode NULL 7 50]> (<[7 := mkNode 5 NULL 70]> ∅))
            (mkList 5 7 NULL NULL NULL 2) [5; 7]) as Hl.
  { repeat split; try done.
    - destruct i as [|[|i]]; [| |done]; injection H as <-; done.
    - destruct i as [|[|i]]; [| |done]; injection H as <-; eexists; by vm_compute. }
  split; [exact Hl|].
  apply (list_iteration _ _ _ 3%nat 0 (mkIter NULL 0) Hl). simpl. lia.
Defined.


(** *** Deleting while iterating *)

Lemma omap_values_ext (h h' : heap) (ns : list Z) :
  (forall a, a ∈ ns -> listNodeValue h' a = listNodeValue h a) ->
  omap (listNodeValue h') ns = omap (listNodeValue h) ns.
Proof.
  induction ns as [|a ns IH]; intros H; [done|].
  cbn [omap list_omap]. rewrite H by left. rewrite IH; [done|].
  intros b Hb. apply H. by right.
Qed.

Lemma drain_list ns : forall h l fuel,
  is_list h l ns -> len l <= ULONG_MODULUS -> (length ns < fuel)%nat ->
  exists h' l',
    drain h l fuel (mkIter (head l) AL_START_HEAD)
    = Some (h', l', if free l =? NULL then [] else omap (listNodeValue h) ns) /\
    is_list h' l' [] /\
    (forall a, a ∈ ns -> h' !! a = None) /\
    (forall a, a ∉ ns -> h' !! a = h !! a).
Proof.
  induction ns as [|a ns IH]; intros h l fuel Hl Hmax Hf;
    (destruct fuel as [|fuel]; [simpl in Hf; lia|]);
    pose proof Hl as (Hlen & Hhead & Htail & _); cbn [drain].
  - rewrite listNext_end by (by rewrite Hhead). cbn.
    exists h, l. split; [by destruct (free l =? NULL)|]. split; [done|].
    split; [|done]. intros a Ha. by apply elem_of_nil in Ha.
  - destruct (listNext_node h l (a :: ns) (mkIter (head l) AL_START_HEAD) 0 Hl)
      as (-> & Hnz); [simpl; lia|done|].
    change (node_at (a :: ns) 0) with a in *.
    cbn [mbind option_bind direction]. change (AL_START_HEAD =? AL_START_HEAD) with true.
    cbn iota. destruct (a =? NULL) eqn:E; zbool; [done|].
    destruct (listDelNode_is_list h l (a :: ns) 0 a Hl) as
      (h1 & l1 & nd & Hnd & -> & Hl1 & Hgone & Hval & Hout & _ & Hfree & _);
      [done|done|].
    cbn [delete list_delete] in Hl1.
    pose proof Hl1 as (Hlen1 & Hhead1 & _).
    cbn [mbind option_bind].
    rewrite (node_at_cons_S ns a 0) by lia. rewrite <- Hhead1.
    destruct (IH h1 l1 fuel Hl1) as (h2 & l2 & -> & Hl2 & Hgone2 & Hout2).
    { simpl length in Hlen. lia. }
    { simpl in Hf. lia. }
    pose proof (is_list_NoDup _ _ _ Hl) as Hnd'. apply NoDup_cons in Hnd' as (Hna & _).
    cbn [mbind option_bind]. exists h2, l2. rewrite Hfree.
    split; [|split; [done|split]].
    + destruct (free l =? NULL); [done|].
      cbn [omap list_omap]. unfold listNodeValue at 2. rewrite Hnd. cbn.
      do 3 f_equal. apply omap_values_ext. intros b Hb. apply Hval. by intros ->.
    + intros b [->|Hb]%elem_of_cons; [|by apply Hgone2].
      by rewrite Hout2.
    + intros b Hb. apply not_elem_of_cons in Hb as (Hba & Hb).
      rewrite Hout2 by done. apply Hout. by apply not_elem_of_cons.
Qed.

(** X18: [listDelNode] takes one node out of a list.  The node at position
    [i] of a list of at most 2^64 nodes is deleted: what is left is the list
    of the other nodes in their order, one shorter; the cell of the node is
    given back; the values of the other nodes stay; and the value of the node
    is handed to the [free] method when the list has one. *)
Theorem listDelNode_spec h l ns (i : nat) node :
  is_list h l ns -> ns !! i = Some node -> len l <= ULONG_MODULUS ->
  exists h' l' nd,
    h !! node = Some nd /\
    listDelNode h l node = Some (h', l', if free l =? NULL then [] else [value nd]) /\
    is_list h' l' (delete i ns) /\ len l' = len l - 1 /\
    h' !! node = None /\
    (forall a, a <> node -> listNodeValue h' a = listNodeValue h a).
Proof.
  intros Hl Hi Hmax.
  destruct (listDelNode_is_list h l ns i node Hl Hi Hmax) as
    (h' & l' & nd & Hnd & Hdel & Hl' & Hgone & Hval & _).
  exists h', l', nd. do 3 (split; [done|]). split; [|by split].
  destruct Hl as (Hlen & _), Hl' as (Hlen' & _).
  rewrite Hlen', Hlen, length_delete by eauto.
  apply lookup_lt_Some in Hi. lia.
Qed.

(** X21: deleting the node just returned by [listNext].  A loop that walks a
    list from its head and calls [listDelNode] on every node it gets ends
    with the empty list: every cell of the list is given back, the memory
    outside of the list is as before, and the [free] method, when there is
    one, has got the values in the order of the list. *)
Theorem drain_spec h l ns fuel li :
  is_list h l ns -> len l <= ULONG_MODULUS -> (length ns < fuel)%nat ->
  exists h' l',
    drain h l fuel (listRewind l li)
    = Some (h', l', if free l =? NULL then [] else omap (listNodeValue h) ns) /\
    is_list h' l' [] /\ len l' = 0 /\
    (forall a, a ∈ ns -> h' !! a = None) /\
    (forall a, a ∉ ns -> h' !! a = h !! a).
Proof.
  intros Hl Hmax Hf.
  destruct (drain_list ns h l fuel Hl Hmax Hf) as (h' & l' & Hd & Hl' & Hin & Hout).
  exists h', l'. repeat split; try done; apply Hl'.
Qed.


Lemma sample_is_list : is_list sample_heap sample_list [3; 5; 7].
Proof.
  repeat split; try done.
  - destruct i as [|[|[|i]]]; [| | |done]; injection H as <-; done.
  - destruct i as [|[|[|i]]]; [| | |done]; injection H as <-; eexists; by vm_compute.
Qed.

Lemma listDelNode_spec_witness :
  exists h' l' nd,
    sample_heap !! 5 = Some nd /\
    listDelNode sample_heap sample_list 5
    = Some (h', l', if free sample_list =? NULL then [] else [value nd]) /\
    is_list h' l' [3; 7] /\ len l' = 2 /\
    h' !! 5 = None /\
    (forall a, a <> 5 -> listNodeValue h' a = listNodeValue sample_heap a).
Proof.
  apply (listDelNode_spec sample_heap sample_list [3; 5; 7] 1 5).
  - apply sample_is_list.
  - reflexivity.
  - by vm_compute.
Defined.

Lemma drain_spec_witness :
  exists h' l',
    drain sample_heap sample_list 4 (listRewind sample_list (mkIter NULL 0))
    = Some (h', l', [30; 50; 70]) /\
    is_list h' l' [] /\ len l' = 0 /\
    (forall a, a ∈ [3; 5; 7] -> h' !! a = None) /\
    (forall a, a ∉ [3; 5; 7] -> h' !! a = sample_heap !! a).
Proof.
  apply (drain_spec sample_heap sample_list [3; 5; 7] 4 (mkIter NULL 0)).
  - apply sample_is_list.
  - by vm_compute.
  - simpl. lia.
Defined.

(** *** [listRotate] *)

Lemma lookup_store h p f h' :
  store h p f = Some h' ->
  forall a, h' !! a = if decide (a = p) then f <$> h !! a else h !! a.
Proof.
  unfold store. destruct (h !! p) as [nd|] eqn:E; [|done]. intros [= <-] a.
  destruct (decide (a = p)) as [->|Hne].
  - by rewrite lookup_insert_eq, E.
  - by rewrite lookup_insert_ne.
Qed.

Lemma store_is_Some h p f : is_Some (h !! p) -> is_Some (store h p f).
Proof. intros [nd H]. unfold store. rewrite H. eauto. Qed.


Lemma store_keeps_Some h p f h' a :
  store h p f = Some h' -> is_Some (h !! a) -> is_Some (h' !! a).
Proof.
  intros S [nd H]. rewrite (lookup_store _ _ _ _ S), H.
  destruct (decide (a = p)); eauto.
Qed.

Lemma node_at_rotate ns0 t m :
  node_at (t :: ns0) m
  = if m =? 0 then t
    else if m <=? Z.of_nat (length ns0) then node_at (ns0 ++ [t]) (m - 1) else NULL.
Proof.
  destruct (m =? 0) eqn:E0; zbool; [by subst m|].
  destruct (m <=? Z.of_nat (length ns0)) eqn:E1; zbool.
  - destruct (Z_lt_ge_dec m 0) as [Hneg|Hpos].
    + by rewrite !node_at_neg by lia.
    + rewrite node_at_app_l by lia.
      replace m with ((m - 1) + 1) at 1 by lia. apply node_at_cons_S. lia.
  - apply node_at_out. right. simpl length. lia.
Qed.

Lemma listRotate_is_list h l ns0 t :
  is_list h l (ns0 ++ [t]) ->
  exists h' l',
    listRotate h l = Some (h', l') /\
    is_list h' l' (t :: ns0) /\
    (forall a, listNodeValue h' a = listNodeValue h a) /\
    (forall a, a ∉ ns0 ++ [t] -> h' !! a = h !! a).
Proof.
  remember (ns0 ++ [t]) as ns eqn:Hns.
  intros Hl. pose proof Hl as (Hlen & Hhead & Htail & _).
  assert (Z.of_nat (length ns) = Z.of_nat (length ns0) + 1) as Hn.
  { rewrite Hns, length_app. simpl. lia. }
  assert (node_at ns (Z.of_nat (length ns0)) = t) as Ht.
  { rewrite Hns. apply node_at_app_last. }
  unfold listRotate, listLength.
  destruct (len l <=? 1) eqn:E; zbool.
  { destruct ns0 as [|x ns1]; [|simpl length in Hn; lia].
    subst ns. exists h, l. split; [done|]. split; [exact Hl|]. by split. }
  assert (1 <= Z.of_nat (length ns0)) as Hn0 by lia.
  replace (len l - 1) with (Z.of_nat (length ns0)) in Htail by lia.
  rewrite Ht in Htail.
  destruct (is_list_node h l ns Hl (Z.of_nat (length ns0))) as
    (Htz & ndt & Hndt & Htnext & Htprev); [lia|]. rewrite Ht in Htz, Hndt.
  rewrite Htail, Hndt. cbn [mbind option_bind tail head set_tail].
  rewrite Htprev, Hhead.
  assert (forall j, 0 <= j < Z.of_nat (length ns) -> is_Some (h !! node_at ns j)) as Hsome.
  { intros j Hj. destruct (is_list_node h l ns Hl j Hj) as (_ & nd & -> & _). eauto. }
  destruct (store h (node_at ns (Z.of_nat (length ns0) - 1)) (set_next NULL))
    as [h1|] eqn:S1.
  2: { destruct (store_is_Some h (node_at ns (Z.of_nat (length ns0) - 1)) (set_next NULL))
         as [? ?]; [apply Hsome; lia|congruence]. }
  cbn [mbind option_bind].
  destruct (store h1 (node_at ns 0) (set_prev t)) as [h2|] eqn:S2.
  2: { destruct (store_is_Some h1 (node_at ns 0) (set_prev t)) as [? ?]; [|congruence].
       eapply store_keeps_Some; [done|]. apply Hsome; lia. }
  cbn [mbind option_bind].
  destruct (store h2 t (set_prev NULL)) as [h3|] eqn:S3.
  2: { destruct (store_is_Some h2 t (set_prev NULL)) as [? ?]; [|congruence].
       do 2 (eapply store_keeps_Some; [done|]). rewrite Hndt. eauto. }
  cbn [mbind option_bind].
  destruct (store h3 t (set_next (node_at ns 0))) as [h4|] eqn:S4.
  2: { destruct (store_is_Some h3 t (set_next (node_at ns 0))) as [? ?]; [|congruence].
       do 3 (eapply store_keeps_Some; [done|]). rewrite Hndt. eauto. }
  cbn [mbind option_bind].
  pose proof (lookup_store _ _ _ _ S1) as L1. pose proof (lookup_store _ _ _ _ S2) as L2.
  pose proof (lookup_store _ _ _ _ S3) as L3. pose proof (lookup_store _ _ _ _ S4) as L4.
  assert (forall a, h4 !! a =
            (if decide (a = t) then set_next (node_at ns 0) <$> (set_prev NULL <$> h !! a)
             else if decide (a = node_at ns 0) then
                    set_prev t <$> (if decide (a = node_at ns (Z.of_nat (length ns0) - 1))
                                    then set_next NULL <$> h !! a else h !! a)
             else if decide (a = node_at ns (Z.of_nat (length ns0) - 1))
                  then set_next NULL <$> h !! a else h !! a)) as L.
  { intros a. rewrite L4, L3, L2, L1.
    assert (t <> node_at ns 0) as Ht0.
    { rewrite <- Ht. intros Heq. apply (is_list_inj h l ns Hl) in Heq; lia. }
    assert (t <> node_at ns (Z.of_nat (length ns0) - 1)) as Ht1.
    { rewrite <- Ht at 1. intros Heq. apply (is_list_inj h l ns Hl) in Heq; lia. }
    destruct (decide (a = t)) as [->|Hat].
    - rewrite !decide_False by done. done.
    - done. }
  eexists _, _. split; [done|]. split; [|split].
  - apply is_list_intro; cbn [len head tail set_head set_tail].
    + simpl length. lia.
    + done.
    + rewrite node_at_rotate, Hlen, <- Hns.
      destruct (Z.of_nat (length ns) - 1 =? 0) eqn:E1; zbool; [lia|].
      destruct (Z.of_nat (length ns) - 1 <=? Z.of_nat (length ns0)) eqn:E2; zbool; [|lia].
      f_equal. lia.
    + intros k Hk. simpl length in Hk. rewrite !node_at_rotate, <- Hns.
      destruct (k =? 0) eqn:E0; zbool.
      * subst k. split; [done|]. rewrite L, decide_True by done. rewrite Hndt.
        eexists. split; [done|]. cbn [next prev set_next set_prev].
        change (0 + 1 - 1) with 0. change (0 + 1 =? 0) with false.
        change (0 - 1 =? 0) with false. cbn iota. split.
        { destruct (0 + 1 <=? Z.of_nat (length ns0)) eqn:E1; zbool; [done|lia]. }
        destruct (0 - 1 <=? Z.of_nat (length ns0)); [|done].
        symmetry. by apply node_at_neg.
      * destruct (k <=? Z.of_nat (length ns0)) eqn:E1; zbool; [|lia].
        destruct (is_list_node h l ns Hl (k - 1)) as (Hnz & nd & Hnd & Hnext & Hprev);
          [lia|]. split; [done|].
        rewrite L. rewrite decide_False.
        2: { rewrite <- Ht. intros Heq. apply (is_list_inj h l ns Hl) in Heq; lia. }
        rewrite Hnd.
        destruct (decide (node_at ns (k - 1) = node_at ns 0)) as [e0|e0];
          destruct (decide (node_at ns (k - 1) = node_at ns (Z.of_nat (length ns0) - 1)))
            as [e1|e1];
          try (apply (is_list_inj h l ns Hl) in e0; [|lia..]);
          try (apply (is_list_inj h l ns Hl) in e1; [|lia..]);
          (eexists; split; [done|]);
          cbn [next prev set_next set_prev]; rewrite ?Hnext, ?Hprev;
          destruct (k + 1 =? 0) eqn:E2, (k + 1 <=? Z.of_nat (length ns0)) eqn:E3,
            (k - 1 =? 0) eqn:E4, (k - 1 <=? Z.of_nat (length ns0)) eqn:E5; zbool;
          try lia;
          split;
          first [ done | f_equal; lia
                | exfalso; apply e0; f_equal; lia
                | exfalso; apply e1; f_equal; lia ].
  - intros a. unfold listNodeValue. rewrite L.
    repeat destruct (decide _); by destruct (h !! a).
  - intros a Ha. rewrite L.
    assert (forall j, 0 <= j < Z.of_nat (length ns) -> a <> node_at ns j) as Hout.
    { intros j Hj ->. apply Ha.
      destruct (node_at_in ns j Hj) as (b & Hb & ->). by eapply list_elem_of_lookup_2. }
    rewrite !decide_False; [done|apply Hout; lia..| rewrite <- Ht; apply Hout; lia].
Qed.

(** X19: [listRotate] moves the last node to the front.  A list of at most
    one node is left as it is; of a longer list the last node becomes the
    first one and the others follow in their order.  No value changes and no
    cell outside of the list is written. *)
Theorem listRotate_spec h l ns :
  is_list h l ns ->
  (len l <= 1 -> listRotate h l = Some (h, l)) /\
  (forall ns0 t, ns = ns0 ++ [t] ->
     exists h' l',
       listRotate h l = Some (h', l') /\
       is_list h' l' (t :: ns0) /\ len l' = len l /\
       (forall a, listNodeValue h' a = listNodeValue h a) /\
       (forall a, a ∉ ns -> h' !! a = h !! a)).
Proof.
  intros Hl. split.
  - intros Hle. unfold listRotate, listLength.
    destruct (len l <=? 1) eqn:E; zbool; [done|lia].
  - intros ns0 t ->.
    destruct (listRotate_is_list h l ns0 t Hl) as (h' & l' & Hr & Hl' & Hv & Hout).
    exists h', l'. do 2 (split; [done|]). split; [|by split].
    destruct Hl as (Hlen & _), Hl' as (Hlen' & _).
    rewrite Hlen, Hlen', length_app. simpl. lia.
Qed.

Lemma listRotate_spec_witness :
  exists h' l',
    listRotate sample_heap sample_list = Some (h', l') /\
    is_list h' l' [7; 3; 5] /\ len l' = 3 /\
    (forall a, listNodeValue h' a = listNodeValue sample_heap a) /\
    (forall a, a ∉ [3; 5; 7] -> h' !! a = sample_heap !! a).
Proof.
  exact (proj2 (listRotate_spec sample_heap sample_list [3; 5; 7] sample_is_list)
           [3; 5] 7 eq_refl).
Defined.




(** *** [listInsertNode] *)

Lemma lookup_store_opt h p f h' :
  (if p =? NULL then Some h else store h p f) = Some h' ->
  forall a, a <> NULL -> h' !! a = if decide (a = p) then f <$> h !! a else h !! a.
Proof.
  intros H a Ha. destruct (p =? NULL) eqn:E; zbool.
  - injection H as <-. by rewrite decide_False by congruence.
  - by apply lookup_store.
Qed.

Lemma lookup_store_opt_NULL h p f h' :
  (if p =? NULL then Some h else store h p f) = Some h' -> h' !! NULL = h !! NULL.
Proof.
  intros H. destruct (p =? NULL) eqn:E; zbool.
  - by injection H as <-.
  - rewrite (lookup_store _ _ _ _ H). by rewrite decide_False by congruence.
Qed.

Lemma insert_link h l l' ns (j : nat) node nd :
  is_list h l ns -> (j <= length ns)%nat -> node <> NULL -> h !! node = None ->
  prev nd = node_at ns (Z.of_nat j - 1) -> next nd = node_at ns (Z.of_nat j) ->
  len l' = len l + 1 ->
  head l' = (if Z.of_nat j =? 0 then node else head l) ->
  tail l' = (if Z.of_nat j =? len l then node else tail l) ->
  exists h3,
    (n1 ← <[node := nd]> h !! node;
     h2 ← (if prev n1 =? NULL then Some (<[node := nd]> h)
           else store (<[node := nd]> h) (prev n1) (set_next node));
     n2 ← h2 !! node;
     h3 ← (if next n2 =? NULL then Some h2 else store h2 (next n2) (set_prev node));
     Some (h3, l')) = Some (h3, l') /\
    is_list h3 l' (take j ns ++ node :: drop j ns) /\
    h3 !! node = Some nd /\
    (forall a, a <> node -> listNodeValue h3 a = listNodeValue h a) /\
    (forall a, a ∉ ns -> a <> node -> h3 !! a = h !! a).
Proof.
  intros Hl Hj Hnz Hfresh Hprev Hnext Hlen' Hhead' Htail'.
  pose proof Hl as (Hlen & Hhead & Htail & _).
  assert (forall k, 0 <= k < Z.of_nat (length ns) -> node_at ns k <> node) as Hnew.
  { intros k Hk Heq. destruct (is_list_node h l ns Hl k Hk) as (_ & nd0 & Hnd0 & _).
    rewrite Heq in Hnd0. congruence. }
  assert (forall k, 0 <= k < Z.of_nat (length ns) -> is_Some (h !! node_at ns k)) as Hsome.
  { intros k Hk. destruct (is_list_node h l ns Hl k Hk) as (_ & nd0 & -> & _). eauto. }
  rewrite lookup_insert_eq. cbn [mbind option_bind]. rewrite Hprev.
  set (h1 := <[node := nd]> h).
  destruct (if node_at ns (Z.of_nat j - 1) =? NULL then Some h1
            else store h1 (node_at ns (Z.of_nat j - 1)) (set_next node))
    as [h2|] eqn:S2.
  2: { destruct (node_at ns (Z.of_nat j - 1) =? NULL) eqn:E; [done|]. zbool.
       destruct (store_is_Some h1 (node_at ns (Z.of_nat j - 1)) (set_next node))
         as [? ?]; [|congruence].
       destruct (decide (j = 0%nat)) as [->|]; [by rewrite node_at_neg in E|].
       unfold h1. rewrite lookup_insert_ne by (apply not_eq_sym, Hnew; lia).
       apply Hsome. lia. }
  pose proof (lookup_store_opt _ _ _ _ S2) as L2.
  cbn [mbind option_bind].
  assert (h2 !! node = Some nd) as Hn2.
  { rewrite L2 by done. unfold h1. rewrite lookup_insert_eq.
    destruct (decide (node = node_at ns (Z.of_nat j - 1))) as [e|e]; [|done].
    exfalso. destruct (decide (j = 0%nat)) as [->|].
    - rewrite node_at_neg in e by lia. done.
    - symmetry in e. revert e. apply Hnew. lia. }
  rewrite Hn2. cbn [mbind option_bind]. rewrite Hnext.
  destruct (if node_at ns (Z.of_nat j) =? NULL then Some h2
            else store h2 (node_at ns (Z.of_nat j)) (set_prev node))
    as [h3|] eqn:S3.
  2: { destruct (node_at ns (Z.of_nat j) =? NULL) eqn:E; [done|]. zbool.
       destruct (store_is_Some h2 (node_at ns (Z.of_nat j)) (set_prev node))
         as [? ?]; [|congruence].
       destruct (decide (j = length ns)) as [->|]; [by rewrite node_at_out in E by lia|].
       assert (is_Some (h1 !! node_at ns (Z.of_nat j))) as [x Hx].
       { unfold h1. rewrite lookup_insert_ne by (apply not_eq_sym, Hnew; lia).
         apply Hsome. lia. }
       rewrite L2, Hx by (intros e; by rewrite e in E).
       destruct (decide _); eauto. }
  pose proof (lookup_store_opt _ _ _ _ S3) as L3.
  cbn [mbind option_bind].
  assert (forall a, a <> NULL -> h3 !! a =
            if decide (a = node) then Some nd
            else if decide (a = node_at ns (Z.of_nat j)) then set_prev node <$> h !! a
            else if decide (a = node_at ns (Z.of_nat j - 1)) then set_next node <$> h !! a
            else h !! a) as L.
  { intros a Ha. rewrite L3, L2 by done. unfold h1.
    destruct (decide (a = node)) as [->|Han].
    - rewrite lookup_insert_eq.
      rewrite decide_False.
      2: { intros e. destruct (decide (j = length ns)) as [->|].
           - rewrite node_at_out in e by lia. done.
           - symmetry in e. revert e. apply Hnew. lia. }
      rewrite decide_False; [done|].
      intros e. destruct (decide (j = 0%nat)) as [->|].
      + rewrite node_at_neg in e by lia. done.
      + symmetry in e. revert e. apply Hnew. lia.
    - rewrite lookup_insert_ne by done.
      destruct (decide (a = node_at ns (Z.of_nat j))) as [e1|e1]; [|done].
      rewrite decide_False; [done|].
      rewrite e1. intros e. 
      destruct (decide (j = length ns)) as [->|].
      { rewrite node_at_out in e1 by lia. done. }
      destruct (decide (j = 0%nat)) as [->|].
      { rewrite (node_at_neg ns (Z.of_nat 0 - 1)) in e by lia. congruence. }
      apply (is_list_inj h l ns Hl) in e; lia. }
  assert (h3 !! NULL = h !! NULL) as HL0.
  { rewrite (lookup_store_opt_NULL _ _ _ _ S3), (lookup_store_opt_NULL _ _ _ _ S2).
    unfold h1. by rewrite lookup_insert_ne. }
  exists h3. split; [done|]. split; [|split; [|split]].
  - apply is_list_intro.
    + rewrite length_app, length_take. simpl length. rewrite length_drop. lia.
    + rewrite Hhead', node_at_insert by done.
      destruct (Z.of_nat j =? 0) eqn:E; zbool.
      * by destruct (0 <? Z.of_nat j) eqn:E1; zbool; [lia|]; rewrite <- E, Z.eqb_refl.
      * destruct (0 <? Z.of_nat j) eqn:E1; zbool; [done|lia].
    + rewrite Htail', node_at_insert, Hlen', Htail by done.
      replace (len l + 1 - 1) with (len l) by lia.
      destruct (Z.of_nat j =? len l) eqn:E; zbool.
      * destruct (len l <? Z.of_nat j) eqn:E1; zbool; [lia|].
        by rewrite E, Z.eqb_refl.
      * destruct (len l <? Z.of_nat j) eqn:E1; zbool; [lia|].
        destruct (len l =? Z.of_nat j) eqn:E2; zbool; [lia|]. done.
    + intros k Hk. rewrite length_app, length_take in Hk. simpl length in Hk.
      rewrite length_drop in Hk. rewrite !node_at_insert by done.
      destruct (Z.compare_spec k (Z.of_nat j)) as [Hkj|Hkj|Hkj].
      * subst k. rewrite Z.ltb_irrefl, Z.eqb_refl. split; [done|].
        rewrite L, decide_True by done. exists nd. split; [done|].
        rewrite Hnext, Hprev.
        destruct (Z.of_nat j + 1 <? Z.of_nat j) eqn:E1; zbool; [lia|].
        destruct (Z.of_nat j + 1 =? Z.of_nat j) eqn:E2; zbool; [lia|].
        destruct (Z.of_nat j - 1 <? Z.of_nat j) eqn:E3; zbool; [|lia].
        split; [f_equal; lia|done].
      * destruct (k <? Z.of_nat j) eqn:E1; zbool; [|lia].
        destruct (is_list_node h l ns Hl k) as (Hkz & nd0 & Hnd0 & Hn0 & Hp0); [lia|].
        split; [done|]. rewrite L by done.
        rewrite decide_False by (apply Hnew; lia).
        rewrite decide_False.
        2: { intros e. destruct (decide (j = length ns)) as [->|].
             - rewrite (node_at_out ns (Z.of_nat (length ns))) in e by lia. done.
             - apply (is_list_inj h l ns Hl) in e; lia. }
        rewrite Hnd0.
        destruct (decide (node_at ns k = node_at ns (Z.of_nat j - 1))) as [e|e].
        -- apply (is_list_inj h l ns Hl) in e; [|lia..].
           eexists. split; [done|]. cbn [next prev set_next].
           destruct (k + 1 <? Z.of_nat j) eqn:E2; zbool; [lia|].
           destruct (k + 1 =? Z.of_nat j) eqn:E3; zbool; [|lia].
           destruct (k - 1 <? Z.of_nat j) eqn:E4; zbool; [|lia]. done.
        -- exists nd0. split; [done|].
           destruct (k + 1 <? Z.of_nat j) eqn:E2; zbool.
           2: { exfalso. apply e. f_equal. lia. }
           destruct (k - 1 <? Z.of_nat j) eqn:E4; zbool; [|lia]. done.
      * destruct (k <? Z.of_nat j) eqn:E1; zbool; [lia|].
        destruct (k =? Z.of_nat j) eqn:E2; zbool; [lia|].
        destruct (is_list_node h l ns Hl (k - 1)) as (Hkz & nd0 & Hnd0 & Hn0 & Hp0); [lia|].
        split; [done|]. rewrite L by done.
        rewrite decide_False by (apply Hnew; lia).
        rewrite Hnd0.
        destruct (k + 1 <? Z.of_nat j) eqn:E3; zbool; [lia|].
        destruct (k + 1 =? Z.of_nat j) eqn:E4; zbool; [lia|].
        replace (k + 1 - 1) with (k - 1 + 1) by lia.
        destruct (decide (node_at ns (k - 1) = node_at ns (Z.of_nat j))) as [e|e].
        -- apply (is_list_inj h l ns Hl) in e; [|lia..].
           eexists. split; [done|]. cbn [next prev set_prev].
           destruct (k - 1 <? Z.of_nat j) eqn:E5; zbool; [lia|].
           destruct (k - 1 =? Z.of_nat j) eqn:E6; zbool; [|lia]. done.
        -- rewrite decide_False.
           2: { intros e'. destruct (decide (j = 0%nat)) as [->|].
                - rewrite (node_at_neg ns (Z.of_nat 0 - 1)) in e' by lia. done.
                - apply (is_list_inj h l ns Hl) in e'; lia. }
           exists nd0. split; [done|]. split; [done|].
           destruct (k - 1 <? Z.of_nat j) eqn:E5; zbool; [lia|].
           destruct (k - 1 =? Z.of_nat j) eqn:E6; zbool.
           { exfalso. apply e. f_equal. lia. }
           done.
  - rewrite L, decide_True by done. done.
  - intros a Ha. unfold listNodeValue.
    destruct (decide (a = NULL)) as [->|Haz].
    + rewrite HL0. done.
    + rewrite L, decide_False by done.
      repeat destruct (decide _); by destruct (h !! a).
  - intros a Ha Han. destruct (decide (a = NULL)) as [->|Haz]; [done|].
    assert (forall k, a <> node_at ns k) as Hout.
    { intros k ->. destruct (Z_lt_ge_dec k 0); [by rewrite node_at_neg in Haz|].
      destruct (Z_lt_ge_dec k (Z.of_nat (length ns))); [|by rewrite node_at_out in Haz by lia].
      apply Ha. destruct (node_at_in ns k) as (b & Hb & ->); [lia|].
      by eapply list_elem_of_lookup_2. }
    rewrite L by done. by rewrite !decide_False.
Qed.


(** X17: [listInsertNode] puts a new node next to a node of the list.  With
    a fresh cell the new node stands right after the node [old_node] when
    [after] is not 0, and right before it when [after] is 0; the other nodes
    keep their order and their values, the new node holds the value, and the
    list is one longer.  When the allocation fails the result is [NULL]. *)
Theorem listInsertNode_spec h l ns (i : nat) old_node node v after :
  is_list h l ns -> ns !! i = Some old_node ->
  node <> NULL -> h !! node = None -> len l + 1 < ULONG_MODULUS ->
  listInsertNode h l old_node NULL v after = None /\
  exists h' l',
    listInsertNode h l old_node node v after = Some (h', l') /\
    is_list h' l' (if after =? 0 then take i ns ++ node :: drop i ns
                   else take (S i) ns ++ node :: drop (S i) ns) /\
    len l' = len l + 1 /\
    listNodeValue h' node = Some v /\
    (forall a, a <> node -> listNodeValue h' a = listNodeValue h a).
Proof.
  intros Hl Hi Hnz Hfresh Hmax. split; [done|].
  pose proof Hl as (Hlen & Hhead & Htail & _).
  pose proof (lookup_lt_Some _ _ _ Hi) as Hlt.
  pose proof (node_at_lookup _ _ _ Hi) as Hold.
  destruct (is_list_node h l ns Hl (Z.of_nat i)) as (Hoz & ndo & Hndo & Hnext & Hprev);
    [lia|]. rewrite Hold in Hoz, Hndo.
  unfold listInsertNode. destruct (node =? NULL) eqn:E; zbool; [done|].
  rewrite Hndo. cbn [mbind option_bind].
  assert (0 <= len l) as Hpos by lia.
  destruct (after =? 0) eqn:Ea.
  - set (l1 := if head l =? old_node then set_head node l else l).
    assert (len l1 = len l) as Hlen1 by (unfold l1; by destruct (head l =? old_node)).
    destruct (insert_link h l (set_len ((len l1 + 1) mod ULONG_MODULUS) l1) ns i node
                (mkNode (prev ndo) old_node v) Hl) as (h3 & Heq & Hl3 & Hn3 & Hv3 & _);
      try done; try lia.
    + cbn [len set_len]. rewrite Hlen1. apply Z.mod_small. lia.
    + cbn [head set_len]. unfold l1. rewrite Hhead, <- Hold.
      destruct (node_at ns 0 =? node_at ns (Z.of_nat i)) eqn:E1,
               (Z.of_nat i =? 0) eqn:E2; zbool; try done.
      * apply (is_list_inj h l ns Hl) in E1; lia.
      * exfalso. apply E1. by rewrite E2.
    + cbn [tail set_len]. unfold l1.
      destruct (Z.of_nat i =? len l) eqn:E2; zbool; [lia|].
      by destruct (head l =? old_node).
    + exists h3, (set_len ((len l1 + 1) mod ULONG_MODULUS) l1).
      split; [exact Heq|]. split; [done|]. split; [|split; [|done]].
      * cbn [len set_len]. rewrite Hlen1. apply Z.mod_small. lia.
      * unfold listNodeValue. by rewrite Hn3.
  - set (l1 := if tail l =? old_node then set_tail node l else l).
    assert (len l1 = len l) as Hlen1 by (unfold l1; by destruct (tail l =? old_node)).
    destruct (insert_link h l (set_len ((len l1 + 1) mod ULONG_MODULUS) l1) ns (S i) node
                (mkNode old_node (next ndo) v) Hl) as (h3 & Heq & Hl3 & Hn3 & Hv3 & _);
      try done; try lia.
    + cbn [prev]. rewrite <- Hold. f_equal. lia.
    + cbn [next]. rewrite Hnext. f_equal. lia.
    + cbn [len set_len]. rewrite Hlen1. apply Z.mod_small. lia.
    + cbn [head set_len]. unfold l1.
      destruct (Z.of_nat (S i) =? 0) eqn:E2; zbool; [lia|].
      by destruct (tail l =? old_node).
    + cbn [tail set_len]. unfold l1. rewrite Htail, <- Hold.
      destruct (node_at ns (len l - 1) =? node_at ns (Z.of_nat i)) eqn:E1,
               (Z.of_nat (S i) =? len l) eqn:E2; zbool; try done.
      * apply (is_list_inj h l ns Hl) in E1; lia.
      * exfalso. apply E1. f_equal. lia.
    + exists h3, (set_len ((len l1 + 1) mod ULONG_MODULUS) l1).
      split; [exact Heq|]. split; [done|]. split; [|split; [|done]].
      * cbn [len set_len]. rewrite Hlen1. apply Z.mod_small. lia.
      * unfold listNodeValue. by rewrite Hn3.
Qed.

Lemma listInsertNode_spec_witness :
  listInsertNode sample_heap sample_list 5 NULL 60 1 = None /\
  exists h' l',
    listInsertNode sample_heap sample_list 5 6 60 1 = Some (h', l') /\
    is_list h' l' [3; 5; 6; 7] /\
    len l' = 4 /\
    listNodeValue h' 6 = Some 60 /\
    (forall a, a <> 6 -> listNodeValue h' a = listNodeValue sample_heap a).
Proof.
  apply (listInsertNode_spec sample_heap sample_list [3; 5; 7] 1 5 6 60 1).
  - apply sample_is_list.
  - reflexivity.
  - done.
  - reflexivity.
  - by vm_compute.
Defined.


(** *** [listRelease] *)

Lemma release_chain fr : forall (ns : list Z) (h : heap) freed,
  NoDup ns ->
  (forall (i : nat) a, ns !! i = Some a ->
     exists nd, h !! a = Some nd /\ next nd = node_at ns (Z.of_nat i + 1)) ->
  exists h',
    release_loop h fr (length ns) (node_at ns 0) freed
    = Some (h', freed ++ if fr =? NULL then [] else omap (listNodeValue h) ns) /\
    (forall a, a ∈ ns -> h' !! a = None) /\
    (forall a, a ∉ ns -> h' !! a = h !! a).
Proof.
  induction ns as [|a ns IH]; intros h freed Hnd Hchain.
  - exists h. cbn. split; [|split; [|done]].
    + destruct (fr =? NULL); by rewrite app_nil_r.
    + intros a Ha. by apply elem_of_nil in Ha.
  - apply NoDup_cons in Hnd as (Hna & Hnd).
    destruct (Hchain 0%nat a eq_refl) as (nd & Ha & Hnext).
    cbn [length release_loop]. change (node_at (a :: ns) 0) with a.
    rewrite Ha. cbn [mbind option_bind]. rewrite Hnext.
    rewrite (node_at_cons_S ns a (Z.of_nat 0)) by lia. change (Z.of_nat 0) with 0.
    destruct (IH (delete a h) (if fr =? NULL then freed else freed ++ [value nd]) Hnd)
      as (h' & -> & Hin & Hout).
    { intros i b Hb. destruct (Hchain (S i) b Hb) as (ndb & Hndb & Hnb).
      exists ndb. split.
      - rewrite lookup_delete_ne; [done|]. intros <-. apply Hna.
        by eapply list_elem_of_lookup_2.
      - rewrite Hnb. replace (Z.of_nat (S i) + 1) with ((Z.of_nat i + 1) + 1) by lia.
        apply node_at_cons_S. lia. }
    exists h'. split; [|split].
    + f_equal. f_equal. destruct (fr =? NULL); [done|].
      cbn [omap list_omap]. unfold listNodeValue at 2. rewrite Ha. cbn.
      rewrite <- app_assoc. cbn. do 2 f_equal.
      apply omap_values_ext. intros b Hb. unfold listNodeValue.
      rewrite lookup_delete_ne; [done|]. by intros <-.
    + intros b [->|Hb]%elem_of_cons; [|by apply Hin].
      by rewrite Hout, lookup_delete_eq.
    + intros b Hb. apply not_elem_of_cons in Hb as (Hba & Hb).
      by rewrite Hout, lookup_delete_ne.
Qed.

Lemma listRelease_list h l ns :
  is_list h l ns ->
  exists h',
    listRelease h l
    = Some (h', if free l =? NULL then [] else omap (listNodeValue h) ns) /\
    (forall a, a ∈ ns -> h' !! a = None) /\
    (forall a, a ∉ ns -> h' !! a = h !! a).
Proof.
  intros Hl. pose proof Hl as (Hlen & Hhead & _ & Hn).
  unfold listRelease. rewrite Hlen, Nat2Z.id, Hhead.
  apply (release_chain (free l) ns h []).
  - by eapply is_list_NoDup.
  - intros i a Hi. destruct (Hn i a Hi) as (_ & nd & ? & ? & _). eauto.
Qed.

(** X23: [listRelease] gives back every cell of the list and nothing else,
    and hands the value of every node, from the first to the last, to the
    [free] method when the list has one. *)
Theorem listRelease_spec h l ns :
  is_list h l ns ->
  exists h',
    listRelease h l
    = Some (h', if free l =? NULL then [] else omap (listNodeValue h) ns) /\
    (forall a, a ∈ ns -> h' !! a = None) /\
    (forall a, a ∉ ns -> h' !! a = h !! a).
Proof. apply listRelease_list. Qed.

Lemma listRelease_spec_witness :
  exists h',
    listRelease sample_heap sample_list = Some (h', [30; 50; 70]) /\
    (forall a, a ∈ [3; 5; 7] -> h' !! a = None) /\
    (forall a, a ∉ [3; 5; 7] -> h' !! a = sample_heap !! a).
Proof.
  apply (listRelease_spec sample_heap sample_list [3; 5; 7]). apply sample_is_list.
Defined.

(** *** [listSearchKey] *)

Section SearchFacts.

Variable match_run : Z -> Z -> Z -> Z.

Lemma search_loop_spec h l ns key :
  is_list h l ns ->
  forall fuel (j : nat), (j <= length ns)%nat -> (length ns - j < fuel)%nat ->
  exists r,
    search_loop match_run h l key fuel (mkIter (node_at ns (Z.of_nat j)) AL_START_HEAD)
    = Some r /\
    ((r = NULL /\
      forall (k : nat) a nd, (j <= k)%nat -> ns !! k = Some a -> h !! a = Some nd ->
        matches match_run l key (value nd) = false) \/
     (exists (i : nat) nd,
        (j <= i)%nat /\ ns !! i = Some r /\ h !! r = Some nd /\
        matches match_run l key (value nd) = true /\
        forall (k : nat) a nda, (j <= k < i)%nat -> ns !! k = Some a -> h !! a = Some nda ->
          matches match_run l key (value nda) = false)).
Proof.
  intros Hl. induction fuel as [|fuel IH]; intros j Hj Hf; [lia|].
  cbn [search_loop]. destruct (decide (j = length ns)) as [->|Hne].
  - rewrite listNext_end by (apply node_at_out; cbn; lia).
    cbn. exists NULL. split; [done|]. left. split; [done|].
    intros k a nd Hk Ha. apply lookup_lt_Some in Ha. lia.
  - destruct (listNext_node h l ns (mkIter (node_at ns (Z.of_nat j)) AL_START_HEAD)
                (Z.of_nat j) Hl) as (-> & Hnz); [lia|done|].
    cbn [mbind option_bind direction]. change (AL_START_HEAD =? AL_START_HEAD) with true.
    cbn iota. destruct (node_at ns (Z.of_nat j) =? NULL) eqn:E; zbool; [done|].
    destruct (node_at_in ns (Z.of_nat j)) as (a & Ha & Haj); [lia|].
    rewrite Nat2Z.id in Ha. rewrite Haj in *.
    destruct (is_list_node h l ns Hl (Z.of_nat j)) as (_ & nd & Hnd & _); [lia|].
    rewrite Haj in Hnd. rewrite Hnd. cbn [mbind option_bind].
    replace (Z.of_nat j + 1) with (Z.of_nat (S j)) by lia.
    assert (
      (if match_ l =? NULL then
         if key =? value nd then Some a
         else search_loop match_run h l key fuel
                (mkIter (node_at ns (Z.of_nat (S j))) AL_START_HEAD)
       else if match_run (match_ l) (value nd) key =? 0
            then search_loop match_run h l key fuel
                   (mkIter (node_at ns (Z.of_nat (S j))) AL_START_HEAD)
            else Some a)
      = if matches match_run l key (value nd) then Some a
        else search_loop match_run h l key fuel
               (mkIter (node_at ns (Z.of_nat (S j))) AL_START_HEAD)) as ->.
    { unfold matches. destruct (match_ l =? NULL); [done|].
      by destruct (match_run (match_ l) (value nd) key =? 0). }
    destruct (matches match_run l key (value nd)) eqn:Em.
    + exists a. split; [done|]. right. exists j, nd. repeat split; try done. lia.
    + destruct (IH (S j)) as (r & -> & Hr); [lia..|].
      exists r. split; [done|].
      destruct Hr as [(-> & Hno)|(i & ndi & Hji & Hi & Hndi & Hmi & Hno)].
      * left. split; [done|]. intros k b ndb Hk Hb Hndb.
        destruct (decide (k = j)) as [->|]; [|apply (Hno k b); [lia|done..]].
        rewrite Ha in Hb. injection Hb as <-. rewrite Hnd in Hndb.
        by injection Hndb as <-.
      * right. exists i, ndi. repeat split; try done; [lia|].
        intros k b ndb Hk Hb Hndb.
        destruct (decide (k = j)) as [->|]; [|apply (Hno k b); [lia|done..]].
        rewrite Ha in Hb. injection Hb as <-. rewrite Hnd in Hndb.
        by injection Hndb as <-.
Qed.

End SearchFacts.

(** X22: [listSearchKey] returns the first node, from the head, whose value
    matches the key, and [NULL] when no value matches.  A value matches when
    the [match] method of the list answers something other than 0 for it and
    the key or, for a list without the method, when it is the key itself.
    The iterator is used unchecked: when it cannot be allocated there is no
    result. *)
Theorem listSearchKey_spec match_run h l ns key fuel :
  is_list h l ns -> (length ns < fuel)%nat ->
  listSearchKey match_run h l key fuel false = None /\
  exists r,
    listSearchKey match_run h l key fuel true = Some r /\
    ((r = NULL /\
      forall a nd, a ∈ ns -> h !! a = Some nd ->
        matches match_run l key (value nd) = false) \/
     (exists (i : nat) nd,
        ns !! i = Some r /\ h !! r = Some nd /\
        matches match_run l key (value nd) = true /\
        forall (k : nat) a nda, (k < i)%nat -> ns !! k = Some a -> h !! a = Some nda ->
          matches match_run l key (value nda) = false)).
Proof.
  intros Hl Hf. split; [done|]. pose proof Hl as (_ & Hhead & _).
  unfold listSearchKey. cbn. rewrite Hhead.
  destruct (search_loop_spec match_run h l ns key Hl fuel 0%nat) as (r & Hr & Hcases);
    [lia..|].
  exists r. split; [exact Hr|].
  destruct Hcases as [(-> & Hno)|(i & nd & _ & Hi & Hnd & Hm & Hno)].
  - left. split; [done|]. intros a nd Ha Hnd.
    apply list_elem_of_lookup_1 in Ha as (k & Hk). apply (Hno k a); [lia|done..].
  - right. exists i, nd. repeat split; try done.
    intros k a nda Hk. apply Hno. lia.
Qed.

Lemma listSearchKey_spec_witness :
  listSearchKey (fun _ _ _ => 0) sample_heap sample_list 50 4 true = Some 5.
Proof.
  destruct (listSearchKey_spec (fun _ _ _ => 0) sample_heap sample_list [3; 5; 7] 50 4
              sample_is_list) as (_ & r & Hr & _); [simpl; lia|].
  rewrite Hr. vm_compute in Hr. exact (eq_sym Hr).
Defined.


(** *** [listAddNodeHead] and [listAddNodeTail] *)

Lemma value_alter_insert (h : heap) node nd f p a :
  (forall x, value (f x) = value x) -> p <> node ->
  listNodeValue (alter f p (<[node := nd]> h)) a
  = if decide (a = node) then Some (value nd) else listNodeValue h a.
Proof.
  intros Hf Hp. unfold listNodeValue.
  destruct (decide (a = node)) as [->|Han].
  - by rewrite lookup_alter_ne, lookup_insert_eq.
  - destruct (decide (a = p)) as [->|Hap].
    + rewrite lookup_alter_eq, lookup_insert_ne by done.
      destruct (h !! p); [|done]. cbn. by rewrite Hf.
    + by rewrite lookup_alter_ne, lookup_insert_ne.
Qed.

Lemma value_insert (h : heap) node nd a :
  listNodeValue (<[node := nd]> h) a
  = if decide (a = node) then Some (value nd) else listNodeValue h a.
Proof.
  unfold listNodeValue. destruct (decide (a = node)) as [->|Han].
  - by rewrite lookup_insert_eq.
  - by rewrite lookup_insert_ne.
Qed.

(** X15: [listAddNodeHead] puts a value in front of the list.  When the
    allocation fails the result is [NULL]; with a fresh cell, on a list whose
    length can still grow ([len + 1] is below 2^64), the new node is
    the first one, it holds the value, the nodes of the list follow in their
    order with their values, and every index that was not negative now
    finds its node one place further. *)
Theorem listAddNodeHead_spec h l ns node v :
  is_list h l ns -> node <> NULL -> h !! node = None ->
  len l + 1 < ULONG_MODULUS ->
  listAddNodeHead h l NULL v = None /\
  exists h' l',
    listAddNodeHead h l node v = Some (h', l') /\
    is_list h' l' (node :: ns) /\ len l' = len l + 1 /\
    listNodeValue h' node = Some v /\
    (forall a, a <> node -> listNodeValue h' a = listNodeValue h a) /\
    listIndex h' l' 0 = node /\
    (forall i, 0 <= i -> listIndex h' l' (i + 1) = listIndex h l i).
Proof.
  intros Hl Hnz Hfresh Hmax. split; [done|].
  destruct (listAddNodeHead_is_list h l ns node v Hl Hnz Hfresh Hmax)
    as (h' & l' & Hadd & Hl' & Hlen').
  exists h', l'. do 3 (split; [done|]).
  assert (forall a, listNodeValue h' a
                    = if decide (a = node) then Some v else listNodeValue h a) as Hval.
  { intros a. unfold listAddNodeHead in Hadd.
    destruct (node =? NULL) eqn:E0; [done|].
    destruct (len l =? 0) eqn:E1; zbool; injection Hadd as <- _.
    - apply value_insert.
    - rewrite value_alter_insert; [done..|].
      intros Heq. pose proof Hl as (Hlen & Hhead & _).
      destruct (is_list_node h l ns Hl 0) as (_ & nd0 & Hnd0 & _); [lia|].
      rewrite <- Hhead, Heq in Hnd0. congruence. }
  split; [|split; [|split]].
  - by rewrite Hval, decide_True.
  - intros a Ha. by rewrite Hval, decide_False.
  - by rewrite (listIndex_spec h' l' _ Hl').
  - intros i Hi. rewrite (listIndex_spec h' l' _ Hl'), (listIndex_spec h l _ Hl).
    destruct (i + 1 <? 0) eqn:E1; zbool; [lia|].
    destruct (i <? 0) eqn:E2; zbool; [lia|].
    by apply node_at_cons_S.
Qed.

Lemma listAddNodeHead_spec_witness :
  listAddNodeHead sample_heap sample_list NULL 10 = None /\
  exists h' l',
    listAddNodeHead sample_heap sample_list 1 10 = Some (h', l') /\
    is_list h' l' [1; 3; 5; 7] /\ len l' = 4 /\
    listNodeValue h' 1 = Some 10 /\
    (forall a, a <> 1 -> listNodeValue h' a = listNodeValue sample_heap a) /\
    listIndex h' l' 0 = 1 /\
    (forall i, 0 <= i -> listIndex h' l' (i + 1) = listIndex sample_heap sample_list i).
Proof.
  apply (listAddNodeHead_spec sample_heap sample_list [3; 5; 7] 1 10).
  - apply sample_is_list.
  - done.
  - reflexivity.
  - by vm_compute.
Defined.

(** X16: [listAddNodeTail] puts a value at the end of the list.  When the
    allocation fails the result is [NULL]; with a fresh cell, on a list whose
    length can still grow ([len + 1] is below 2^64), the new node is
    the last one, found at index -1, it holds the value, and the nodes of
    the list keep their values and their indices from the head. *)
Theorem listAddNodeTail_spec h l ns node v :
  is_list h l ns -> node <> NULL -> h !! node = None ->
  len l + 1 < ULONG_MODULUS ->
  listAddNodeTail h l NULL v = None /\
  exists h' l',
    listAddNodeTail h l node v = Some (h', l') /\
    is_list h' l' (ns ++ [node]) /\ len l' = len l + 1 /\
    listNodeValue h' node = Some v /\
    (forall a, a <> node -> listNodeValue h' a = listNodeValue h a) /\
    listIndex h' l' (-1) = node /\
    (forall i, 0 <= i < len l -> listIndex h' l' i = listIndex h l i).
Proof.
  intros Hl Hnz Hfresh Hmax. split; [done|].
  destruct (listAddNodeTail_is_list h l ns node v Hl Hnz Hfresh Hmax)
    as (h' & l' & Hadd & Hl' & Hlen').
  exists h', l'. do 3 (split; [done|]).
  pose proof Hl as (Hlen & _ & Htail & _).
  assert (forall a, listNodeValue h' a
                    = if decide (a = node) then Some v else listNodeValue h a) as Hval.
  { intros a. unfold listAddNodeTail in Hadd.
    destruct (node =? NULL) eqn:E0; [done|].
    destruct (len l =? 0) eqn:E1; zbool; injection Hadd as <- _.
    - apply value_insert.
    - rewrite value_alter_insert; [done..|].
      intros Heq.
      destruct (is_list_node h l ns Hl (len l - 1)) as (_ & nd0 & Hnd0 & _); [lia|].
      rewrite <- Htail, Heq in Hnd0. congruence. }
  split; [|split; [|split]].
  - by rewrite Hval, decide_True.
  - intros a Ha. by rewrite Hval, decide_False.
  - rewrite (listIndex_spec h' l' _ Hl'). cbn. rewrite Hlen', Hlen.
    replace (Z.of_nat (length ns) + 1 + -1) with (Z.of_nat (length ns)) by lia.
    apply node_at_app_last.
  - intros i Hi. rewrite (listIndex_spec h' l' _ Hl'), (listIndex_spec h l _ Hl).
    destruct (i <? 0) eqn:E2; zbool; [lia|].
    apply node_at_app_l. lia.
Qed.

Lemma listAddNodeTail_spec_witness :
  listAddNodeTail sample_heap sample_list NULL 90 = None /\
  exists h' l',
    listAddNodeTail sample_heap sample_list 9 90 = Some (h', l') /\
    is_list h' l' [3; 5; 7; 9] /\ len l' = 4 /\
    listNodeValue h' 9 = Some 90 /\
    (forall a, a <> 9 -> listNodeValue h' a = listNodeValue sample_heap a) /\
    listIndex h' l' (-1) = 9 /\
    (forall i, 0 <= i < 3 -> listIndex h' l' i = listIndex sample_heap sample_list i).
Proof.
  apply (listAddNodeTail_spec sample_heap sample_list [3; 5; 7] 9 90).
  - apply sample_is_list.
  - done.
  - reflexivity.
  - by vm_compute.
Defined.


(** *** [listDup] *)

Lemma listAddNodeTail_value h l ns node v h' l' :
  is_list h l ns -> h !! node = None ->
  listAddNodeTail h l node v = Some (h', l') ->
  forall a, listNodeValue h' a = if decide (a = node) then Some v else listNodeValue h a.
Proof.
  intros Hl Hfresh Hadd a. pose proof Hl as (Hlen & _ & Htail & _).
  unfold listAddNodeTail in Hadd.
  destruct (node =? NULL) eqn:E0; [done|].
  destruct (len l =? 0) eqn:E1; zbool; injection Hadd as <- _.
  - apply value_insert.
  - rewrite value_alter_insert; [done..|].
    intros Heq.
    destruct (is_list_node h l ns Hl (len l - 1)) as (_ & nd0 & Hnd0 & _); [lia|].
    rewrite <- Htail, Heq in Hnd0. congruence.
Qed.

Lemma listAddNodeTail_frame h l ns node v h' l' :
  is_list h l ns ->
  listAddNodeTail h l node v = Some (h', l') ->
  (forall a, a ∉ ns -> a <> node -> h' !! a = h !! a) /\
  dup l' = dup l /\ free l' = free l /\ match_ l' = match_ l.
Proof.
  intros Hl Hadd. pose proof Hl as (Hlen & _ & Htail & _).
  unfold listAddNodeTail in Hadd.
  destruct (node =? NULL) eqn:E0; [done|].
  destruct (len l =? 0) eqn:E1; zbool; injection Hadd as <- <-.
  - split; [|done]. intros a _ Ha. by rewrite lookup_insert_ne.
  - split; [|done]. intros a Hin Ha.
    rewrite lookup_alter_ne, lookup_insert_ne; [done..|].
    intros <-. apply Hin. rewrite Htail.
    destruct (node_at_in ns (len l - 1)) as (b & Hb & ->); [lia|].
    by eapply list_elem_of_lookup_2.
Qed.


Section DupFacts.

Variable dup_run : Z -> Z -> Z.

Lemma dup_loop_spec h0 orig ns :
  is_list h0 orig ns -> Z.of_nat (length ns) < ULONG_MODULUS ->
  forall fuel (j : nat) h copy ms cells,
    (j <= length ns)%nat -> (length ns - j < fuel)%nat ->
    is_list h copy ms -> length ms = j ->
    (forall a, a ∈ ms -> h0 !! a = None) ->
    (forall a, a ∉ ms -> h !! a = h0 !! a) ->
    NoDup cells ->
    (forall a, a ∈ cells -> h0 !! a = None /\ a ∉ ms) ->
    dup copy = dup orig ->
    omap (listNodeValue h) ms
    = dup_value dup_run orig <$> omap (listNodeValue h0) (take j ns) ->
    exists h' r freed,
      dup_loop dup_run h copy fuel (mkIter (node_at ns (Z.of_nat j)) AL_START_HEAD) cells
      = Some (h', r, freed) /\
      match r with
      | None =>
          h' = h0 /\
          exists (k : nat) a nd,
            (j <= k)%nat /\ ns !! k = Some a /\ h0 !! a = Some nd /\
            dup_stuck dup_run orig (value nd) (hd NULL (drop (k - j) cells)) /\
            (forall (i : nat) b ndb,
               (j <= i < k)%nat -> ns !! i = Some b -> h0 !! b = Some ndb ->
               ~ dup_stuck dup_run orig (value ndb) (hd NULL (drop (i - j) cells))) /\
            freed = (if free copy =? NULL then []
                     else dup_value dup_run orig <$> omap (listNodeValue h0) (take k ns))
      | Some copy' =>
          is_list h' copy' (ms ++ take (length ns - j) cells) /\
          (length ns - j <= length cells)%nat /\
          (forall a, a ∉ ms ++ take (length ns - j) cells -> h' !! a = h0 !! a) /\
          omap (listNodeValue h') (ms ++ take (length ns - j) cells)
          = dup_value dup_run orig <$> omap (listNodeValue h0) ns /\
          dup copy' = dup copy /\ free copy' = free copy /\ match_ copy' = match_ copy /\
          freed = []
      end /\
      ((length ns - j <= length cells)%nat -> NULL ∉ cells ->
       (dup orig <> NULL -> forall a nd, a ∈ ns -> h0 !! a = Some nd ->
          dup_run (dup orig) (value nd) <> NULL) ->
       r <> None).
Proof.
  intros Hl0 Hmax. induction fuel as [|fuel IH];
    intros j h copy ms cells Hj Hf Hlc Hlen Hfresh Hagree Hnd Hcells Hdup Hvals; [lia|].
  assert (forall a, a ∈ ns -> a ∉ ms) as Hdisj.
  { intros a Ha Hin. apply list_elem_of_lookup_1 in Ha as (k & Hk).
    destruct Hl0 as (_ & _ & _ & Hn). destruct (Hn k a Hk) as (_ & nd & Hnd' & _).
    rewrite (Hfresh a Hin) in Hnd'. done. }
  assert (is_list h orig ns) as Hlo.
  { apply (is_list_frame h0); [done|]. intros a Ha. by apply Hagree, Hdisj. }
  assert (forall hx,
            (forall a, a ∈ ms -> hx !! a = None) ->
            (forall a, a ∉ ms -> hx !! a = h !! a) -> hx = h0) as Hback.
  { intros hx Hin Hout. apply map_eq. intros a.
    destruct (decide (a ∈ ms)) as [Ha|Ha].
    - by rewrite Hin, Hfresh.
    - by rewrite Hout, Hagree. }
  assert (exists hx,
            listRelease h copy
            = Some (hx, if free copy =? NULL then []
                        else dup_value dup_run orig <$>
                               omap (listNodeValue h0) (take j ns)) /\
            hx = h0) as (hx & Hrel & Hhx).
  { destruct (listRelease_list h copy ms Hlc) as (hx & Hrel & Hin & Hout).
    exists hx. rewrite Hvals in Hrel. split; [exact Hrel|]. by apply Hback. }
  cbn [dup_loop]. destruct (decide (j = length ns)) as [->|Hne].
  - rewrite listNext_end by (apply node_at_out; cbn; lia).
    cbn. exists h, (Some copy), []. split; [done|].
    rewrite Nat.sub_diag, take_0, app_nil_r, firstn_all in *.
    split; [|done]. split; [exact Hlc|]. split; [lia|]. do 2 (split; [done|]). done.
  - destruct (listNext_node h orig ns (mkIter (node_at ns (Z.of_nat j)) AL_START_HEAD)
                (Z.of_nat j) Hlo) as (-> & Hnz); [lia|done|].
    cbn [mbind option_bind direction]. change (AL_START_HEAD =? AL_START_HEAD) with true.
    cbn iota. destruct (node_at ns (Z.of_nat j) =? NULL) eqn:E; zbool; [done|].
    destruct (node_at_in ns (Z.of_nat j)) as (a & Ha & Haj); [lia|].
    rewrite Nat2Z.id in Ha. rewrite Haj in *.
    assert (a ∈ ns) as Hains by (by eapply list_elem_of_lookup_2).
    destruct (is_list_node h0 orig ns Hl0 (Z.of_nat j)) as (_ & nd & Hnd0 & _); [lia|].
    rewrite Haj in Hnd0.
    assert (h !! a = Some nd) as Hnda by (by rewrite Hagree by (by apply Hdisj)).
    rewrite Hnda. cbn [mbind option_bind]. rewrite Hdup.
    change (if dup orig =? NULL then value nd else dup_run (dup orig) (value nd))
      with (dup_value dup_run orig (value nd)).
    (* what is reported when the loop gives up at this node *)
    assert (forall fx,
              dup_stuck dup_run orig (value nd) (hd NULL cells) ->
              fx = (if free copy =? NULL then []
                    else dup_value dup_run orig <$> omap (listNodeValue h0) (take j ns)) ->
              exists (k : nat) a0 nd0,
                (j <= k)%nat /\ ns !! k = Some a0 /\ h0 !! a0 = Some nd0 /\
                dup_stuck dup_run orig (value nd0) (hd NULL (drop (k - j) cells)) /\
                (forall (i : nat) b ndb,
                   (j <= i < k)%nat -> ns !! i = Some b -> h0 !! b = Some ndb ->
                   ~ dup_stuck dup_run orig (value ndb) (hd NULL (drop (i - j) cells))) /\
                fx = (if free copy =? NULL then []
                      else dup_value dup_run orig <$>
                             omap (listNodeValue h0) (take k ns))) as Hhere.
    { intros fx Hst ->. exists j, a, nd. rewrite Nat.sub_diag, drop_0.
      repeat split; try done. intros i b ndb Hi. lia. }
    destruct (negb (dup orig =? NULL) && (dup_value dup_run orig (value nd) =? NULL))
      eqn:Efail.
    { rewrite Hrel. cbn. eexists hx, None, _. split; [done|].
      apply andb_prop in Efail as (E1 & E2). apply negb_true_iff in E1. zbool.
      assert (dup_run (dup orig) (value nd) = NULL) as Hnull.
      { revert E2. unfold dup_value. destruct (dup orig =? NULL) eqn:E3; zbool; done. }
      split; [split; [done|]|].
      - apply Hhere; [|done]. left. by split.
      - intros _ _ Hok. exfalso. by apply (Hok E1 a nd Hains Hnd0). }
    assert (~ (dup orig <> NULL /\ dup_run (dup orig) (value nd) = NULL)) as Hdupok.
    { intros (H1 & H2). apply andb_false_iff in Efail as [E1|E2].
      - apply negb_false_iff in E1. zbool. done.
      - unfold dup_value in E2. destruct (dup orig =? NULL) eqn:E3; zbool; [done|].
        done. }
    destruct cells as [|c cells].
    { cbn [hd]. unfold listAddNodeTail at 1. rewrite Z.eqb_refl.
      rewrite Hrel. cbn. eexists hx, None, _. split; [done|]. split.
      - split; [done|]. apply Hhere; [|done]. by right.
      - intros Hle. simpl in Hle. lia. }
    cbn [hd tl]. destruct (decide (c = NULL)) as [->|Hcz].
    { unfold listAddNodeTail at 1. rewrite Z.eqb_refl.
      rewrite Hrel. cbn. eexists hx, None, _. split; [done|]. split.
      - split; [done|]. apply Hhere; [|done]. by right.
      - intros _ Hnull. exfalso. apply Hnull. by left. }
    destruct (Hcells c) as (Hc0 & Hcms); [by left|].
    assert (h !! c = None) as Hch by (by rewrite Hagree).
    assert (len copy + 1 < ULONG_MODULUS) as Hcmax.
    { destruct Hlc as (Hlenc & _). rewrite Hlenc, Hlen. lia. }
    destruct (listAddNodeTail_is_list h copy ms c (dup_value dup_run orig (value nd))
                Hlc Hcz Hch Hcmax) as (h1 & copy1 & Hadd & Hl1 & Hlen1).
    pose proof (listAddNodeTail_value _ _ _ _ _ _ _ Hlc Hch Hadd) as Hval1.
    destruct (listAddNodeTail_frame _ _ _ _ _ _ _ Hlc Hadd) as (Hfr1 & Hd1 & Hf1 & Hm1).
    rewrite Hadd. apply NoDup_cons in Hnd as (Hcc & Hnd).
    replace (Z.of_nat j + 1) with (Z.of_nat (S j)) by lia.
    assert ((ms ++ [c]) ++ take (length ns - S j) cells
            = ms ++ take (length ns - j) (c :: cells)) as Hms.
    { rewrite <- app_assoc. f_equal.
      replace (length ns - j)%nat with (S (length ns - S j)) by lia. done. }
    destruct (IH (S j) h1 copy1 (ms ++ [c]) cells) as (h' & r & freed & -> & Hr & Hsucc).
    + lia.
    + lia.
    + done.
    + rewrite length_app. simpl. lia.
    + intros b [Hb|Hb]%elem_of_app; [by apply Hfresh|].
      apply list_elem_of_singleton in Hb as ->. done.
    + intros b Hb. apply not_elem_of_app in Hb as (Hb1 & Hb2).
      rewrite Hfr1; [by apply Hagree|done|].
      intros ->. apply Hb2. by apply list_elem_of_singleton.
    + done.
    + intros b Hb. destruct (Hcells b) as (Hb0 & Hbms); [by right|].
      split; [done|]. intros [Hb1|Hb1]%elem_of_app; [done|].
      apply list_elem_of_singleton in Hb1 as ->. done.
    + by rewrite Hd1.
    + rewrite omap_app. cbn [omap list_omap].
      rewrite Hval1, decide_True by done. cbn.
      rewrite (take_S_r _ _ _ Ha), omap_app, fmap_app. cbn [omap list_omap].
      unfold listNodeValue at 3. rewrite Hnd0. cbn. f_equal.
      rewrite <- Hvals. apply omap_values_ext. intros b Hb.
      rewrite Hval1, decide_False; [done|]. by intros ->.
    + exists h', r, freed. split; [done|]. split.
      * destruct r as [copy'|].
        -- rewrite <- Hms.
           destruct Hr as (H1 & H2 & H3 & H4 & H5 & H6 & H7 & H8).
           split; [exact H1|]. split; [simpl length; lia|].
           split; [exact H3|]. split; [exact H4|]. repeat split; congruence.
        -- destruct Hr as (Hh & k & a0 & nd0 & Hk & Hak & Hndk & Hst & Hfirst & Hfreed).
           split; [done|]. exists k, a0, nd0.
           assert (forall i, (S j <= i)%nat ->
                     drop (i - j) (c :: cells) = drop (i - S j) cells) as Hdrop.
           { intros i Hi. replace (i - j)%nat with (S (i - S j)) by lia. done. }
           split; [lia|]. split; [done|]. split; [done|]. split; [|split].
           ++ by rewrite Hdrop.
           ++ intros i b ndb Hi Hb Hndb.
              destruct (decide (i = j)) as [->|Hij].
              ** rewrite Nat.sub_diag, drop_0. cbn [hd].
                 rewrite Ha in Hb. injection Hb as <-.
                 rewrite Hnd0 in Hndb. injection Hndb as <-.
                 intros [Hst'|Hst']; done.
              ** rewrite Hdrop by lia. apply (Hfirst i b ndb); [lia|done..].
           ++ by rewrite Hfreed, Hf1.
      * intros Hle Hnull Hok. apply Hsucc; [simpl in Hle; lia| |done].
        intros Hin. apply Hnull. by right.
Qed.

End DupFacts.

(** X24: [listDup] on a list of fewer than 2^64 nodes, with fresh cells from
    the allocator.  The nodes of the original list and their cells are after
    the call what they were before it, whether it succeeds or fails.  It
    returns [NULL] at once when the list itself cannot be allocated.
    Otherwise it gives up at the first node for which the [dup] method
    returns [NULL] or the allocator has no cell: it returns [NULL], every
    node made for the copy has been given back, so that the memory of the
    nodes is what it was before the call, and the [free] method, when the
    list has one, has been handed the values stored in the copy so far:
    those of the nodes before that one, passed through the [dup] method when
    there is one and the original's own values when there is none.  When it
    gives up at no node it succeeds: the copy is a list of as many new nodes,
    with the three methods of the original, whose values are, in order, those
    of the original, passed through the [dup] method when there is one, and
    nothing is handed to the [free] method.  It succeeds when no allocation
    fails and the [dup] method never returns [NULL]. *)
Theorem listDup_spec dup_run h orig ns fuel cells :
  is_list h orig ns -> Z.of_nat (length ns) < ULONG_MODULUS ->
  (length ns < fuel)%nat ->
  NoDup cells -> (forall a, a ∈ cells -> h !! a = None) ->
  listDup dup_run h orig fuel false true cells = Some (h, None, []) /\
  exists h' r freed,
    listDup dup_run h orig fuel true true cells = Some (h', r, freed) /\
    is_list h' orig ns /\
    (forall a, a ∈ ns -> h' !! a = h !! a) /\
    match r with
    | None =>
        h' = h /\
        exists (k : nat) a nd,
          ns !! k = Some a /\ h !! a = Some nd /\
          dup_stuck dup_run orig (value nd) (hd NULL (drop k cells)) /\
          (forall (i : nat) b ndb,
             (i < k)%nat -> ns !! i = Some b -> h !! b = Some ndb ->
             ~ dup_stuck dup_run orig (value ndb) (hd NULL (drop i cells))) /\
          freed = (if free orig =? NULL then []
                   else dup_value dup_run orig <$> omap (listNodeValue h) (take k ns))
    | Some copy =>
        is_list h' copy (take (length ns) cells) /\
        length (take (length ns) cells) = length ns /\
        omap (listNodeValue h') (take (length ns) cells)
        = dup_value dup_run orig <$> omap (listNodeValue h) ns /\
        (forall a, a ∉ take (length ns) cells -> h' !! a = h !! a) /\
        dup copy = dup orig /\ free copy = free orig /\ match_ copy = match_ orig /\
        freed = []
    end /\
    ((length ns <= length cells)%nat -> NULL ∉ cells ->
     (dup orig <> NULL -> forall a nd, a ∈ ns -> h !! a = Some nd ->
        dup_run (dup orig) (value nd) <> NULL) ->
     r <> None).
Proof.
  intros Hl Hmax Hf Hnd Hcells. split; [done|].
  pose proof Hl as (_ & Hhead & _ & Hn).
  unfold listDup. cbn [listCreate listGetIterator mbind option_bind head tail len].
  change (AL_START_HEAD =? AL_START_HEAD) with true. cbn iota. rewrite Hhead.
  destruct (dup_loop_spec dup_run h orig ns Hl Hmax fuel 0%nat h
              (mkList NULL NULL (dup orig) (free orig) (match_ orig) 0) [] cells)
    as (h' & r & freed & Hloop & Hr & Hsucc); try done; try lia.
  { intros a Ha. by apply elem_of_nil in Ha. }
  { intros a Ha. split; [by apply Hcells|]. apply not_elem_of_nil. }
  rewrite Nat.sub_0_r in *. cbn [app free] in Hr.
  exists h', r, freed. split; [exact Hloop|].
  assert (forall a, a ∈ ns -> a ∉ take (length ns) cells) as Hdisj.
  { intros a Ha Hin. apply list_elem_of_lookup_1 in Ha as (k & Hk).
    destruct (Hn k a Hk) as (_ & nd & Hnda & _).
    rewrite Hcells in Hnda; [done|].
    apply elem_of_take in Hin as (i & Hi & _). by eapply list_elem_of_lookup_2. }
  assert (forall a, a ∈ ns -> h' !! a = h !! a) as Hsame.
  { intros a Ha. destruct r as [copy|]; [|by destruct Hr as (-> & _)].
    destruct Hr as (_ & _ & Hout & _). by apply Hout, Hdisj. }
  split; [by apply (is_list_frame h)|]. split; [done|]. split; [|done].
  destruct r as [copy|].
  - destruct Hr as (H1 & H2 & H3 & H4 & H5 & H6 & H7 & H8).
    split; [done|]. split; [rewrite length_take; lia|]. by repeat split.
  - destruct Hr as (Hh & k & a & nd & _ & Hk & Hndk & Hst & Hfirst & Hfreed).
    split; [done|]. exists k, a, nd. rewrite Nat.sub_0_r in Hst.
    split; [done|]. split; [done|]. split; [done|]. split; [|done].
    intros i b ndb Hi Hb Hndb.
    specialize (Hfirst i b ndb). rewrite Nat.sub_0_r in Hfirst.
    apply Hfirst; [lia|done..].
Qed.

(** The list of three nodes: copied when the allocator has cells for three
    nodes; when it has one cell only, [listDup] gives up at the second node
    and the free method of the list is handed the value 30 of the first
    node, which the original holds too. *)
Lemma listDup_spec_witness :
  (exists h' copy,
     listDup (fun _ v => v + 1) sample_heap sample_list 4 true true [11; 12; 13; 14]
     = Some (h', Some copy, []) /\
     is_list h' sample_list [3; 5; 7] /\
     is_list h' copy [11; 12; 13] /\
     omap (listNodeValue h') [11; 12; 13] = [30; 50; 70]) /\
  listDup (fun _ v => v + 1) sample_heap sample_list 4 true true [11]
  = Some (sample_heap, None, [30]).
Proof.
  split.
  - destruct (listDup_spec (fun _ v => v + 1) sample_heap sample_list [3; 5; 7] 4
                [11; 12; 13; 14] sample_is_list)
      as (_ & h' & r & freed & Hdup & Hl & _ & Hr & Hsucc).
    + by vm_compute.
    + simpl. lia.
    + by apply (bool_decide_unpack _).
    + intros a Ha. repeat (apply elem_of_cons in Ha as [->|Ha]; [reflexivity|]).
      by apply elem_of_nil in Ha.
    + destruct r as [copy|].
      * destruct Hr as (Hc & _ & Hv & _ & _ & _ & _ & ->).
        exists h', copy. split; [exact Hdup|]. split; [exact Hl|]. split; [exact Hc|].
        exact Hv.
      * exfalso. apply Hsucc; [simpl; lia| |done..].
        by apply (bool_decide_unpack _).
  - destruct (listDup_spec (fun _ v => v + 1) sample_heap sample_list [3; 5; 7] 4
                [11] sample_is_list)
      as (_ & h' & r & freed & Hdup & _ & _ & Hr & _).
    + by vm_compute.
    + simpl. lia.
    + by apply (bool_decide_unpack _).
    + intros a Ha. apply list_elem_of_singleton in Ha as ->. reflexivity.
    + rewrite Hdup. vm_compute in Hdup. injection Hdup as <- <- <-. reflexivity.
Defined.

End AdlistOpsFacts.
